(** * Notion <-> Markdown blog sync: a shallow embedding

    The repository holds two scripts.  The push script reads the Markdown
    posts of the blog, parses their frontmatter, converts the body to Notion
    blocks and creates one Notion page per post.  The pull script queries the
    Notion data source, renders every page as Markdown and writes it under
    [src/content/blog/<year>/NN-<slug>.md], remembering the time of the last
    pull in [.notion-sync-state.json].

    JavaScript strings are sequences of UTF-16 code units; they are modelled
    as [list N].  Effects (the remote service, the file system, the clock and
    the console) are modelled by explicit state passing over a world record,
    with a ghost trace of the operations performed. *)

From Stdlib Require Import NArith ZArith Lia Bool Ascii String DecimalString DecimalN.
From stdpp Require Import base list gmap.

Local Open Scope N_scope.

(** ** JavaScript strings and the built-ins the scripts use *)

Module JS.

(** Code units of an ASCII literal. *)
Definition lit (s : String.string) : list N :=
  map N_of_ascii (list_ascii_of_string s).

Definition HYPHEN : N := 45.
Definition NEWLINE : N := 10.
Definition DQUOTE : N := 34.
Definition SQUOTE : N := 39.
Definition BACKSLASH : N := 92.
Definition COLON : N := 58.
Definition COMMA : N := 44.
Definition SPACE : N := 32.
Definition LBRACKET : N := 91.
Definition RBRACKET : N := 93.
Definition DOT : N := 46.

(** [WhiteSpace] and [LineTerminator] of ECMAScript: what [trim] strips
    and what [\s] matches. *)
Definition is_space (c : N) : bool :=
  (c =? 9) || (c =? 10) || (c =? 11) || (c =? 12) || (c =? 13) ||
  (c =? 32) || (c =? 0xA0) || (c =? 0x1680) ||
  ((0x2000 <=? c) && (c <=? 0x200A)) ||
  (c =? 0x2028) || (c =? 0x2029) || (c =? 0x202F) || (c =? 0x205F) ||
  (c =? 0x3000) || (c =? 0xFEFF).

(** [LineTerminator]: what [.] does not match. *)
Definition is_line_terminator (c : N) : bool :=
  (c =? 10) || (c =? 13) || (c =? 0x2028) || (c =? 0x2029).

Definition is_digit (c : N) : bool := (48 <=? c) && (c <=? 57).

Fixpoint skip_while (f : N -> bool) (s : list N) : list N :=
  match s with
  | [] => []
  | c :: r => if f c then skip_while f r else s
  end.

Fixpoint span_while (f : N -> bool) (s : list N) : list N :=
  match s with
  | [] => []
  | c :: r => if f c then c :: span_while f r else []
  end.

(** [s.trim()] *)
Definition trim (s : list N) : list N :=
  reverse (skip_while is_space (reverse (skip_while is_space s))).

(** [s.startsWith(p)] *)
Fixpoint startsWith (s p : list N) {struct p} : bool :=
  match p, s with
  | [], _ => true
  | _ :: _, [] => false
  | a :: p', b :: s' => (a =? b) && startsWith s' p'
  end.

(** [s.endsWith(p)] *)
Definition endsWith (s p : list N) : bool := startsWith (reverse s) (reverse p).

(** [s === t] on strings *)
Definition str_eqb (s t : list N) : bool := bool_decide (s = t).

(** [s.slice(a, b)], negative indices counting from the end. *)
Definition slice_index (len : nat) (i : Z) : nat :=
  if (i <? 0)%Z then Z.to_nat (Z.max (Z.of_nat len + i) 0)
  else Nat.min (Z.to_nat i) len.

Definition slice (s : list N) (a b : Z) : list N :=
  let from := slice_index (length s) a in
  let to := slice_index (length s) b in
  take (to - from)%nat (drop from s).

(** [s.slice(a)] *)
Definition slice_from (s : list N) (a : Z) : list N :=
  drop (slice_index (length s) a) s.

(** [s.indexOf(p)]: position of the first occurrence, [None] for -1. *)
Fixpoint indexOf_from (i : nat) (s p : list N) : option nat :=
  if startsWith s p then Some i
  else match s with
       | [] => None
       | _ :: r => indexOf_from (S i) r p
       end.

Definition indexOf (s p : list N) : option nat := indexOf_from 0 s p.

(** [s.includes(p)] *)
Definition includes (s p : list N) : bool :=
  match indexOf s p with Some _ => true | None => false end.

(** [s.split(c)] for a separator of one code unit. *)
Fixpoint split_aux (c : N) (cur : list N) (s : list N) : list (list N) :=
  match s with
  | [] => [reverse cur]
  | x :: r => if x =? c then reverse cur :: split_aux c [] r
              else split_aux c (x :: cur) r
  end.

Definition split (s : list N) (c : N) : list (list N) := split_aux c [] s.

(** [a.join(sep)] *)
Fixpoint join (sep : list N) (a : list (list N)) : list N :=
  match a with
  | [] => []
  | [x] => x
  | x :: r => x ++ sep ++ join sep r
  end.

(** [String(n)] for a non-negative integer. *)
Definition String_of_N (n : N) : list N :=
  lit (NilZero.string_of_uint (N.to_uint n)).

(** [s.padStart(w, "0")] *)
Definition padStart0 (w : nat) (s : list N) : list N :=
  replicate (w - length s)%nat 48 ++ s.

(** [parseInt(s, 10)] on a non-empty run of decimal digits. *)
Definition parseInt_digits (s : list N) : N :=
  fold_left (fun acc c => 10 * acc + (c - 48)) s 0.

(** [s.toLowerCase()].  Only the mappings that produce a Latin letter are
    spelled out: A-Z, U+0130 (which lowers to "i" followed by U+0307) and
    the Kelvin sign U+212A (which lowers to "k").  Every other code unit
    is left in place: its lower-case form, whatever its length, consists
    of units that are neither ASCII letters or digits nor in
    U+4E00..U+9FA5, exactly like the unit itself, and the only user of
    [toLowerCase], [generateSlug], replaces whole runs of such units. *)
Definition lower_unit (c : N) : list N :=
  if (65 <=? c) && (c <=? 90) then [c + 32]
  else if c =? 0x130 then [0x69; 0x307]
  else if c =? 0x212A then [0x6B]
  else [c].

Definition toLowerCase (s : list N) : list N := flat_map lower_unit s.

(** [s.replace(/"/g, '\\"')] *)
Definition escape_dquote (s : list N) : list N :=
  flat_map (fun c => if c =? DQUOTE then [BACKSLASH; DQUOTE] else [c]) s.

(** JavaScript truthiness of a string. *)
Definition truthy_str (s : list N) : bool :=
  match s with [] => false | _ => true end.

End JS.

(** ** Exceptions and the state-and-exception monad of both scripts *)

Module Effects.

Inductive Exn :=
| InvalidFrontmatter                               (* Error: no frontmatter found *)
| NotionApiError (status : N) (errorText : list N) (* Error: Notion API error *)
| TypeError                                        (* a method missing on a value of the wrong shape *)
| HostError (message : list N).                    (* raised by the network, the file system or a library *)

(** A pure computation that may throw. *)
Inductive Result (A : Type) :=
| Ok (a : A)
| Err (e : Exn).
Arguments Ok {A} a.
Arguments Err {A} e.

(** A computation on a world [W]: it returns or throws, and leaves a
    world in both cases. *)
Inductive Outcome (W A : Type) :=
| Done (a : A) (w : W)
| Threw (e : Exn) (w : W).
Arguments Done {W A} a w.
Arguments Threw {W A} e w.

Definition M (W A : Type) : Type := W -> Outcome W A.

Definition ret {W A} (a : A) : M W A := fun w => Done a w.
Definition throw {W A} (e : Exn) : M W A := fun w => Threw e w.
Definition bind {W A B} (m : M W A) (k : A -> M W B) : M W B :=
  fun w => match m w with
           | Done a w' => k a w'
           | Threw e w' => Threw e w'
           end.
(** [try { m } catch (error) { handler }] *)
Definition try_catch {W A} (m : M W A) (handler : Exn -> M W A) : M W A :=
  fun w => match m w with
           | Done a w' => Done a w'
           | Threw e w' => handler e w'
           end.
Definition lift {W A} (r : Result A) : M W A :=
  match r with Ok a => ret a | Err e => throw e end.

(** The world an outcome leaves. *)
Definition world_of {W A} (o : Outcome W A) : W :=
  match o with Done _ w => w | Threw _ w => w end.

Declare Scope eff_scope.
Delimit Scope eff_scope with eff.
Notation "x <- m ;; k" := (bind m (fun x => k))
  (at level 100, m at next level, right associativity) : eff_scope.
Notation "m ;; k" := (bind m (fun _ => k))
  (at level 100, right associativity) : eff_scope.

End Effects.

(** ** The push script: Markdown files to Notion pages *)

Module Push.
Import JS Effects.

(** *** Frontmatter *)

(** The parser stores strings, booleans and arrays of strings under
    arbitrary keys of the frontmatter object. *)
Inductive Value :=
| VStr (s : list N)
| VBool (b : bool)
| VList (items : list (list N)).

(** Truthiness of [frontmatter.key], [None] being [undefined]. *)
Definition truthy (v : option Value) : bool :=
  match v with
  | Some (VStr s) => truthy_str s
  | Some (VBool b) => b
  | Some (VList _) => true
  | None => false
  end.

Definition key_title : list N := Eval cbv in lit "title".
Definition key_date : list N := Eval cbv in lit "date".
Definition key_slug : list N := Eval cbv in lit "slug".
Definition key_tags : list N := Eval cbv in lit "tags".
Definition key_categories : list N := Eval cbv in lit "categories".
Definition str_true : list N := Eval cbv in lit "true".
Definition str_false : list N := Eval cbv in lit "false".

(** "---\n" and "\n---\n" *)
Definition fm_open : list N := Eval cbv in lit "---" ++ [NEWLINE].
Definition fm_close : list N := Eval cbv in [NEWLINE] ++ lit "---" ++ [NEWLINE].

(** [fileContent.match(frontmatterRegex)]: the text opens with "---\n";
    the lazy first group ends at the first "\n---\n" that follows, the
    second group is everything after it. *)
Definition match_frontmatter (fileContent : list N) : option (list N * list N) :=
  if startsWith fileContent fm_open then
    let rest := drop (length fm_open) fileContent in
    match indexOf rest fm_close with
    | Some p => Some (take p rest, drop (p + length fm_close) rest)
    | None => None
    end
  else None.

Definition quoted (s : list N) : bool :=
  (startsWith s [DQUOTE] && endsWith s [DQUOTE]) ||
  (startsWith s [SQUOTE] && endsWith s [SQUOTE]).

(** "Remove quotes if present" *)
Definition unquote (s : list N) : list N :=
  if quoted s then slice s 1 (-1) else s.

Definition nonempty (s : list N) : bool :=
  match s with [] => false | _ => true end.

(** "Parse arrays" *)
Definition parse_items (value : list N) : list (list N) :=
  List.filter nonempty
    (map (fun item => unquote (trim item)) (split (slice value 1 (-1)) COMMA)).

Definition parse_value (value : list N) : Value :=
  if startsWith value [LBRACKET] && endsWith value [RBRACKET]
  then VList (parse_items value)
  else if str_eqb value str_true then VBool true
  else if str_eqb value str_false then VBool false
  else VStr value.

Definition key_proto : list N := Eval cbv in lit "__proto__".

(** One iteration of [for (const line of lines)].  The assignment
    [frontmatter[key] = ...] stores a property of the object, except for
    the key [__proto__], which goes to the setter of [Object.prototype]:
    it stores nothing, and whatever it makes the prototype (an array, for
    a list value), none of the keys the script reads is found there. *)
Definition parse_line (frontmatter : gmap (list N) Value) (line : list N)
  : gmap (list N) Value :=
  match indexOf line [COLON] with
  | None => frontmatter
  | Some colonIndex =>
      let key := trim (slice line 0 (Z.of_nat colonIndex)) in
      let value := unquote (trim (slice_from line (Z.of_nat colonIndex + 1))) in
      if str_eqb key key_proto then frontmatter
      else <[key := parse_value value]> frontmatter
  end.

(** [{ title: "", date: "" }] *)
Definition empty_frontmatter : gmap (list N) Value :=
  <[key_date := VStr []]> (<[key_title := VStr []]> ∅).

Definition parseFrontmatter (fileContent : list N)
  : Result (gmap (list N) Value * list N) :=
  match match_frontmatter fileContent with
  | None => Err InvalidFrontmatter
  | Some (frontmatterStr, content) =>
      Ok (fold_left parse_line (split frontmatterStr NEWLINE) empty_frontmatter,
          trim content)
  end.

(** *** Markdown to blocks *)

(** A block carries its type and one run of plain text. *)
Inductive Block :=
| heading_1 (text : list N)
| heading_2 (text : list N)
| heading_3 (text : list N)
| code (text : list N) (language : list N)
| bulleted_list_item (text : list N)
| numbered_list_item (text : list N)
| quote (text : list N)
| paragraph (text : list N).

Definition h3_prefix : list N := Eval cbv in lit "### ".
Definition h2_prefix : list N := Eval cbv in lit "## ".
Definition h1_prefix : list N := Eval cbv in lit "# ".
Definition fence : list N := Eval cbv in lit "```".
Definition dash_prefix : list N := Eval cbv in lit "- ".
Definition star_prefix : list N := Eval cbv in lit "* ".
Definition quote_prefix : list N := Eval cbv in lit "> ".
Definition plain_text : list N := Eval cbv in lit "plain text".

(** The numbered-item pattern: digits, a dot, white space, then text
    without line terminators up to the end; the result is group 1.  The
    greedy [\s+] takes the whole run of white space: giving part of it
    back would only add units to what [.*] has to match. *)
Definition match_numbered (line : list N) : option (list N) :=
  match span_while is_digit line, skip_while is_digit line with
  | _ :: _, c :: rest =>
      if c =? DOT then
        match span_while is_space rest with
        | [] => None
        | _ :: _ =>
            let text := skip_while is_space rest in
            if forallb (fun u => negb (is_line_terminator u)) text
            then Some text else None
        end
      else None
  | _, _ => None
  end.

(** [line.slice(3).trim() || "plain text"] *)
Definition fence_language (line : list N) : list N :=
  let tag := trim (slice_from line 3) in
  if truthy_str tag then tag else plain_text.

(** The scan over [lines]; the argument is the part of [lines] from the
    cursor [i] on.  [collect_code] is the inner [while] loop, which shares
    the cursor: it stops at a line that starts with a fence, which is
    skipped, or at the end of the input. *)
Fixpoint blocks_from (lines : list (list N)) : list Block :=
  match lines with
  | [] => []
  | line :: rest =>
      if str_eqb (trim line) [] then blocks_from rest
      else if startsWith line h3_prefix then
        heading_3 (slice_from line 4) :: blocks_from rest
      else if startsWith line h2_prefix then
        heading_2 (slice_from line 3) :: blocks_from rest
      else if startsWith line h1_prefix then
        heading_1 (slice_from line 2) :: blocks_from rest
      else if startsWith line fence then
        collect_code (fence_language line) [] rest
      else if startsWith line dash_prefix || startsWith line star_prefix then
        bulleted_list_item (slice_from line 2) :: blocks_from rest
      else match match_numbered line with
           | Some text => numbered_list_item text :: blocks_from rest
           | None =>
               if startsWith line quote_prefix then
                 quote (slice_from line 2) :: blocks_from rest
               else paragraph line :: blocks_from rest
           end
  end
with collect_code (language : list N) (codeLines : list (list N))
                  (lines : list (list N)) : list Block :=
  match lines with
  | [] => [code (join [NEWLINE] codeLines) language]
  | line :: rest =>
      if startsWith line fence
      then code (join [NEWLINE] codeLines) language :: blocks_from rest
      else collect_code language (codeLines ++ [line]) rest
  end.

Definition markdownToNotionBlocks (markdown : list N) : list Block :=
  blocks_from (split markdown NEWLINE).

(** *** The remote service *)

Inductive Method := GET | POST | PATCH.

(** The [properties] object of a page. *)
Record Properties := {
  Name : option Value;              (* title: [{ text: { content: frontmatter.title } }] *)
  Published : list N;               (* date: { start: ... } *)
  Tags : option (list (list N));    (* multi_select, when there are tags *)
  Slug : option Value;              (* rich_text, when there is a slug *)
}.

Inductive Body :=
| CreatePage (data_source_id : list N) (properties : Properties) (children : list Block)
| AppendChildren (children : list Block).

Record Request := {
  endpoint : list N;
  method : Method;
  body : option Body;
}.

(** What [fetch] does with a request: it rejects, or it answers with a
    status that is not ok, or it answers ok with a body whose [id] is
    given ([None] when the body is not JSON, so that [response.json()]
    rejects). *)
Inductive FetchResult :=
| FetchRejected (message : list N)
| HttpNotOk (status : N) (errorText : list N)
| HttpOk (id : option (list N)).

Inductive ConsoleLine :=
| LogScanning
| LogFound (count : nat)
| LogProcessing (relativePath : list N)
| WarnSkipping
| LogCreated (pageId : list N)
| ErrorLine (error : Exn)
| LogCompleted
| LogSuccess (successCount : nat)
| LogErrors (errorCount : nat).

(** The part of the world the push script acts on: the requests sent so
    far, oldest first, the lines printed on the console, and the time
    spent waiting in [setTimeout], in milliseconds. *)
Record World := {
  requests : list Request;
  console : list ConsoleLine;
  waited : nat;
}.

Definition M (A : Type) : Type := Effects.M World A.

Local Open Scope eff_scope.

Definition console_put (l : ConsoleLine) : M unit :=
  fun w => Done tt {| requests := requests w;
                      console := console w ++ [l];
                      waited := waited w |}.

(** [await new Promise((resolve) => setTimeout(resolve, ms))] *)
Definition sleep (ms : nat) : M unit :=
  fun w => Done tt {| requests := requests w;
                      console := console w;
                      waited := (waited w + ms)%nat |}.

Definition pages_endpoint : list N := Eval cbv in lit "/pages".
Definition blocks_prefix : list N := Eval cbv in lit "/blocks/".
Definition children_suffix : list N := Eval cbv in lit "/children".
Definition blocks_endpoint (pageId : list N) : list N :=
  blocks_prefix ++ pageId ++ children_suffix.

(** A directory entry: a file with what [readFileSync] gives for it, or
    a directory with its entries in [readdirSync] order. *)
#[warnings="-register-all"]
Inductive Dirent :=
| FileEnt (name : list N) (content : Result (list N))
| DirEnt (name : list N) (entries : list Dirent).

Definition md_suffix : list N := Eval cbv in lit ".md".

(** [path.join(dir, name)] on a directory path and an entry name *)
Definition path_join (dir name : list N) : list N := dir ++ [47] ++ name.

(** What one entry of [dir] adds to [files]. *)
Fixpoint entry_files (dir : list N) (entry : Dirent)
  : list (list N * Result (list N)) :=
  match entry with
  | FileEnt name content =>
      if endsWith name md_suffix then [(path_join dir name, content)] else []
  | DirEnt name sub => flat_map (entry_files (path_join dir name)) sub
  end.

(** The Markdown files under [dir], each with what reading it gives. *)
Definition getAllMarkdownFiles (dir : list N) (entries : list Dirent)
  : list (list N * Result (list N)) :=
  flat_map (entry_files dir) entries.

Section Remote.

(** The data source of the run, and the service: the answer to the
    request sent after [k] earlier ones. *)
Variable NOTION_DATASOURCE_ID : list N.
Variable respond : nat -> Request -> FetchResult.

(** The request is sent; a rejected [fetch], a status that is not ok
    and a body that is not JSON throw.  The headers, the same for every
    request, are left out. *)
Definition notionRequest (endpoint : list N) (method : Method)
           (body : option Body) : M (list N) :=
  fun w =>
    let request := {| endpoint := endpoint; method := method; body := body |} in
    let w' := {| requests := requests w ++ [request];
                 console := console w;
                 waited := waited w |} in
    match respond (length (requests w)) request with
    | FetchRejected message => Threw (HostError message) w'
    | HttpNotOk status errorText => Threw (NotionApiError status errorText) w'
    | HttpOk None => Threw (HostError []) w'
    | HttpOk (Some id) => Done id w'
    end.

(** The code points of a string, as [...string] yields them: a high
    surrogate followed by a low one is one element. *)
Fixpoint code_points (s : list N) : list (list N) :=
  match s with
  | [] => []
  | a :: r =>
      match r with
      | b :: r' =>
          if ((0xD800 <=? a) && (a <=? 0xDBFF) && (0xDC00 <=? b) && (b <=? 0xDFFF))%bool
          then [a; b] :: code_points r'
          else [a] :: code_points r
      | [] => [[a]]
      end
  end.

(** [...(v || [])] *)
Definition spread_or_empty (v : option Value) : Result (list (list N)) :=
  if truthy v then
    match v with
    | Some (VList items) => Ok items
    | Some (VStr s) => Ok (code_points s)
    | _ => Err TypeError
    end
  else Ok [].

(** [frontmatter.date.split(" ")[0].split("T")[0]] *)
Definition date_part (v : option Value) : Result (list N) :=
  match v with
  | Some (VStr d) =>
      Ok (default [] (head (split (default [] (head (split d SPACE))) 84)))
  | _ => Err TypeError
  end.

(** [for (let i = 0; i < remainingBlocks.length; i += chunkSize)]; the
    loop runs at most [remainingBlocks.length] times, which is the fuel
    it is started with. *)
Fixpoint append_chunks (fuel : nat) (pageId : list N)
         (remainingBlocks : list Block) (i : nat) : M unit :=
  match fuel with
  | O => ret tt
  | S fuel' =>
      if (i <? length remainingBlocks)%nat then
        let chunk := take 100 (drop i remainingBlocks) in
        notionRequest (blocks_endpoint pageId) PATCH
                      (Some (AppendChildren chunk)) ;;
        append_chunks fuel' pageId remainingBlocks (i + 100)
      else ret tt
  end.

Definition createNotionPage (frontmatter : gmap (list N) Value)
           (content : list N) : M (list N) :=
  tags <- lift (spread_or_empty (frontmatter !! key_tags)) ;;
  categories <- lift (spread_or_empty (frontmatter !! key_categories)) ;;
  let allTags := tags ++ categories in
  published <- lift (date_part (frontmatter !! key_date)) ;;
  let properties :=
    {| Name := frontmatter !! key_title;
       Published := published;
       Tags := if (0 <? length allTags)%nat then Some allTags else None;
       Slug := if truthy (frontmatter !! key_slug)
               then frontmatter !! key_slug else None |} in
  let blocks := markdownToNotionBlocks content in
  let firstChunk := take 100 blocks in
  let remainingBlocks := drop 100 blocks in
  pageId <- notionRequest pages_endpoint POST
              (Some (CreatePage NOTION_DATASOURCE_ID properties firstChunk)) ;;
  append_chunks (length remainingBlocks) pageId remainingBlocks 0 ;;
  ret pageId.

(** *** The walk over the content directory and the main loop *)

Inductive Processed := Created | Skipped.

(** The body of [try] for one file. *)
Definition process_file (read : Result (list N)) : M Processed :=
  fileContent <- lift read ;;
  parsed <- lift (parseFrontmatter fileContent) ;;
  let '(frontmatter, content) := parsed in
  if negb (truthy (frontmatter !! key_title)) ||
     negb (truthy (frontmatter !! key_date))
  then console_put WarnSkipping ;; ret Skipped
  else
    pageId <- createNotionPage frontmatter content ;;
    console_put (LogCreated pageId) ;;
    sleep 500 ;;
    ret Created.

(** [for (const filePath of markdownFiles)], with the two counters. *)
Fixpoint migrate_files (contentDir : list N)
         (files : list (list N * Result (list N)))
         (successCount errorCount : nat) : M (nat * nat) :=
  match files with
  | [] => ret (successCount, errorCount)
  | (filePath, read) :: more =>
      console_put (LogProcessing (drop (S (length contentDir)) filePath)) ;;
      r <- try_catch (p <- process_file read ;; ret (Some p))
                     (fun error => console_put (ErrorLine error) ;; ret None) ;;
      match r with
      | Some Created => migrate_files contentDir more (S successCount) errorCount
      | Some Skipped => migrate_files contentDir more successCount (S errorCount)
      | None => migrate_files contentDir more successCount (S errorCount)
      end
  end.

Definition migrateToNotion (contentDir : list N) (root : list Dirent)
  : M (nat * nat) :=
  console_put LogScanning ;;
  let markdownFiles := getAllMarkdownFiles contentDir root in
  console_put (LogFound (length markdownFiles)) ;;
  counts <- migrate_files contentDir markdownFiles 0 0 ;;
  console_put LogCompleted ;;
  console_put (LogSuccess (fst counts)) ;;
  console_put (LogErrors (snd counts)) ;;
  ret counts.

End Remote.

Definition initial_world : World :=
  {| requests := []; console := []; waited := 0 |}.

(** The blocks a request carries. *)
Definition children_of (r : Request) : list Block :=
  match body r with
  | Some (CreatePage _ _ children) => children
  | Some (AppendChildren children) => children
  | None => []
  end.

End Push.

(** ** The pull script: Notion pages to Markdown files *)

Module Pull.
Import JS Effects.

(** *** Slugs *)

(** The class [[a-z0-9一-龥]]. *)
Definition kept (c : N) : bool :=
  ((97 <=? c) && (c <=? 122)) || ((48 <=? c) && (c <=? 57)) ||
  ((0x4e00 <=? c) && (c <=? 0x9fa5)).

(** [s.replace(/[^a-z0-9一-龥]+/g, "-")]: every maximal run of
    units outside the class becomes one hyphen.  [in_run] tells that the
    previous unit was already part of the run being replaced. *)
Fixpoint replace_runs (in_run : bool) (s : list N) : list N :=
  match s with
  | [] => []
  | c :: r =>
      if kept c then c :: replace_runs false r
      else if in_run then replace_runs true r
      else HYPHEN :: replace_runs true r
  end.

(** [s.replace(/^-+|-+$/g, "")]: the leading and the trailing run of
    hyphens are removed. *)
Definition strip_hyphens (s : list N) : list N :=
  reverse (skip_while (N.eqb HYPHEN) (reverse (skip_while (N.eqb HYPHEN) s))).

Definition generateSlug (title : list N) : list N :=
  strip_hyphens (replace_runs false (toLowerCase title)).

(** The shape of a slug: units of the class or hyphens, no two hyphens in
    a row, no hyphen at either end. *)
Definition slug_unit (c : N) : bool := kept c || (c =? HYPHEN).

Fixpoint no_double_hyphen (s : list N) : bool :=
  match s with
  | a :: ((b :: _) as r) =>
      negb ((a =? HYPHEN) && (b =? HYPHEN)) && no_double_hyphen r
  | _ => true
  end.

Definition no_edge_hyphen (s : list N) : bool :=
  negb (startsWith s [HYPHEN]) && negb (endsWith s [HYPHEN]).

(** "你好, World!" and "你好-world" as code units. *)
Definition title_nihao_world : list N :=
  Eval cbv in [0x4f60; 0x597d] ++ lit ", World!".
Definition slug_nihao_world : list N :=
  Eval cbv in [0x4f60; 0x597d] ++ lit "-world".

(** *** Posts and their frontmatter *)

Record SyncState := { lastSyncTime : list N }.

Record BlogPost := {
  id : list N;
  title : list N;
  slug : list N;
  date : list N;
  tags : list (list N);
  content : list N;
}.

Definition fm_rule : list N := Eval cbv in lit "---".
Definition fm_title : list N := Eval cbv in lit "title: " ++ [DQUOTE].
Definition fm_date : list N := Eval cbv in lit "date: ".
Definition fm_slug : list N := Eval cbv in lit "slug: ".
Definition fm_tags : list N := Eval cbv in lit "tags: [".
Definition fm_draft : list N := Eval cbv in lit "draft: false".
Definition comma_space : list N := Eval cbv in lit ", ".

Definition generateFrontmatter (post : BlogPost) : list N :=
  let lines := [fm_rule] in
  let lines := lines ++ [fm_title ++ escape_dquote (title post) ++ [DQUOTE]] in
  let lines := lines ++ [fm_date ++ date post] in
  let lines := lines ++ [fm_slug ++ slug post] in
  let lines :=
    if (0 <? length (tags post))%nat
    then lines ++ [fm_tags ++
                   join comma_space
                     (map (fun t => [SQUOTE] ++ t ++ [SQUOTE]) (tags post)) ++
                   [RBRACKET]]
    else lines in
  let lines := lines ++ [fm_draft] in
  let lines := lines ++ [fm_rule] in
  join [NEWLINE] lines.

(** *** Pages of the data source *)

(** A page property, by its [type]. *)
Inductive Property :=
| P_title (plain_texts : list (list N))
| P_rich_text (plain_texts : list (list N))
| P_date (start : option (list N))           (* [property.date?.start] *)
| P_multi_select (names : list (list N))
| P_select (name : option (list N))          (* [property.select?.name] *)
| P_checkbox (checked : bool)
| P_created_time (time : list N)
| P_other.

(** What [getPropertyValue] returns. *)
Inductive JSValue :=
| JNull
| JStr (s : list N)
| JArr (items : list (list N))
| JBool (b : bool).

(** [properties] is [None] for a partial page object, which has no
    ["properties"] member. *)
Record Page := {
  page_id : list N;
  properties : option (gmap (list N) Property);
}.

Definition getRichTextContent (richText : list (list N)) : list N :=
  join [] richText.

(** [x || null] on an optional string *)
Definition or_null (x : option (list N)) : JSValue :=
  match x with
  | Some s => if truthy_str s then JStr s else JNull
  | None => JNull
  end.

Definition getPropertyValue (props : gmap (list N) Property)
           (propertyName : list N) : JSValue :=
  match props !! propertyName with
  | None => JNull
  | Some property =>
      match property with
      | P_title t => JStr (getRichTextContent t)
      | P_rich_text t => JStr (getRichTextContent t)
      | P_date start => or_null start
      | P_multi_select names => JArr names
      | P_select name => or_null name
      | P_checkbox b => JBool b
      | P_created_time t => JStr t
      | P_other => JNull
      end
  end.

(** The casts [as string] and [as string[]].  They are right on a data
    source with the schema of the blog (Name: title, Slug: rich text,
    Published: date, Created time: created time, Tags: multi-select); a
    value of another type is outside the model and is read as [null],
    which a string variable shows as the empty string: every use of the
    value starts with a truthiness test, which both fail. *)
Definition as_string (v : JSValue) : list N :=
  match v with JStr s => s | _ => [] end.

Definition as_strings (v : JSValue) : list (list N) :=
  match v with JArr l => l | _ => [] end.

Definition prop_Name : list N := Eval cbv in lit "Name".
Definition prop_Slug : list N := Eval cbv in lit "Slug".
Definition prop_Published : list N := Eval cbv in lit "Published".
Definition prop_Created_time : list N := Eval cbv in lit "Created time".
Definition prop_Tags : list N := Eval cbv in lit "Tags".

Inductive Direction := ascending | descending.

Record QueryRequest := {
  data_source_id : list N;
  start_cursor : option (list N);
  filter_last_edited_after : option (list N); (* the [filter], when there is one *)
  sorts : list (list N * Direction);
}.

Record QueryResponse := {
  results : list Page;
  has_more : bool;
  next_cursor : option (list N);
}.

(** *** The world of the pull script *)

Inductive ConsoleLine :=
| WarnLoadFailed (error : Exn)
| LogIncremental (lastSyncTime : list N)
| LogFullSync
| WarnSkippingPage (pageId : list N)
| LogFetching
| LogNoNewPosts
| LogFound (count : nat)
| LogUpdating (existingSlugFile : list N)
| LogWritten (filePath : list N)
| LogCompleted (currentSyncTime : list N)
| ErrorSyncFailed (error : Exn).

(** Ghost trace of the operations performed. *)
Inductive Event :=
| EvRead (path : list N)
| EvWrite (path : list N) (data : list N)
| EvMkdir (path : list N)
| EvReaddir (path : list N)
| EvNow (time : list N)
| EvQuery (request : QueryRequest)
| EvPageToMarkdown (pageId : list N)
| EvConsole (line : ConsoleLine).

(** The regular [files], path and contents, in the order [readdirSync]
    lists them; the directories; the number of operations on the outside
    (file system, clock, network) performed so far; the trace, oldest
    event first. *)
Record World := {
  files : list (list N * list N);
  dirs : list (list N);
  steps : nat;
  trace : list Event;
}.

(** What the run does not decide: the working directory and the data
    source, the clock, the answers of the service to the successive
    queries (a query beyond the last answer fails), the Markdown of a
    page, the failures of the file system, and the built-ins [JSON] and
    [Date].  [fs_written] tells how far a write that fails has come:
    [None] when the file could not be opened, [Some n] when it was opened,
    which creates or empties it, and the failure came after [n] units had
    been written.  [Date_getTime] is total: dates that do not parse, whose
    time is [NaN], are outside the model. *)
Record Host := {
  cwd : list N;
  NOTION_DATASOURCE_ID : list N;
  clock : nat -> list N;
  remote : list (QueryRequest -> Result QueryResponse);
  page_markdown : nat -> list N -> Result (list N);
  fs_fault : nat -> option Exn;
  fs_written : nat -> option nat;
  JSON_parse : list N -> Result (option SyncState);
  JSON_stringify : SyncState -> list N;
  Date_getTime : list N -> Z;
  Date_getFullYear : list N -> list N;
}.

Definition M (A : Type) : Type := Effects.M World A.

Local Open Scope eff_scope.

Definition SLASH : N := 47.

(** [path.join(dir, name)] for a directory path in normal form and a name
    whose segments are neither empty nor "." nor "..": there [path.join]
    only puts the separator between the two.  It rewrites other paths,
    which are outside the model. *)
Definition path_join (dir name : list N) : list N := dir ++ [SLASH] ++ name.

Definition state_file_name : list N := Eval cbv in lit ".notion-sync-state.json".
Definition content_path : list N := Eval cbv in lit "src/content/blog".
Definition md_suffix : list N := Eval cbv in lit ".md".

Definition emit (e : Event) : M unit :=
  fun w => Done tt {| files := files w; dirs := dirs w;
                      steps := steps w; trace := trace w ++ [e] |}.

Definition console_put (l : ConsoleLine) : M unit := emit (EvConsole l).

(** One more operation on the outside has been performed. *)
Definition tick : M nat :=
  fun w => Done (steps w) {| files := files w; dirs := dirs w;
                             steps := S (steps w); trace := trace w |}.

Definition lookup_file (path : list N) (fs : list (list N * list N))
  : option (list N) :=
  snd <$> List.find (fun entry => str_eqb (fst entry) path) fs.

(** The contents of [path] become [data]; a new file is listed last. *)
Fixpoint store_file (path data : list N) (fs : list (list N * list N))
  : list (list N * list N) :=
  match fs with
  | [] => [(path, data)]
  | (p, d) :: more =>
      if str_eqb p path then (p, data) :: more
      else (p, d) :: store_file path data more
  end.

(** The name of [path] as an entry of [dir], if it is one. *)
Definition entry_name (dir path : list N) : option (list N) :=
  if startsWith path (dir ++ [SLASH]) then
    let name := drop (length (dir ++ [SLASH])) path in
    match name with
    | [] => None
    | _ :: _ => if includes name [SLASH] then None else Some name
    end
  else None.

(** The names of the entries of [dir]: files, then directories. *)
Definition dir_entries (dir : list N) (w : World) : list (list N) :=
  omap (entry_name dir) (fst <$> files w) ++ omap (entry_name dir) (dirs w).

Section Run.

Variable host : Host.

Definition SYNC_STATE_FILE : list N := path_join (cwd host) state_file_name.

(** [fs.existsSync(path)] *)
Definition existsSync (path : list N) : M bool :=
  fun w => Done (bool_decide (path ∈ dirs w) ||
                 bool_decide (path ∈ (fst <$> files w))) w.

(** An operation of the file system fails when the host says so. *)
Definition fs_step : M unit :=
  k <- tick ;;
  match fs_fault host k with
  | Some e => throw e
  | None => ret tt
  end.

(** [fs.readFileSync(path, "utf-8")] *)
Definition readFileSync (path : list N) : M (list N) :=
  fs_step ;;
  fun w => match lookup_file path (files w) with
           | Some data => (emit (EvRead path) ;; ret data) w
           | None => Threw (HostError path) w
           end.

(** The file [path] is given the contents [data]. *)
Definition put_file (path data : list N) : M unit :=
  (fun w => Done tt {| files := store_file path data (files w);
                       dirs := dirs w; steps := steps w;
                       trace := trace w |}) ;;
  emit (EvWrite path data).

(** [fs.writeFileSync(path, data, "utf-8")]: the file is opened with the
    flag "w", which creates or empties it, and then written.  A failure
    before the file is open leaves it as it was; a later failure leaves it
    with what had been written. *)
Definition writeFileSync (path data : list N) : M unit :=
  k <- tick ;;
  match fs_fault host k with
  | None => put_file path data
  | Some e =>
      match fs_written host k with
      | None => throw e
      | Some n => put_file path (take n data) ;; throw e
      end
  end.

(** [fs.mkdirSync(path, { recursive: true })] *)
Definition mkdirSync (path : list N) : M unit :=
  fs_step ;;
  (fun w => Done tt {| files := files w; dirs := dirs w ++ [path];
                       steps := steps w; trace := trace w |}) ;;
  emit (EvMkdir path).

(** [fs.readdirSync(path)]: the names of the entries of a directory. *)
Definition readdirSync (path : list N) : M (list (list N)) :=
  fs_step ;;
  fun w =>
    if bool_decide (path ∈ dirs w) then
      (emit (EvReaddir path) ;; ret (dir_entries path w)) w
    else Threw (HostError path) w.

(** [new Date().toISOString()] *)
Definition now : M (list N) :=
  k <- tick ;;
  let t := clock host k in
  emit (EvNow t) ;; ret t.

(** [n2m.pageToMarkdown(id)] followed by [n2m.toMarkdownString] *)
Definition pageToMarkdown (pageId : list N) : M (list N) :=
  k <- tick ;;
  emit (EvPageToMarkdown pageId) ;;
  lift (page_markdown host k pageId).

(** [notion.dataSources.query(request)], answered by [answer]. *)
Definition query (answer : QueryRequest -> Result QueryResponse)
           (request : QueryRequest) : M QueryResponse :=
  tick ;;
  emit (EvQuery request) ;;
  lift (answer request).

Definition loadSyncState : M (option SyncState) :=
  try_catch
    (present <- existsSync SYNC_STATE_FILE ;;
     if present : bool then
       content <- readFileSync SYNC_STATE_FILE ;;
       lift (JSON_parse host content)
     else ret None)
    (fun error => console_put (WarnLoadFailed error) ;; ret None).

Definition saveSyncState (state : SyncState) : M unit :=
  writeFileSync SYNC_STATE_FILE (JSON_stringify host state).

(** [for (const page of response.results)] *)
Fixpoint read_pages (pages : list Page) (posts : list BlogPost)
  : M (list BlogPost) :=
  match pages with
  | [] => ret posts
  | page :: more =>
      match properties page with
      | None => read_pages more posts
      | Some props =>
          let title := as_string (getPropertyValue props prop_Name) in
          let slug := as_string (getPropertyValue props prop_Slug) in
          let publishedDate := as_string (getPropertyValue props prop_Published) in
          let createdTime := as_string (getPropertyValue props prop_Created_time) in
          let tags := as_strings (getPropertyValue props prop_Tags) in
          let date := if truthy_str publishedDate then publishedDate else createdTime in
          if negb (truthy_str title) || negb (truthy_str date) then
            console_put (WarnSkippingPage (page_id page)) ;;
            read_pages more posts
          else
            content <- pageToMarkdown (page_id page) ;;
            read_pages more
              (posts ++ [{| id := page_id page;
                            title := title;
                            slug := if truthy_str slug then slug
                                    else generateSlug title;
                            date := date;
                            tags := tags;
                            content := content |}])
      end
  end.

(** [while (hasMore)], one answer of the service per iteration. *)
Fixpoint fetch_pages (answers : list (QueryRequest -> Result QueryResponse))
         (filter : option (list N)) (startCursor : option (list N))
         (posts : list BlogPost) : M (list BlogPost) :=
  match answers with
  | [] => throw (HostError [])
  | answer :: later =>
      response <- query answer
                    {| data_source_id := NOTION_DATASOURCE_ID host;
                       start_cursor := startCursor;
                       filter_last_edited_after := filter;
                       sorts := [(prop_Published, descending)] |} ;;
      posts <- read_pages (results response) posts ;;
      if has_more response then
        fetch_pages later filter
                    (match next_cursor response with
                     | Some c => if truthy_str c then Some c else None
                     | None => None
                     end)
                    posts
      else ret posts
  end.

Definition fetchBlogPosts (lastSyncTime : option (list N))
  : M (list BlogPost) :=
  let filter :=
    match lastSyncTime with
    | Some t => if truthy_str t then Some t else None
    | None => None
    end in
  console_put (match filter with
               | Some t => LogIncremental t
               | None => LogFullSync
               end) ;;
  fetch_pages (remote host) filter None [].

Definition getYearFromDate (dateStr : list N) : list N :=
  Date_getFullYear host dateStr.

(** [postsByYear]: a [Map], iterated in the order of insertion. *)
Fixpoint group_push (year : list N) (post : BlogPost)
         (postsByYear : list (list N * list BlogPost))
  : list (list N * list BlogPost) :=
  match postsByYear with
  | [] => [(year, [post])]
  | (y, ps) :: more =>
      if str_eqb y year then (y, ps ++ [post]) :: more
      else (y, ps) :: group_push year post more
  end.

Definition group_by_year (posts : list BlogPost)
  : list (list N * list BlogPost) :=
  fold_left (fun m post => group_push (getYearFromDate (date post)) post m)
            posts [].

(** [yearPosts.sort((a, b) => time(a) - time(b))]: the sort is stable. *)
Fixpoint insert_by_date (p : BlogPost) (sorted : list BlogPost)
  : list BlogPost :=
  match sorted with
  | [] => [p]
  | q :: more =>
      if (Date_getTime host (date p) <=? Date_getTime host (date q))%Z
      then p :: sorted
      else q :: insert_by_date p more
  end.

Definition sort_by_date (posts : list BlogPost) : list BlogPost :=
  foldr insert_by_date [] posts.

(** [file.match(/^(\d+)-/)] and [parseInt(match[1], 10)].  The index is
    exact, as in JavaScript up to 2^53 - 1; beyond, JavaScript rounds. *)
Definition numeric_prefix (file : list N) : option N :=
  match span_while is_digit file, skip_while is_digit file with
  | (_ :: _) as digits, c :: _ =>
      if c =? HYPHEN then Some (parseInt_digits digits) else None
  | _, _ => None
  end.

(** "Find the highest existing index" *)
Definition highest_index (existingFiles : list (list N)) : N :=
  fold_left (fun maxIndex file =>
               match numeric_prefix file with
               | Some index => if maxIndex <? index then index else maxIndex
               | None => maxIndex
               end)
            existingFiles 0.

(** [existingFiles.find(f => f.includes(post.slug))], kept when truthy *)
Definition existing_slug_file (existingFiles : list (list N))
           (post : BlogPost) : option (list N) :=
  match List.find (fun f => includes f (slug post)) existingFiles with
  | Some f => if truthy_str f then Some f else None
  | None => None
  end.

(** [String(index).padStart(2, "0")], a hyphen, the slug and ".md", for an
    index up to 2^53 - 1, which [String] prints in decimal digits. *)
Definition new_filename (index : N) (post : BlogPost) : list N :=
  padStart0 2 (String_of_N index) ++ [HYPHEN] ++ slug post ++ md_suffix.

Definition file_content (post : BlogPost) : list N :=
  generateFrontmatter post ++ [NEWLINE; NEWLINE] ++ content post.

(** [for (let i = 0; i < yearPosts.length; i++)] *)
Fixpoint write_posts (yearDir : list N) (existingFiles : list (list N))
         (maxIndex : N) (yearPosts : list BlogPost) (newPostIndex : N)
  : M unit :=
  match yearPosts with
  | [] => ret tt
  | post :: more =>
      match existing_slug_file existingFiles post with
      | Some existingSlugFile =>
          console_put (LogUpdating existingSlugFile) ;;
          let filePath := path_join yearDir existingSlugFile in
          writeFileSync filePath (file_content post) ;;
          console_put (LogWritten filePath) ;;
          write_posts yearDir existingFiles maxIndex more newPostIndex
      | None =>
          let filename := new_filename (maxIndex + newPostIndex + 1) post in
          let filePath := path_join yearDir filename in
          writeFileSync filePath (file_content post) ;;
          console_put (LogWritten filePath) ;;
          write_posts yearDir existingFiles maxIndex more (newPostIndex + 1)
      end
  end.

(** The body of [for (const [year, yearPosts] of postsByYear)]. *)
Definition sync_year (contentDir year : list N) (yearPosts : list BlogPost)
  : M unit :=
  let yearDir := path_join contentDir year in
  present <- existsSync yearDir ;;
  (if present : bool then ret tt else mkdirSync yearDir) ;;
  present <- existsSync yearDir ;;
  existingFiles <-
    (if present : bool then
       names <- readdirSync yearDir ;;
       ret (List.filter (fun f => endsWith f md_suffix) names)
     else ret []) ;;
  let maxIndex := highest_index existingFiles in
  write_posts yearDir existingFiles maxIndex (sort_by_date yearPosts) 0.

Fixpoint sync_years (contentDir : list N)
         (postsByYear : list (list N * list BlogPost)) : M unit :=
  match postsByYear with
  | [] => ret tt
  | (year, yearPosts) :: more =>
      sync_year contentDir year yearPosts ;;
      sync_years contentDir more
  end.

Definition syncPosts : M unit :=
  syncState <- loadSyncState ;;
  let lastSyncTime := lastSyncTime <$> syncState in
  currentSyncTime <- now ;;
  console_put LogFetching ;;
  posts <- fetchBlogPosts lastSyncTime ;;
  if (length posts =? 0)%nat then
    console_put LogNoNewPosts ;;
    saveSyncState {| lastSyncTime := currentSyncTime |}
  else
    console_put (LogFound (length posts)) ;;
    let contentDir := path_join (cwd host) content_path in
    sync_years contentDir (group_by_year posts) ;;
    saveSyncState {| lastSyncTime := currentSyncTime |} ;;
    console_put (LogCompleted currentSyncTime).

(** [syncPosts().catch(...)]: the process exits with status 1 when the
    run threw. *)
Definition main : M N :=
  try_catch (syncPosts ;; ret 0)
            (fun error => console_put (ErrorSyncFailed error) ;; ret 1).

End Run.

End Pull.

(** ** Concrete inputs used in the examples *)

Module Scenarios.
Import JS Effects.

Definition str_code : list N := Eval cbv in lit "code".
Definition str_js : list N := Eval cbv in lit "js".

(** A fence tagged js around the line "code". *)
Definition code_js_example : list N :=
  Eval cbv in Push.fence ++ str_js ++ [NEWLINE] ++ str_code ++ [NEWLINE] ++ Push.fence.

(** A post of 250 one-line paragraphs, with the least frontmatter. *)
Definition content_250 : list N :=
  Eval vm_compute in join [NEWLINE] (replicate 250 (lit "x")).

Definition str_t : list N := Eval cbv in lit "t".
Definition str_page : list N := Eval cbv in lit "page".
Definition str_ds : list N := Eval cbv in lit "ds".
Definition date_2024_05_06 : list N := Eval cbv in lit "2024-05-06".
Definition date_2024_05_06_time : list N := Eval cbv in lit "2024-05-06T07:08".

Definition minimal_frontmatter : gmap (list N) Push.Value :=
  <[Push.key_date := Push.VStr date_2024_05_06_time]>
    (<[Push.key_title := Push.VStr str_t]> ∅).

(** A service that accepts every request and names every page "page". *)
Definition accept_all (k : nat) (r : Push.Request) : Push.FetchResult :=
  Push.HttpOk (Some str_page).

(** A post file whose title is quoted and holds a comma. *)
Definition hello_world_title : list N := Eval cbv in lit "Hello, World".
Definition hello_world_slug : list N := Eval cbv in lit "hello-world".
Definition hello_world_title_line : list N :=
  Eval cbv in lit "title: " ++ [DQUOTE] ++ lit "Hello, World" ++ [DQUOTE].
Definition tag_blog : list N := Eval cbv in lit "blog".
Definition tag_notes : list N := Eval cbv in lit "notes".
Definition str_body : list N := Eval cbv in lit "body".

Definition hello_world_file : list N :=
  Eval cbv in
    lit "---" ++ [NEWLINE] ++
    hello_world_title_line ++ [NEWLINE] ++
    lit "date: 2024-05-06" ++ [NEWLINE] ++
    lit "slug: hello-world" ++ [NEWLINE] ++
    lit "tags: [blog, notes]" ++ [NEWLINE] ++
    lit "---" ++ [NEWLINE] ++
    lit "body".

Definition hello_world_post : Pull.BlogPost :=
  {| Pull.id := []; Pull.title := hello_world_title;
     Pull.slug := hello_world_slug; Pull.date := date_2024_05_06;
     Pull.tags := [tag_blog; tag_notes]; Pull.content := str_body |}.




(** *** A host for the pull script *)

(** The state file as this host writes and reads it: the time between a
    fixed opening and a fixed closing. *)
Definition json_open : list N :=
  Eval cbv in lit "{" ++ [DQUOTE] ++ lit "lastSyncTime" ++ [DQUOTE] ++
              lit ": " ++ [DQUOTE].
Definition json_close : list N := Eval cbv in [DQUOTE] ++ lit "}".

Definition demo_stringify (state : Pull.SyncState) : list N :=
  json_open ++ Pull.lastSyncTime state ++ json_close.

Definition demo_parse (s : list N) : Result (option Pull.SyncState) :=
  if startsWith s json_open && endsWith s json_close then
    Ok (Some {| Pull.lastSyncTime :=
                  take (length s - length json_open - length json_close)
                       (drop (length json_open) s) |})
  else Err (HostError s).

(** Dates of the form YYYY-MM-DD: the digits, read as one number, order
    them; the year is the first four units. *)
Definition demo_time (d : list N) : Z :=
  Z.of_N (parseInt_digits (List.filter is_digit d)).
Definition demo_year (d : list N) : list N := take 4 d.

Definition str_blog_dir : list N := Eval cbv in lit "/blog".
Definition str_T : list N := Eval cbv in lit "T".

Definition demo_host (answers : list (Pull.QueryRequest -> Result Pull.QueryResponse))
  : Pull.Host :=
  {| Pull.cwd := str_blog_dir;
     Pull.NOTION_DATASOURCE_ID := str_ds;
     Pull.clock := fun k => str_T ++ String_of_N (N.of_nat k);
     Pull.remote := answers;
     Pull.page_markdown := fun _ pageId => Ok pageId;
     Pull.fs_fault := fun _ => None;
     Pull.fs_written := fun _ => None;
     Pull.JSON_parse := demo_parse;
     Pull.JSON_stringify := demo_stringify;
     Pull.Date_getTime := demo_time;
     Pull.Date_getFullYear := demo_year |}.

Definition make_page (pageId title slug published : list N) : Pull.Page :=
  {| Pull.page_id := pageId;
     Pull.properties :=
       Some (<[Pull.prop_Name := Pull.P_title [title]]>
               (<[Pull.prop_Slug := Pull.P_rich_text [slug]]>
                  (<[Pull.prop_Published := Pull.P_date (Some published)]> ∅))) |}.

(** One answer that holds [pages] and is the last. *)
Definition answer_with (pages : list Pull.Page)
  : Pull.QueryRequest -> Result Pull.QueryResponse :=
  fun _ => Ok {| Pull.results := pages; Pull.has_more := false;
                 Pull.next_cursor := None |}.

Definition state_path : list N := Eval cbv in lit "/blog/.notion-sync-state.json".

(** A world whose state file holds the time [t]. *)
Definition world_with_state (t : list N) : Pull.World :=
  {| Pull.files := [(state_path, demo_stringify {| Pull.lastSyncTime := t |})];
     Pull.dirs := []; Pull.steps := 0; Pull.trace := [] |}.

Definition empty_world : Pull.World :=
  {| Pull.files := []; Pull.dirs := []; Pull.steps := 0; Pull.trace := [] |}.

Definition time_2024 : list N := Eval cbv in lit "2024-01-01T00:00:00.000Z".

(** Three posts of 2024. *)
Definition str_pa : list N := Eval cbv in lit "pa".
Definition str_pb : list N := Eval cbv in lit "pb".
Definition str_pc : list N := Eval cbv in lit "pc".
Definition str_A : list N := Eval cbv in lit "A".
Definition str_B : list N := Eval cbv in lit "B".
Definition str_C : list N := Eval cbv in lit "C".
Definition slug_alpha : list N := Eval cbv in lit "alpha".
Definition slug_beta : list N := Eval cbv in lit "beta".
Definition slug_gamma : list N := Eval cbv in lit "gamma".
Definition date_jan : list N := Eval cbv in lit "2024-01-05".
Definition date_feb : list N := Eval cbv in lit "2024-02-05".
Definition date_mar : list N := Eval cbv in lit "2024-03-05".
Definition str_first : list N := Eval cbv in lit "first".
Definition str_second : list N := Eval cbv in lit "second".
Definition str_third : list N := Eval cbv in lit "third".

Definition post_a : Pull.BlogPost :=
  {| Pull.id := str_pa; Pull.title := str_A; Pull.slug := slug_alpha;
     Pull.date := date_jan; Pull.tags := []; Pull.content := str_first |}.
Definition post_b : Pull.BlogPost :=
  {| Pull.id := str_pb; Pull.title := str_B; Pull.slug := slug_beta;
     Pull.date := date_feb; Pull.tags := []; Pull.content := str_second |}.
Definition post_c : Pull.BlogPost :=
  {| Pull.id := str_pc; Pull.title := str_C; Pull.slug := slug_gamma;
     Pull.date := date_mar; Pull.tags := []; Pull.content := str_third |}.

Definition str_2024 : list N := Eval cbv in lit "2024".
Definition blog_content_dir : list N := Eval cbv in lit "/blog/src/content/blog".
Definition prefix_01 : list N := Eval cbv in lit "01-".
Definition prefix_02 : list N := Eval cbv in lit "02-".
Definition prefix_03 : list N := Eval cbv in lit "03-".

(** A page with a title and a page whose title is empty. *)
Definition page_titled : Pull.Page := make_page str_pa str_A slug_alpha date_jan.
Definition page_untitled : Pull.Page := make_page str_pb [] slug_beta date_feb.

(** The service answers with both pages, or with the titled one alone. *)
Definition host_with_untitled : Pull.Host :=
  demo_host [answer_with [page_untitled; page_titled]].
Definition host_without_untitled : Pull.Host :=
  demo_host [answer_with [page_titled]].

(** A post file without title, and one with title and date. *)
Definition untitled_file : list N :=
  Eval cbv in
    lit "---" ++ [NEWLINE] ++
    lit "date: 2024-05-06" ++ [NEWLINE] ++
    lit "---" ++ [NEWLINE] ++
    lit "body".
Definition titled_file : list N :=
  Eval cbv in
    lit "---" ++ [NEWLINE] ++
    lit "title: T" ++ [NEWLINE] ++
    lit "date: 2024-05-06" ++ [NEWLINE] ++
    lit "---" ++ [NEWLINE] ++
    lit "body".
Definition name_a_md : list N := Eval cbv in lit "a.md".
Definition name_b_md : list N := Eval cbv in lit "b.md".
Definition str_content : list N := Eval cbv in lit "content".

(** The service answers once, with no page. *)
Definition quiet_host : Pull.Host := demo_host [answer_with []].

(** The first query of a run of [quiet_host], given its filter. *)
Definition first_request (filter : option (list N)) : Pull.QueryRequest :=
  {| Pull.data_source_id := str_ds; Pull.start_cursor := None;
     Pull.filter_last_edited_after := filter;
     Pull.sorts := [(Pull.prop_Published, Pull.descending)] |}.

End Scenarios.

(* ================================================================== *)
(** * Properties *)

(** ** Facts about the string built-ins *)

Module JSFacts.
Import JS.

Lemma span_skip_while f s : span_while f s ++ skip_while f s = s.
Proof. induction s as [|c r IH]; simpl; [done|]. destruct (f c); simpl; [by rewrite IH|done]. Qed.

Lemma span_while_Forall f s : Forall (fun c => f c = true) (span_while f s).
Proof.
  induction s as [|c r IH]; simpl; [constructor|].
  destruct (f c) eqn:E; constructor; done.
Qed.

Lemma skip_while_head f s c : head (skip_while f s) = Some c -> f c = false.
Proof.
  induction s as [|x r IH]; simpl; [done|].
  destruct (f x) eqn:E; [done|]. simpl. by intros [= <-].
Qed.

Lemma skip_while_id f s :
  (forall c, head s = Some c -> f c = false) -> skip_while f s = s.
Proof. destruct s as [|x r]; simpl; [done|]. intros H. by rewrite (H x eq_refl). Qed.

(** Removing the run at the end: [reverse (skip_while f (reverse s))]. *)
Definition strip_end (f : N -> bool) (s : list N) : list N :=
  reverse (skip_while f (reverse s)).

Lemma strip_end_app f s :
  strip_end f s ++ reverse (span_while f (reverse s)) = s.
Proof.
  unfold strip_end. rewrite <- reverse_app, span_skip_while.
  apply reverse_involutive.
Qed.

Lemma strip_end_last f s c : last (strip_end f s) = Some c -> f c = false.
Proof. unfold strip_end. rewrite last_reverse. apply skip_while_head. Qed.

Lemma strip_end_id f s :
  (forall c, last s = Some c -> f c = false) -> strip_end f s = s.
Proof.
  intros H. unfold strip_end. rewrite skip_while_id.
  - apply reverse_involutive.
  - intros c. rewrite head_reverse. apply H.
Qed.

Lemma strip_end_head f s c :
  head (strip_end f s) = Some c -> head s = Some c.
Proof.
  intros H. rewrite <- (strip_end_app f s).
  destruct (strip_end f s); simpl in *; done.
Qed.


(** *** [trim] *)

Lemma trim_strip s : trim s = strip_end is_space (skip_while is_space s).
Proof. done. Qed.


(** A string that neither starts nor ends with white space is its own
    trim. *)
Lemma trim_id s :
  (forall c, head s = Some c -> is_space c = false) ->
  (forall c, last s = Some c -> is_space c = false) ->
  trim s = s.
Proof.
  intros Hh Hl. rewrite trim_strip, skip_while_id by done.
  by apply strip_end_id.
Qed.


Lemma trim_idempotent s : trim (trim s) = trim s.
Proof.
  apply trim_id.
  - intros c Hc. rewrite trim_strip in Hc.
    apply strip_end_head, skip_while_head in Hc. done.
  - intros c Hc. rewrite trim_strip in Hc. by apply strip_end_last in Hc.
Qed.

(** *** [split] and [join] *)

Lemma split_aux_line c cur l :
  c ∉ l -> split_aux c cur l = [reverse cur ++ l].
Proof.
  revert cur. induction l as [|x l IH]; intros cur H; simpl.
  - by rewrite app_nil_r.
  - apply not_elem_of_cons in H as [Hx Hl].
    destruct (N.eqb_spec x c) as [->|_]; [done|].
    rewrite IH by done. by rewrite reverse_cons, <- app_assoc.
Qed.

Lemma split_aux_app c cur l s :
  c ∉ l ->
  split_aux c cur (l ++ c :: s) = (reverse cur ++ l) :: split_aux c [] s.
Proof.
  revert cur. induction l as [|x l IH]; intros cur H; simpl.
  - by rewrite N.eqb_refl, app_nil_r.
  - apply not_elem_of_cons in H as [Hx Hl].
    destruct (N.eqb_spec x c) as [->|_]; [done|].
    rewrite IH by done. by rewrite reverse_cons, <- app_assoc.
Qed.

Lemma join_cons sep x y r : join sep (x :: y :: r) = x ++ sep ++ join sep (y :: r).
Proof. done. Qed.

Lemma split_join c ls :
  ls <> [] -> Forall (fun l => c ∉ l) ls -> split (join [c] ls) c = ls.
Proof.
  unfold split. induction ls as [|x [|y r] IH]; intros Hne H; [done| |].
  - simpl. apply Forall_cons in H as [H _]. by rewrite split_aux_line.
  - rewrite join_cons. apply Forall_cons in H as [Hx H].
    change ([c] ++ ?t) with (c :: t).
    rewrite split_aux_app by done. simpl reverse. simpl app at 1.
    f_equal. by apply IH.
Qed.

Lemma split_nil c : split [] c = [[]].
Proof. done. Qed.

(** *** [startsWith] *)

Lemma startsWith_app s t : startsWith (s ++ t) s = true.
Proof. induction s as [|x s IH]; simpl; [done|]. by rewrite N.eqb_refl, IH. Qed.

Lemma startsWith_prefix s p :
  startsWith s p = true <-> exists t, s = p ++ t.
Proof.
  revert s. induction p as [|a p IH]; intros s; simpl.
  - split; [by exists s | done].
  - destruct s as [|b s]; [split; [done | by intros [? ?]]|].
    rewrite andb_true_iff, N.eqb_eq, IH. split.
    + intros [-> [t ->]]. by exists t.
    + intros [t [= -> ->]]. eauto.
Qed.

Lemma startsWith_head_ne s p a :
  head p = Some a -> head s <> Some a -> startsWith s p = false.
Proof.
  destruct p as [|a' p]; [done|]. intros [= ->] H.
  destruct s as [|b s]; simpl; [done|].
  destruct (N.eqb_spec a b) as [->|]; [by destruct H | done].
Qed.


Lemma endsWith_last s c p :
  last s = Some c -> endsWith s [p] = (p =? c).
Proof.
  intros H. unfold endsWith. rewrite <- head_reverse in H.
  destruct (reverse s) as [|x r]; [done|]. simplify_eq/=.
  by rewrite andb_true_r.
Qed.

(** *** Units that do not occur *)

Lemma skip_while_notin f s c : c ∉ s -> c ∉ skip_while f s.
Proof.
  induction s as [|x s IH]; simpl; [done|]. intros H.
  destruct (f x); [|done]. apply IH. by apply not_elem_of_cons in H as [_ H].
Qed.

Lemma reverse_notin (s : list N) c : c ∉ s -> c ∉ reverse s.
Proof. by rewrite elem_of_reverse. Qed.



Lemma drop_notin (s : list N) n c : c ∉ s -> c ∉ drop n s.
Proof.
  rewrite <- (take_drop n s) at 1. rewrite not_elem_of_app. tauto.
Qed.


Lemma slice_from_notin s a c : c ∉ s -> c ∉ slice_from s a.
Proof. intros H. unfold slice_from. by apply drop_notin. Qed.

(** The pieces of [split] do not hold the separator. *)
Lemma split_aux_notin c cur s :
  c ∉ cur -> Forall (fun l => c ∉ l) (split_aux c cur s).
Proof.
  revert cur. induction s as [|x s IH]; intros cur H; simpl.
  - constructor; [by apply reverse_notin | constructor].
  - destruct (N.eqb_spec x c) as [->|Hx].
    + constructor; [by apply reverse_notin|]. apply IH, not_elem_of_nil.
    + apply IH. by apply not_elem_of_cons.
Qed.

Lemma split_notin s c : Forall (fun l => c ∉ l) (split s c).
Proof. apply split_aux_notin, not_elem_of_nil. Qed.



(** *** [slice(1, -1)] *)


(** *** [indexOf] *)

(** No occurrence of a pattern that starts with [a] begins inside a string
    without [a]. *)
Lemma indexOf_from_skip i l s p a :
  head p = Some a -> a ∉ l ->
  indexOf_from i (l ++ s) p = indexOf_from (i + length l) s p.
Proof.
  intros Hp. revert i. induction l as [|x l IH]; intros i Hl.
  - simpl. by rewrite Nat.add_0_r.
  - apply not_elem_of_cons in Hl as [Hx Hl].
    rewrite <- app_comm_cons. cbn [indexOf_from].
    rewrite (startsWith_head_ne _ p a) by (done || simpl; congruence).
    rewrite IH by done. f_equal. simpl. lia.
Qed.

Lemma indexOf_from_here i s p : startsWith s p = true -> indexOf_from i s p = Some i.
Proof. intros H. destruct s; simpl; by rewrite H. Qed.

Lemma indexOf_from_next i x s p :
  startsWith (x :: s) p = false ->
  indexOf_from i (x :: s) p = indexOf_from (S i) s p.
Proof. intros H. cbn [indexOf_from]. by rewrite H. Qed.

End JSFacts.

(** ** Computations that keep a relation between worlds *)

Module EffectsFacts.
Import Effects.
Local Open Scope eff_scope.

Section Respect.

Context {W : Type} (R : W -> W -> Prop).
Hypothesis R_refl : forall w, R w w.
Hypothesis R_trans : forall w1 w2 w3, R w1 w2 -> R w2 w3 -> R w1 w3.

(** Whatever the outcome, the world [m] leaves is related to the one it
    started in. *)
Definition respects {A} (m : M W A) : Prop := forall w, R w (world_of (m w)).

Lemma respects_ret {A} (a : A) : respects (ret a).
Proof. intros w. apply R_refl. Qed.

Lemma respects_throw {A} e : respects (@throw W A e).
Proof. intros w. apply R_refl. Qed.

Lemma respects_lift {A} (r : Result A) : respects (lift r).
Proof. destruct r; [apply respects_ret | apply respects_throw]. Qed.

Lemma respects_bind {A B} (m : M W A) (k : A -> M W B) :
  respects m -> (forall a, respects (k a)) -> respects (bind m k).
Proof.
  intros Hm Hk w. unfold bind. generalize (Hm w).
  destruct (m w) as [a w'|e w']; simpl; [|done].
  intros H. eapply R_trans; [exact H | apply Hk].
Qed.

Lemma respects_try_catch {A} (m : M W A) (h : Exn -> M W A) :
  respects m -> (forall e, respects (h e)) -> respects (try_catch m h).
Proof.
  intros Hm Hh w. unfold try_catch. generalize (Hm w).
  destruct (m w) as [a w'|e w']; simpl; [done|].
  intros H. eapply R_trans; [exact H | apply Hh].
Qed.

Lemma respects_if {A} (b : bool) (m1 m2 : M W A) :
  respects m1 -> respects m2 -> respects (if b then m1 else m2).
Proof. by destruct b. Qed.

End Respect.

Lemma respects_weaken {W A} (R R' : W -> W -> Prop) (m : M W A) :
  (forall w w', R w w' -> R' w w') -> respects R m -> respects R' m.
Proof. intros H Hm w. apply H, Hm. Qed.

(** Reading an outcome of [bind] backwards. *)
Lemma bind_done {W A B} (m : M W A) (k : A -> M W B) w b w'' :
  bind m k w = Done b w'' ->
  exists a w', m w = Done a w' /\ k a w' = Done b w''.
Proof. unfold bind. destruct (m w) as [a w'|e w']; [eauto | done]. Qed.

Lemma bind_threw {W A B} (m : M W A) (k : A -> M W B) w e w'' :
  bind m k w = Threw e w'' ->
  m w = Threw e w'' \/ exists a w', m w = Done a w' /\ k a w' = Threw e w''.
Proof.
  unfold bind. destruct (m w) as [a w'|e' w']; intros H; [right; eauto|].
  injection H as -> ->. by left.
Qed.

End EffectsFacts.

(** ** Markdown to blocks *)

Module BlocksFacts.
Import JS Effects Push JSFacts Scenarios.

Definition opens_fence (line : list N) : Prop := startsWith line fence = true.




Lemma collect_code_cons language codeLines line rest :
  collect_code language codeLines (line :: rest) =
  if startsWith line fence
  then code (join [NEWLINE] codeLines) language :: blocks_from rest
  else collect_code language (codeLines ++ [line]) rest.
Proof. done. Qed.

Lemma blocks_from_cons line rest :
  blocks_from (line :: rest) =
  if str_eqb (trim line) [] then blocks_from rest
  else if startsWith line h3_prefix then
    heading_3 (slice_from line 4) :: blocks_from rest
  else if startsWith line h2_prefix then
    heading_2 (slice_from line 3) :: blocks_from rest
  else if startsWith line h1_prefix then
    heading_1 (slice_from line 2) :: blocks_from rest
  else if startsWith line fence then
    collect_code (fence_language line) [] rest
  else if startsWith line dash_prefix || startsWith line star_prefix then
    bulleted_list_item (slice_from line 2) :: blocks_from rest
  else match match_numbered line with
       | Some text => numbered_list_item text :: blocks_from rest
       | None =>
           if startsWith line quote_prefix then
             quote (slice_from line 2) :: blocks_from rest
           else paragraph line :: blocks_from rest
       end.
Proof. done. Qed.





Example fenced_js_example :
  markdownToNotionBlocks code_js_example =
  [code str_code str_js].
Proof. vm_compute. reflexivity. Qed.



End BlocksFacts.

(** ** Frontmatter: writing and parsing again *)

Module FrontmatterFacts.
Import JS Effects Push JSFacts Scenarios.













(** *** The lines, one by one *)




Definition key_draft : list N := Eval cbv in lit "draft".


(** *** The line of tags *)









(** *** The header of a generated file *)

Definition header_line (l : list N) : Prop :=
  (NEWLINE ∉ l) /\ head l <> Some HYPHEN.

Lemma head_join_line b r rest :
  head b <> Some HYPHEN ->
  head (join [NEWLINE] (b :: r) ++ NEWLINE :: rest) <> Some HYPHEN.
Proof.
  destruct b as [|c b]; destruct r as [|b' r]; cbn; try congruence;
    intros _; discriminate.
Qed.

Lemma indexOf_close_after ls tail i :
  ls <> [] -> Forall header_line ls ->
  indexOf_from i (join [NEWLINE] ls ++ fm_close ++ tail) fm_close =
  Some (i + length (join [NEWLINE] ls))%nat.
Proof.
  revert i. induction ls as [|a [|b r] IH]; intros i Hne Hall; [done| |].
  - apply Forall_cons in Hall as [[Ha _] _]. cbn [join].
    rewrite (indexOf_from_skip _ _ _ _ NEWLINE) by done.
    apply indexOf_from_here, startsWith_app.
  - apply Forall_cons in Hall as [[Ha _] Hall].
    rewrite join_cons, <- !app_assoc.
    rewrite (indexOf_from_skip _ _ _ _ NEWLINE) by done.
    cbn [app]. rewrite indexOf_from_next.
    + rewrite IH by done. f_equal. rewrite !length_app. simpl. lia.
    + change (startsWith (NEWLINE :: ?x) fm_close)
        with ((NEWLINE =? NEWLINE) && startsWith x [HYPHEN; HYPHEN; HYPHEN; NEWLINE]).
      rewrite N.eqb_refl. cbn [andb].
      apply (startsWith_head_ne _ _ HYPHEN); [done|].
      change (fm_close ++ tail) with (NEWLINE :: ([HYPHEN; HYPHEN; HYPHEN; NEWLINE] ++ tail)).
      apply head_join_line. apply Forall_cons in Hall as [[_ Hb] _]. done.
Qed.

Lemma match_frontmatter_lines ls tail :
  ls <> [] -> Forall header_line ls ->
  match_frontmatter (fm_open ++ join [NEWLINE] ls ++ fm_close ++ tail) =
  Some (join [NEWLINE] ls, tail).
Proof.
  intros Hne Hall. unfold match_frontmatter.
  rewrite startsWith_app, drop_app_length.
  unfold indexOf. rewrite indexOf_close_after by done. cbn [Nat.add].
  rewrite take_app_length. do 2 f_equal.
  rewrite drop_app_ge by lia.
  replace (length (join [NEWLINE] ls) + length fm_close - length (join [NEWLINE] ls))%nat
    with (length fm_close) by lia.
  apply drop_app_length.
Qed.

(** *** Parsing what [generateFrontmatter] wrote *)

(** The file [syncPosts] writes for a post. *)
Definition written (post : Pull.BlogPost) (content : list N) : list N :=
  Pull.generateFrontmatter post ++ [NEWLINE; NEWLINE] ++ content.







Lemma key_title_date : key_title <> key_date. Proof. discriminate. Qed.
Lemma key_title_slug : key_title <> key_slug. Proof. discriminate. Qed.
Lemma key_title_tags : key_title <> key_tags. Proof. discriminate. Qed.
Lemma key_title_draft : key_title <> key_draft. Proof. discriminate. Qed.
Lemma key_date_slug : key_date <> key_slug. Proof. discriminate. Qed.
Lemma key_date_tags : key_date <> key_tags. Proof. discriminate. Qed.
Lemma key_date_draft : key_date <> key_draft. Proof. discriminate. Qed.
Lemma key_slug_tags : key_slug <> key_tags. Proof. discriminate. Qed.
Lemma key_slug_draft : key_slug <> key_draft. Proof. discriminate. Qed.
Lemma key_tags_draft : key_tags <> key_draft. Proof. discriminate. Qed.

Create HintDb fm_keys.
#[local] Hint Resolve key_title_date key_title_slug key_title_tags
  key_title_draft key_date_slug key_date_tags key_date_draft key_slug_tags
  key_slug_draft key_tags_draft : fm_keys.
#[local] Hint Extern 1 (?a <> ?b) =>
  (apply not_eq_sym; solve [auto with fm_keys nocore]) : fm_keys.



(** *** What the parser produces *)








Example hello_world_parses :
  (match parseFrontmatter hello_world_file with
   | Ok (fm, _) => fm !! key_title
   | Err _ => None
   end) = Some (VStr hello_world_title).
Proof. vm_compute. reflexivity. Qed.

Example hello_world_regenerated :
  exists before after,
    Pull.generateFrontmatter hello_world_post =
    before ++ [NEWLINE] ++ hello_world_title_line ++ [NEWLINE] ++ after.
Proof.
  exists Pull.fm_rule. eexists. vm_compute. reflexivity.
Qed.





End FrontmatterFacts.

(** ** Pages and their batches of blocks *)

Module PublishFacts.
Import JS Effects Push JSFacts Scenarios.

(** The number of batches of at most 100 that [n] blocks make. *)
Definition batches (n : nat) : nat := (n + 99) / 100.

Definition create_request (ds : list N) (properties : Properties)
           (children : list Block) : Request :=
  {| endpoint := pages_endpoint; method := POST;
     body := Some (CreatePage ds properties children) |}.

Definition append_request (pageId : list N) (children : list Block) : Request :=
  {| endpoint := blocks_endpoint pageId; method := PATCH;
     body := Some (AppendChildren children) |}.

Lemma batches_0 : batches 0 = 0%nat.
Proof. reflexivity. Qed.

Lemma batches_step n : (0 < n)%nat -> batches n = S (batches (n - 100)).
Proof.
  intros Hn. unfold batches. destruct (le_lt_dec 100 n) as [Hle|Hlt].
  - replace (n + 99)%nat with ((n - 100 + 99) + 1 * 100)%nat by lia.
    rewrite Nat.div_add by lia. lia.
  - replace (n - 100 + 99)%nat with 99%nat by lia.
    symmetry. apply (Nat.div_unique (n + 99) 100 1 (n - 1)); lia.
Qed.

Lemma seq_S_map {A} (f : nat -> A) m :
  map f (seq 0 (S m)) = f 0%nat :: map (fun k => f (S k)) (seq 0 m).
Proof. simpl. f_equal. by rewrite <- seq_shift, map_map. Qed.

(** The batches cover the blocks from [i] on, in order. *)
Lemma batches_cover {A} (l : list A) fuel i :
  (length l - i <= fuel)%nat ->
  concat (map (fun k => take 100 (drop (i + 100 * k) l))
              (seq 0 (batches (length l - i)))) = drop i l.
Proof.
  revert i. induction fuel as [|fuel IH]; intros i Hf.
  - replace (length l - i)%nat with 0%nat by lia. simpl.
    rewrite drop_ge; [done | lia].
  - destruct (decide (length l <= i)%nat) as [Hge|Hlt].
    + replace (length l - i)%nat with 0%nat by lia. simpl.
      rewrite drop_ge; [done | lia].
    + rewrite batches_step by lia. rewrite seq_S_map, concat_cons.
      replace (i + 100 * 0)%nat with i by lia.
      replace (length l - i - 100)%nat with (length l - (i + 100))%nat by lia.
      rewrite <- (take_drop 100 (drop i l)) at 2. f_equal.
      rewrite drop_drop, <- IH by lia.
      f_equal. apply map_ext. intros k. do 2 f_equal. lia.
Qed.

Section Service.

Variable ds : list N.
Variable respond : nat -> Request -> FetchResult.
Hypothesis accepted : forall k r, exists pageId, respond k r = HttpOk (Some pageId).

Lemma notionRequest_accepted endpoint method body w :
  exists pageId,
    notionRequest respond endpoint method body w =
    Done pageId {| requests := requests w ++
                               [{| Push.endpoint := endpoint;
                                   Push.method := method;
                                   Push.body := body |}];
                   console := console w; waited := waited w |}.
Proof.
  unfold notionRequest.
  destruct (accepted (length (requests w))
              {| Push.endpoint := endpoint; Push.method := method;
                 Push.body := body |}) as [pageId ->].
  by exists pageId.
Qed.

(** With enough fuel the loop sends one request per batch and stops. *)
Lemma append_chunks_sends fuel pageId remainingBlocks i w :
  (length remainingBlocks - i <= fuel)%nat ->
  append_chunks respond fuel pageId remainingBlocks i w =
  Done tt {| requests :=
               requests w ++
               map (fun k => append_request pageId
                               (take 100 (drop (i + 100 * k) remainingBlocks)))
                   (seq 0 (batches (length remainingBlocks - i)));
             console := console w; waited := waited w |}.
Proof.
  revert i w. induction fuel as [|fuel IH]; intros i w Hf.
  - replace (length remainingBlocks - i)%nat with 0%nat by lia.
    rewrite batches_0. cbn [seq map append_chunks].
    rewrite app_nil_r. by destruct w.
  - cbn [append_chunks].
    destruct (Nat.ltb_spec i (length remainingBlocks)) as [Hlt|Hge].
    + unfold bind at 1.
      destruct (notionRequest_accepted (blocks_endpoint pageId) PATCH
                  (Some (AppendChildren (take 100 (drop i remainingBlocks)))) w)
        as [pid ->].
      rewrite IH by lia. cbn [requests console waited]. do 2 f_equal.
      rewrite (batches_step (length remainingBlocks - i)) by lia.
      rewrite seq_S_map, <- app_assoc. f_equal.
      replace (i + 100 * 0)%nat with i by lia.
      replace (length remainingBlocks - i - 100)%nat
        with (length remainingBlocks - (i + 100))%nat by lia.
      cbn [app]. f_equal.
      apply map_ext. intros k. do 3 f_equal. lia.
    + replace (length remainingBlocks - i)%nat with 0%nat by lia.
      rewrite batches_0. cbn [seq map].
      rewrite app_nil_r. by destruct w.
Qed.

(** C1.  The page-creation request carries the first min(n, 100) of the n
    blocks; the remainder follows in order, one request per batch of at most
    100, each sent after the previous one has been answered.  For 250 blocks
    the requests carry 100, 100 and 50 blocks. *)
Theorem createNotionPage_batches frontmatter content w tags categories published :
  spread_or_empty (frontmatter !! key_tags) = Ok tags ->
  spread_or_empty (frontmatter !! key_categories) = Ok categories ->
  date_part (frontmatter !! key_date) = Ok published ->
  let blocks := markdownToNotionBlocks content in
  exists pageId properties w',
    createNotionPage ds respond frontmatter content w = Done pageId w' /\
    requests w' =
      requests w ++
      create_request ds properties (take 100 blocks) ::
      map (fun k => append_request pageId
                      (take 100 (drop (100 + 100 * k) blocks)))
          (seq 0 (batches (length blocks - 100))) /\
    length (take 100 blocks) = Nat.min (length blocks) 100 /\
    concat (map children_of (drop (length (requests w)) (requests w'))) = blocks /\
    Forall (fun r => (length (children_of r) <= 100)%nat)
           (drop (length (requests w)) (requests w')) /\
    (length blocks = 250%nat ->
     map (fun r => length (children_of r))
         (drop (length (requests w)) (requests w')) = [100; 100; 50]%nat).
Proof.
  intros Ht Hc Hd blocks.
  unfold createNotionPage. rewrite Ht, Hc, Hd. fold blocks.
  cbn [lift]. unfold bind at 1 2 3. cbn [ret].
  set (properties := {| Name := _ |}).
  unfold bind at 1.
  destruct (notionRequest_accepted pages_endpoint POST
              (Some (CreatePage ds properties (take 100 blocks))) w)
    as [pageId ->].
  unfold bind at 1. rewrite append_chunks_sends by lia.
  cbn [ret requests console waited].
  exists pageId, properties. eexists. split; [reflexivity|].
  cbn [requests].
  assert (Hreq :
    (requests w ++ [create_request ds properties (take 100 blocks)]) ++
    map (fun k => append_request pageId
                    (take 100 (drop (0 + 100 * k) (drop 100 blocks))))
        (seq 0 (batches (length (drop 100 blocks) - 0))) =
    requests w ++
    create_request ds properties (take 100 blocks) ::
    map (fun k => append_request pageId
                    (take 100 (drop (100 + 100 * k) blocks)))
        (seq 0 (batches (length blocks - 100)))).
  { rewrite <- app_assoc. cbn [app]. do 2 f_equal.
    rewrite length_drop, Nat.sub_0_r.
    apply map_ext. intros k. rewrite drop_drop. do 3 f_equal. }
  fold (create_request ds properties (take 100 blocks)).
  rewrite Hreq. clear Hreq.
  rewrite drop_app_length.
  assert (Hchildren :
    map children_of
        (create_request ds properties (take 100 blocks) ::
         map (fun k => append_request pageId
                         (take 100 (drop (100 + 100 * k) blocks)))
             (seq 0 (batches (length blocks - 100)))) =
    take 100 blocks ::
    map (fun k => take 100 (drop (100 + 100 * k) blocks))
        (seq 0 (batches (length blocks - 100)))).
  { cbn [map]. f_equal. rewrite map_map. by apply map_ext. }
  repeat split.
  - rewrite length_take. lia.
  - rewrite Hchildren, concat_cons, (batches_cover blocks (length blocks) 100) by lia.
    apply take_drop.
  - constructor.
    + cbn. rewrite length_take. lia.
    + apply Forall_forall. intros r Hr.
      apply list_elem_of_In, in_map_iff in Hr as (k & <- & _).
      cbn. rewrite length_take. lia.
  - intros Hn. rewrite <- map_map, Hchildren, Hn.
    change (batches (250 - 100)) with 2%nat. cbn [seq map].
    rewrite !length_take, !length_drop, Hn. reflexivity.
Qed.

End Service.

Lemma createNotionPage_batches_witness :
  exists pageId properties w',
    createNotionPage str_ds accept_all minimal_frontmatter content_250
                     initial_world = Done pageId w' /\
    requests w' =
      create_request str_ds properties
                     (take 100 (markdownToNotionBlocks content_250)) ::
      map (fun k => append_request pageId
                      (take 100 (drop (100 + 100 * k)
                                      (markdownToNotionBlocks content_250))))
          (seq 0 (batches (length (markdownToNotionBlocks content_250) - 100))) /\
    map (fun r => length (children_of r)) (requests w') = [100; 100; 50]%nat.
Proof.
  destruct (createNotionPage_batches str_ds accept_all
              (fun k r => ex_intro _ str_page eq_refl)
              minimal_frontmatter content_250 initial_world
              [] [] date_2024_05_06 eq_refl eq_refl eq_refl)
    as (pageId & properties & w' & Hrun & Hreq & _ & _ & _ & H250).
  exists pageId, properties, w'. split; [exact Hrun|]. split; [exact Hreq|].
  apply H250. vm_compute. reflexivity.
Defined.

End PublishFacts.

(** ** The push script: files that are passed over *)

Module MigrateFacts.
Import JS Effects Push JSFacts EffectsFacts Scenarios.
Local Open Scope eff_scope.

Definition with_console (c : list ConsoleLine) (w : World) : World :=
  {| requests := requests w; console := c; waited := waited w |}.

Definition result_in {A} (r : A + Exn) (w : World) : Outcome World A :=
  match r with inl a => Done a w | inr e => Threw e w end.

(** Whatever the console holds at the start, [m] gives the same result,
    prints the same lines and leaves the same requests. *)
Definition console_uniform {A} (m : M A) : Prop :=
  forall w, exists r lines w0,
    forall c, m (with_console c w) = result_in r (with_console (c ++ lines) w0).

Lemma with_console_id w : with_console (console w) w = w.
Proof. by destruct w. Qed.

Lemma console_uniform_ret {A} (a : A) : console_uniform (ret a).
Proof. intros w. exists (inl a), [], w. intros c. by rewrite app_nil_r. Qed.

Lemma console_uniform_throw {A} e : console_uniform (@throw World A e).
Proof. intros w. exists (inr e), [], w. intros c. by rewrite app_nil_r. Qed.

Lemma console_uniform_lift {A} (r : Result A) : console_uniform (lift r).
Proof. destruct r; [apply console_uniform_ret | apply console_uniform_throw]. Qed.

Lemma console_uniform_bind {A B} (m : M A) (k : A -> M B) :
  console_uniform m -> (forall a, console_uniform (k a)) -> console_uniform (bind m k).
Proof.
  intros Hm Hk w. destruct (Hm w) as (r & lines & w0 & H).
  destruct r as [a|e].
  - destruct (Hk a w0) as (r' & lines' & w0' & H').
    exists r', (lines ++ lines'), w0'. intros c. unfold bind. rewrite H.
    cbn [result_in]. rewrite H'. by rewrite app_assoc.
  - exists (inr e), lines, w0. intros c. unfold bind. by rewrite H.
Qed.

Lemma console_uniform_try_catch {A} (m : M A) (h : Exn -> M A) :
  console_uniform m -> (forall e, console_uniform (h e)) -> console_uniform (try_catch m h).
Proof.
  intros Hm Hh w. destruct (Hm w) as (r & lines & w0 & H).
  destruct r as [a|e].
  - exists (inl a), lines, w0. intros c. unfold try_catch. by rewrite H.
  - destruct (Hh e w0) as (r' & lines' & w0' & H').
    exists r', (lines ++ lines'), w0'. intros c. unfold try_catch. rewrite H.
    cbn [result_in]. rewrite H'. by rewrite app_assoc.
Qed.

Lemma console_uniform_console l : console_uniform (console_put l).
Proof. intros w. exists (inl tt), [l], w. done. Qed.

Lemma console_uniform_sleep ms : console_uniform (sleep ms).
Proof.
  intros w. exists (inl tt), [],
    {| requests := requests w; console := console w;
       waited := (waited w + ms)%nat |}.
  intros c. by rewrite app_nil_r.
Qed.

Section Service.

Variable ds : list N.
Variable respond : nat -> Request -> FetchResult.

Lemma console_uniform_notionRequest endpoint method body :
  console_uniform (notionRequest respond endpoint method body).
Proof.
  intros w.
  set (request := {| Push.endpoint := endpoint; Push.method := method;
                     Push.body := body |}).
  set (w0 := {| requests := requests w ++ [request]; console := console w;
                waited := waited w |}).
  exists (match respond (length (requests w)) request with
          | FetchRejected message => inr (HostError message)
          | HttpNotOk status errorText => inr (NotionApiError status errorText)
          | HttpOk None => inr (HostError [])
          | HttpOk (Some id) => inl id
          end), [], w0.
  intros c. rewrite app_nil_r. unfold notionRequest. cbn [requests with_console].
  fold request. destruct (respond (length (requests w)) request) as [?|? ?|[?|]]; done.
Qed.

Lemma console_uniform_append_chunks fuel pageId remainingBlocks i :
  console_uniform (append_chunks respond fuel pageId remainingBlocks i).
Proof.
  revert i. induction fuel as [|fuel IH]; intros i; [apply console_uniform_ret|].
  cbn [append_chunks]. destruct (i <? length remainingBlocks)%nat; [|apply console_uniform_ret].
  apply console_uniform_bind; [apply console_uniform_notionRequest | intros _; apply IH].
Qed.

Lemma console_uniform_createNotionPage frontmatter content :
  console_uniform (createNotionPage ds respond frontmatter content).
Proof.
  unfold createNotionPage.
  apply console_uniform_bind; [apply console_uniform_lift|]. intros tags.
  apply console_uniform_bind; [apply console_uniform_lift|]. intros categories.
  apply console_uniform_bind; [apply console_uniform_lift|]. intros published.
  apply console_uniform_bind; [apply console_uniform_notionRequest|]. intros pageId.
  apply console_uniform_bind; [apply console_uniform_append_chunks | intros _; apply console_uniform_ret].
Qed.

Lemma console_uniform_process_file read : console_uniform (process_file ds respond read).
Proof.
  unfold process_file.
  apply console_uniform_bind; [apply console_uniform_lift|]. intros fileContent.
  apply console_uniform_bind; [apply console_uniform_lift|]. intros [frontmatter content].
  destruct (_ || _).
  - apply console_uniform_bind; [apply console_uniform_console | intros _; apply console_uniform_ret].
  - apply console_uniform_bind; [apply console_uniform_createNotionPage|]. intros pageId.
    apply console_uniform_bind; [apply console_uniform_console|]. intros _.
    apply console_uniform_bind; [apply console_uniform_sleep | intros _; apply console_uniform_ret].
Qed.

(** What [try] and [catch] make of one file: it never throws. *)
Definition guarded (read : Result (list N)) : M (option Processed) :=
  try_catch (p <- process_file ds respond read ;; ret (Some p))
            (fun error => console_put (ErrorLine error) ;; ret None).

Lemma guarded_done read w : exists p w', guarded read w = Done p w'.
Proof.
  unfold guarded, try_catch.
  destruct (bind (process_file ds respond read) _ w); [eauto|].
  unfold bind, console_put, ret. eauto.
Qed.

Lemma console_uniform_guarded read :
  forall w, exists p lines w0,
    forall c, guarded read (with_console c w) = Done p (with_console (c ++ lines) w0).
Proof.
  intros w.
  assert (Hu : console_uniform (guarded read)).
  { apply console_uniform_try_catch.
    - apply console_uniform_bind; [apply console_uniform_process_file | intros ?; apply console_uniform_ret].
    - intros e. apply console_uniform_bind; [apply console_uniform_console | intros _; apply console_uniform_ret]. }
  destruct (Hu w) as ([p|e] & lines & w0 & H); [by exists p, lines, w0|].
  exfalso. destruct (guarded_done read w) as (p & w' & Hd).
  specialize (H (console w)). rewrite with_console_id, Hd in H. discriminate.
Qed.

(** One turn of the loop. *)
Lemma migrate_files_cons contentDir filePath read more successCount errorCount w :
  migrate_files ds respond contentDir ((filePath, read) :: more)
                successCount errorCount w =
  match guarded read
          (with_console
             (console w ++ [LogProcessing (drop (S (length contentDir)) filePath)])
             w) with
  | Done (Some Created) w' =>
      migrate_files ds respond contentDir more (S successCount) errorCount w'
  | Done _ w' =>
      migrate_files ds respond contentDir more successCount (S errorCount) w'
  | Threw e w' => Threw e w'
  end.
Proof.
  cbn [migrate_files]. fold (guarded read). unfold bind at 1.
  cbn [console_put]. unfold bind at 1. unfold with_console.
  destruct (guarded read _) as [[[|]|] w'|]; reflexivity.
Qed.

(** The loop adds to its two counters what it counts from zero, whatever
    the console held. *)
Lemma migrate_files_uniform contentDir files w :
  exists a b lines w0,
    forall successCount errorCount c,
      migrate_files ds respond contentDir files successCount errorCount
                    (with_console c w) =
      Done ((successCount + a)%nat, (errorCount + b)%nat)
           (with_console (c ++ lines) w0).
Proof.
  revert w. induction files as [|[filePath read] more IH]; intros w.
  - exists 0%nat, 0%nat, [], w. intros s e c.
    cbn [migrate_files ret]. by rewrite !Nat.add_0_r, app_nil_r.
  - destruct (console_uniform_guarded read w) as (p & lines1 & w1 & H1).
    destruct (IH w1) as (a & b & lines2 & w2 & H2).
    set (line := LogProcessing (drop (S (length contentDir)) filePath)).
    exists (match p with Some Created => S a | _ => a end),
           (match p with Some Created => b | _ => S b end),
           ([line] ++ lines1 ++ lines2), w2.
    intros s e c. rewrite migrate_files_cons.
    subst line. set (line := LogProcessing _).
    replace (with_console (console (with_console c w) ++ [line]) (with_console c w))
      with (with_console (c ++ [line]) w) by reflexivity.
    rewrite H1.
    destruct p as [[|]|]; rewrite H2; rewrite <- !app_assoc;
      do 2 f_equal; lia.
Qed.

Lemma migrate_files_app contentDir files1 files2 successCount errorCount w :
  migrate_files ds respond contentDir (files1 ++ files2) successCount errorCount w =
  bind (migrate_files ds respond contentDir files1 successCount errorCount)
       (fun counts => migrate_files ds respond contentDir files2
                                    (fst counts) (snd counts)) w.
Proof.
  revert successCount errorCount w.
  induction files1 as [|[filePath read] more IH]; intros s e w; [done|].
  cbn [app]. unfold bind. rewrite !migrate_files_cons.
  destruct (guarded read _) as [[[|]|] w2|]; try done; apply IH.
Qed.

(** A file whose frontmatter shows no title, or no date, is counted as an
    error and nothing is sent for it. *)
Lemma migrate_files_skip contentDir filePath content frontmatter body more s e w :
  parseFrontmatter content = Ok (frontmatter, body) ->
  truthy (frontmatter !! key_title) = false \/
  truthy (frontmatter !! key_date) = false ->
  migrate_files ds respond contentDir ((filePath, Ok content) :: more) s e w =
  migrate_files ds respond contentDir more s (S e)
    (with_console (console w ++
                   [LogProcessing (drop (S (length contentDir)) filePath);
                    WarnSkipping]) w).
Proof.
  intros Hp Hlack. rewrite migrate_files_cons.
  unfold guarded, try_catch, process_file, bind. cbn [lift ret]. rewrite Hp.
  cbn [lift ret].
  assert (negb (truthy (frontmatter !! key_title)) ||
          negb (truthy (frontmatter !! key_date)) = true) as ->.
  { destruct Hlack as [-> | ->]; [done | apply orb_true_r]. }
  cbn [console_put requests console waited ret with_console].
  by rewrite <- app_assoc.
Qed.

Lemma getAllMarkdownFiles_app dir entries1 entries2 :
  getAllMarkdownFiles dir (entries1 ++ entries2) =
  getAllMarkdownFiles dir entries1 ++ getAllMarkdownFiles dir entries2.
Proof. apply flat_map_app. Qed.

Lemma relative_join dir name : drop (S (length dir)) (path_join dir name) = name.
Proof.
  unfold path_join. rewrite drop_app_ge by lia.
  by replace (S (length dir) - length dir)%nat with 1%nat by lia.
Qed.

(** The loop over a list that holds such a file, and over the list without
    it: one more error, and two more lines on the console. *)
Lemma migrate_files_around_skip contentDir files1 filePath content frontmatter
      body files2 w :
  parseFrontmatter content = Ok (frontmatter, body) ->
  truthy (frontmatter !! key_title) = false \/
  truthy (frontmatter !! key_date) = false ->
  exists successCount errorCount lines1 lines2 w0,
    forall c,
      migrate_files ds respond contentDir
                    (files1 ++ (filePath, Ok content) :: files2) 0 0
                    (with_console c w) =
        Done (successCount, S errorCount)
             (with_console
                (c ++ lines1 ++
                 [LogProcessing (drop (S (length contentDir)) filePath);
                  WarnSkipping] ++ lines2) w0) /\
      migrate_files ds respond contentDir (files1 ++ files2) 0 0
                    (with_console c w) =
        Done (successCount, errorCount) (with_console (c ++ lines1 ++ lines2) w0).
Proof.
  intros Hp Hlack.
  destruct (migrate_files_uniform contentDir files1 w) as (a & b & l1 & w1 & H1).
  destruct (migrate_files_uniform contentDir files2 w1) as (a' & b' & l2 & w2 & H2).
  exists (a + a')%nat, (b + b')%nat, l1, l2, w2. intros c. split.
  - rewrite migrate_files_app. unfold bind. rewrite H1. cbn [fst snd].
    rewrite (migrate_files_skip _ _ _ _ _ _ _ _ _ Hp Hlack).
    replace (with_console (console (with_console (c ++ l1) w1) ++ _)
                          (with_console (c ++ l1) w1))
      with (with_console
              ((c ++ l1) ++
               [LogProcessing (drop (S (length contentDir)) filePath);
                WarnSkipping]) w1) by reflexivity.
    rewrite H2. by rewrite <- !app_assoc.
  - rewrite migrate_files_app. unfold bind. rewrite H1. cbn [fst snd].
    rewrite H2. by rewrite <- !app_assoc.
Qed.

(** The whole run, from what the loop gives. *)
Lemma migrateToNotion_run contentDir root counts lines w w0 :
  migrate_files ds respond contentDir (getAllMarkdownFiles contentDir root) 0 0
    (with_console
       (console w ++
        [LogScanning; LogFound (length (getAllMarkdownFiles contentDir root))])
       w) =
    Done counts (with_console lines w0) ->
  migrateToNotion ds respond contentDir root w =
    Done counts
         (with_console
            (lines ++ [LogCompleted; LogSuccess (fst counts);
                       LogErrors (snd counts)]) w0).
Proof.
  intros Hloop. unfold migrateToNotion, bind at 1. cbn [console_put].
  unfold bind at 1. cbn [console_put requests console waited].
  rewrite <- app_assoc. cbn [app]. unfold bind at 1.
  unfold with_console in Hloop. rewrite Hloop.
  unfold bind, console_put, ret, with_console. cbn [requests console waited].
  by rewrite <- !app_assoc.
Qed.

(** A Markdown file without title, or without date, among the entries of
    the content directory: the run ends, counts it as an error, and sends
    and waits as it does without the file. *)
Lemma migrateToNotion_skip contentDir before name content frontmatter body
      after w :
  endsWith name md_suffix = true ->
  parseFrontmatter content = Ok (frontmatter, body) ->
  truthy (frontmatter !! key_title) = false \/
  truthy (frontmatter !! key_date) = false ->
  let found := length (getAllMarkdownFiles contentDir (before ++ after)) in
  exists successCount errorCount lines1 lines2 w1 w2,
    migrateToNotion ds respond contentDir
                    (before ++ FileEnt name (Ok content) :: after) w =
      Done (successCount, S errorCount) w1 /\
    migrateToNotion ds respond contentDir (before ++ after) w =
      Done (successCount, errorCount) w2 /\
    requests w1 = requests w2 /\
    waited w1 = waited w2 /\
    console w1 =
      console w ++ [LogScanning; LogFound (S found)] ++ lines1 ++
      [LogProcessing name; WarnSkipping] ++ lines2 ++
      [LogCompleted; LogSuccess successCount; LogErrors (S errorCount)] /\
    console w2 =
      console w ++ [LogScanning; LogFound found] ++ lines1 ++ lines2 ++
      [LogCompleted; LogSuccess successCount; LogErrors errorCount].
Proof.
  intros Hmd Hp Hlack found.
  destruct (migrate_files_around_skip contentDir
              (getAllMarkdownFiles contentDir before)
              (path_join contentDir name) content frontmatter body
              (getAllMarkdownFiles contentDir after) w Hp Hlack)
    as (s & e & l1 & l2 & w0 & H).
  rewrite relative_join in H.
  assert (Hwith : getAllMarkdownFiles contentDir
                    (before ++ FileEnt name (Ok content) :: after) =
                  getAllMarkdownFiles contentDir before ++
                  (path_join contentDir name, Ok content) ::
                  getAllMarkdownFiles contentDir after).
  { rewrite getAllMarkdownFiles_app. f_equal.
    unfold getAllMarkdownFiles. cbn [flat_map entry_files]. by rewrite Hmd. }
  assert (Hlen : length (getAllMarkdownFiles contentDir
                           (before ++ FileEnt name (Ok content) :: after)) =
                 S found).
  { rewrite Hwith. unfold found. rewrite getAllMarkdownFiles_app.
    rewrite !length_app. cbn [length]. lia. }
  set (start := console w ++ [LogScanning; LogFound (S found)]).
  set (start' := console w ++ [LogScanning; LogFound found]).
  exists s, e, l1, l2,
    (with_console
       ((start ++ l1 ++ [LogProcessing name; WarnSkipping] ++ l2) ++
        [LogCompleted; LogSuccess s; LogErrors (S e)]) w0),
    (with_console
       ((start' ++ l1 ++ l2) ++ [LogCompleted; LogSuccess s; LogErrors e]) w0).
  split; [|split; [|split; [|split; [|split]]]].
  - apply (migrateToNotion_run _ _ (s, S e)). rewrite Hlen, Hwith.
    apply (proj1 (H start)).
  - apply (migrateToNotion_run _ _ (s, e)). fold found.
    rewrite getAllMarkdownFiles_app. apply (proj2 (H start')).
  - reflexivity.
  - reflexivity.
  - cbn [console with_console]. subst start. by rewrite <- !app_assoc.
  - cbn [console with_console]. subst start'. by rewrite <- !app_assoc.
Qed.

End Service.

End MigrateFacts.

(** ** The pull script: what a run leaves behind *)

Module PullFacts.
Import JS Effects Pull JSFacts EffectsFacts Scenarios.
Local Open Scope eff_scope.

(** A step between two worlds: the files are related by [F], and the trace
    has grown by events that satisfy [P]. *)
Definition step (F : list (list N * list N) -> list (list N * list N) -> Prop)
           (P : Event -> Prop) (w w' : World) : Prop :=
  F (files w) (files w') /\
  exists evs, trace w' = trace w ++ evs /\ Forall P evs.

Lemma lookup_store_eq path data fs :
  lookup_file path (store_file path data fs) = Some data.
Proof.
  unfold lookup_file. induction fs as [|[p d] fs IH]; simpl.
  - unfold str_eqb. by rewrite bool_decide_eq_true_2.
  - unfold str_eqb in *. destruct (bool_decide (p = path)) eqn:E; simpl.
    + by rewrite E.
    + by rewrite E.
Qed.

Lemma lookup_store_ne path data fs other :
  path <> other ->
  lookup_file other (store_file path data fs) = lookup_file other fs.
Proof.
  intros Hne. unfold lookup_file. induction fs as [|[p d] fs IH]; simpl.
  - unfold str_eqb. by rewrite bool_decide_eq_false_2.
  - unfold str_eqb in *. destruct (bool_decide (p = path)) eqn:E; simpl.
    + apply bool_decide_eq_true_1 in E as ->.
      by rewrite bool_decide_eq_false_2.
    + destruct (bool_decide (p = other)); [done|]. apply IH.
Qed.

Section Steps.

Variable host : Host.
Variable F : list (list N * list N) -> list (list N * list N) -> Prop.
Variable P : Event -> Prop.
Hypothesis F_refl : forall fs, F fs fs.
Hypothesis F_trans : forall a b c, F a b -> F b c -> F a c.

Lemma step_refl w : step F P w w.
Proof. split; [apply F_refl|]. exists []. by rewrite app_nil_r. Qed.

Lemma step_trans w1 w2 w3 : step F P w1 w2 -> step F P w2 w3 -> step F P w1 w3.
Proof.
  intros [Hf1 (e1 & Ht1 & Hp1)] [Hf2 (e2 & Ht2 & Hp2)]. split.
  - by eapply F_trans.
  - exists (e1 ++ e2). rewrite Ht2, Ht1, app_assoc. split; [done|].
    by apply Forall_app.
Qed.

Lemma step_silent w w' :
  files w' = files w -> trace w' = trace w -> step F P w w'.
Proof.
  intros Hf Ht. split; [rewrite Hf; apply F_refl|].
  exists []. by rewrite app_nil_r.
Qed.

Lemma step_event w w' e :
  files w' = files w -> trace w' = trace w ++ [e] -> P e -> step F P w w'.
Proof.
  intros Hf Ht He. split; [rewrite Hf; apply F_refl|].
  exists [e]. split; [done|]. by constructor.
Qed.

Definition keeps {A} (m : M A) : Prop := respects (step F P) m.

Lemma keeps_ret {A} (a : A) : keeps (ret a).
Proof. apply respects_ret, step_refl. Qed.

Lemma keeps_throw {A} e : keeps (@throw World A e).
Proof. apply respects_throw, step_refl. Qed.

Lemma keeps_lift {A} (r : Result A) : keeps (lift r).
Proof. apply respects_lift, step_refl. Qed.

Lemma keeps_bind {A B} (m : M A) (k : A -> M B) :
  keeps m -> (forall a, keeps (k a)) -> keeps (bind m k).
Proof. apply respects_bind, step_trans. Qed.

Lemma keeps_try_catch {A} (m : M A) (h : Exn -> M A) :
  keeps m -> (forall e, keeps (h e)) -> keeps (try_catch m h).
Proof. apply respects_try_catch, step_trans. Qed.

Lemma keeps_emit e : P e -> keeps (emit e).
Proof. intros He w. by apply (step_event _ _ e). Qed.

Lemma keeps_console l : P (EvConsole l) -> keeps (console_put l).
Proof. apply keeps_emit. Qed.

Lemma keeps_tick : keeps tick.
Proof. intros w. by apply step_silent. Qed.

Lemma keeps_fs_step : keeps (fs_step host).
Proof.
  apply keeps_bind; [apply keeps_tick|]. intros k.
  destruct (fs_fault host k); [apply keeps_throw | apply keeps_ret].
Qed.

Lemma keeps_existsSync path : keeps (existsSync path).
Proof. intros w. apply step_refl. Qed.

Lemma keeps_readFileSync path : P (EvRead path) -> keeps (readFileSync host path).
Proof.
  intros He. apply keeps_bind; [apply keeps_fs_step|]. intros _ w.
  destruct (lookup_file path (files w)); [|apply step_refl].
  by apply (keeps_bind (emit (EvRead path)) _ (keeps_emit _ He) (fun _ => keeps_ret _)).
Qed.

Lemma keeps_put_file path data :
  (forall fs, F fs (store_file path data fs)) ->
  P (EvWrite path data) ->
  keeps (put_file path data).
Proof.
  intros Hf He. apply keeps_bind; [|intros _; by apply keeps_emit].
  intros w. split; [apply Hf|]. exists []. by rewrite app_nil_r.
Qed.

Lemma keeps_writeFileSync path data :
  (forall written fs, F fs (store_file path written fs)) ->
  (forall written, P (EvWrite path written)) ->
  keeps (writeFileSync host path data).
Proof.
  intros Hf He. apply keeps_bind; [apply keeps_tick|]. intros k.
  destruct (fs_fault host k); [|by apply keeps_put_file].
  destruct (fs_written host k); [|apply keeps_throw].
  apply keeps_bind; [by apply keeps_put_file | intros _; apply keeps_throw].
Qed.

Lemma keeps_mkdirSync path : P (EvMkdir path) -> keeps (mkdirSync host path).
Proof.
  intros He. apply keeps_bind; [apply keeps_fs_step|]. intros _.
  apply keeps_bind; [|intros _; by apply keeps_emit].
  intros w. by apply step_silent.
Qed.

Lemma keeps_readdirSync path : P (EvReaddir path) -> keeps (readdirSync host path).
Proof.
  intros He. apply keeps_bind; [apply keeps_fs_step|]. intros _ w.
  destruct (bool_decide (path ∈ dirs w)); [|apply step_refl].
  by apply (keeps_bind (emit (EvReaddir path)) _ (keeps_emit _ He) (fun _ => keeps_ret _)).
Qed.

Lemma keeps_now : (forall t, P (EvNow t)) -> keeps (now host).
Proof.
  intros He. apply keeps_bind; [apply keeps_tick|]. intros k.
  apply keeps_bind; [by apply keeps_emit | intros _; apply keeps_ret].
Qed.

Lemma keeps_pageToMarkdown pageId :
  P (EvPageToMarkdown pageId) -> keeps (pageToMarkdown host pageId).
Proof.
  intros He. apply keeps_bind; [apply keeps_tick|]. intros k.
  apply keeps_bind; [by apply keeps_emit | intros _; apply keeps_lift].
Qed.

Lemma keeps_query answer request :
  P (EvQuery request) -> keeps (query answer request).
Proof.
  intros He. apply keeps_bind; [apply keeps_tick|]. intros k.
  apply keeps_bind; [by apply keeps_emit | intros _; apply keeps_lift].
Qed.

(** *** The parts of a run *)

Lemma keeps_loadSyncState :
  (forall path, P (EvRead path)) -> (forall l, P (EvConsole l)) ->
  keeps (loadSyncState host).
Proof.
  intros Hr Hc. apply keeps_try_catch.
  - apply keeps_bind; [apply keeps_existsSync|]. intros [|]; [|apply keeps_ret].
    apply keeps_bind; [by apply keeps_readFileSync | intros ?; apply keeps_lift].
  - intros e. apply keeps_bind; [by apply keeps_console | intros _; apply keeps_ret].
Qed.

Lemma keeps_read_pages pages posts :
  (forall pageId, P (EvPageToMarkdown pageId)) -> (forall l, P (EvConsole l)) ->
  keeps (read_pages host pages posts).
Proof.
  intros Hm Hc. revert posts. induction pages as [|page more IH]; intros posts.
  - apply keeps_ret.
  - cbn [read_pages]. destruct (properties page) as [props|]; [|apply IH].
    destruct (_ || _).
    + apply keeps_bind; [by apply keeps_console | intros _; apply IH].
    + apply keeps_bind; [by apply keeps_pageToMarkdown | intros ?; apply IH].
Qed.

Lemma keeps_fetch_pages answers filter cursor posts :
  (forall request, filter_last_edited_after request = filter -> P (EvQuery request)) ->
  (forall pageId, P (EvPageToMarkdown pageId)) -> (forall l, P (EvConsole l)) ->
  keeps (fetch_pages host answers filter cursor posts).
Proof.
  intros Hq Hm Hc. revert cursor posts.
  induction answers as [|answer later IH]; intros cursor posts.
  - apply keeps_throw.
  - cbn [fetch_pages]. apply keeps_bind; [by apply keeps_query, Hq|].
    intros response. apply keeps_bind; [by apply keeps_read_pages|].
    intros posts'. destruct (has_more response); [apply IH | apply keeps_ret].
Qed.

(** The filter of a run that starts from [lastSyncTime]. *)
Definition filter_of (lastSyncTime : option (list N)) : option (list N) :=
  match lastSyncTime with
  | Some t => if truthy_str t then Some t else None
  | None => None
  end.

Lemma keeps_fetchBlogPosts lastSyncTime :
  (forall request,
     filter_last_edited_after request = filter_of lastSyncTime ->
     P (EvQuery request)) ->
  (forall pageId, P (EvPageToMarkdown pageId)) -> (forall l, P (EvConsole l)) ->
  keeps (fetchBlogPosts host lastSyncTime).
Proof.
  intros Hq Hm Hc. unfold fetchBlogPosts.
  apply keeps_bind; [by apply keeps_console|]. intros _.
  by apply keeps_fetch_pages.
Qed.

Lemma keeps_write_posts yearDir existingFiles maxIndex yearPosts newPostIndex :
  (forall name data fs, F fs (store_file (path_join yearDir name) data fs)) ->
  (forall name data, P (EvWrite (path_join yearDir name) data)) ->
  (forall l, P (EvConsole l)) ->
  keeps (write_posts host yearDir existingFiles maxIndex yearPosts newPostIndex).
Proof.
  intros Hf Hw Hc. revert newPostIndex.
  induction yearPosts as [|post more IH]; intros newPostIndex.
  - apply keeps_ret.
  - cbn [write_posts]. destruct (existing_slug_file existingFiles post).
    + apply keeps_bind; [by apply keeps_console|]. intros _.
      apply keeps_bind; [by apply keeps_writeFileSync|]. intros _.
      apply keeps_bind; [by apply keeps_console|]. intros _. apply IH.
    + apply keeps_bind; [by apply keeps_writeFileSync|]. intros _.
      apply keeps_bind; [by apply keeps_console|]. intros _. apply IH.
Qed.

Lemma keeps_sync_year contentDir year yearPosts :
  (forall name data fs,
     F fs (store_file (path_join (path_join contentDir year) name) data fs)) ->
  (forall name data, P (EvWrite (path_join (path_join contentDir year) name) data)) ->
  (forall path, P (EvMkdir path)) -> (forall path, P (EvReaddir path)) ->
  (forall l, P (EvConsole l)) ->
  keeps (sync_year host contentDir year yearPosts).
Proof.
  intros Hf Hw Hm Hr Hc. unfold sync_year.
  apply keeps_bind; [apply keeps_existsSync|]. intros present.
  apply keeps_bind.
  { destruct present; [apply keeps_ret | by apply keeps_mkdirSync]. }
  intros _. apply keeps_bind; [apply keeps_existsSync|]. intros present'.
  apply keeps_bind.
  { destruct present'; [|apply keeps_ret].
    apply keeps_bind; [by apply keeps_readdirSync | intros ?; apply keeps_ret]. }
  intros existingFiles. by apply keeps_write_posts.
Qed.

Lemma keeps_sync_years contentDir postsByYear :
  (forall year name data fs,
     F fs (store_file (path_join (path_join contentDir year) name) data fs)) ->
  (forall year name data,
     P (EvWrite (path_join (path_join contentDir year) name) data)) ->
  (forall path, P (EvMkdir path)) -> (forall path, P (EvReaddir path)) ->
  (forall l, P (EvConsole l)) ->
  keeps (sync_years host contentDir postsByYear).
Proof.
  intros Hf Hw Hm Hr Hc.
  induction postsByYear as [|[year yearPosts] more IH]; [apply keeps_ret|].
  cbn [sync_years]. apply keeps_bind; [by apply keeps_sync_year|].
  intros _. apply IH.
Qed.

End Steps.

(** *** Single operations, run *)

Definition add_event (e : Event) (w : World) : World :=
  {| files := files w; dirs := dirs w; steps := steps w; trace := trace w ++ [e] |}.

Definition ticked (w : World) : World :=
  {| files := files w; dirs := dirs w; steps := S (steps w); trace := trace w |}.

Lemma emit_run e w : emit e w = Done tt (add_event e w).
Proof. done. Qed.

Lemma now_run host w :
  now host w = Done (clock host (steps w))
                    (add_event (EvNow (clock host (steps w))) (ticked w)).
Proof. done. Qed.

(** The world after [data] has been put into [path]. *)
Definition wrote (path data : list N) (w : World) : World :=
  {| files := store_file path data (files w); dirs := dirs w;
     steps := S (steps w); trace := trace w ++ [EvWrite path data] |}.

Lemma writeFileSync_run host path data w :
  writeFileSync host path data w =
  match fs_fault host (steps w) with
  | Some e =>
      match fs_written host (steps w) with
      | Some n => Threw e (wrote path (take n data) w)
      | None => Threw e (ticked w)
      end
  | None => Done tt (wrote path data w)
  end.
Proof.
  unfold writeFileSync, put_file, bind, tick.
  destruct (fs_fault host (steps w)); [|done].
  by destruct (fs_written host (steps w)).
Qed.

Lemma loadSyncState_done host w :
  exists st w', loadSyncState host w = Done st w'.
Proof.
  unfold loadSyncState, try_catch.
  destruct (bind (existsSync (SYNC_STATE_FILE host)) _ w); eauto.
Qed.

(** *** The state file *)

Definition same_state host (fs fs' : list (list N * list N)) : Prop :=
  lookup_file (SYNC_STATE_FILE host) fs' = lookup_file (SYNC_STATE_FILE host) fs.

Definition writes_state host (e : Event) : Prop :=
  exists data, e = EvWrite (SYNC_STATE_FILE host) data.

Definition is_query (e : Event) : Prop := exists request, e = EvQuery request.

Definition is_console (e : Event) : Prop := exists l, e = EvConsole l.

Lemma same_state_refl host fs : same_state host fs fs.
Proof. done. Qed.

Lemma same_state_trans host a b c :
  same_state host a b -> same_state host b c -> same_state host a c.
Proof. unfold same_state. congruence. Qed.

(** A file of the blog is not the state file. *)
Lemma content_path_not_state host year name :
  path_join (path_join (path_join (cwd host) content_path) year) name <>
  SYNC_STATE_FILE host.
Proof.
  unfold SYNC_STATE_FILE, path_join. rewrite <- !app_assoc.
  intros H. apply app_inv_head in H. discriminate.
Qed.

Lemma same_state_store host year name data fs :
  same_state host fs
    (store_file (path_join (path_join (path_join (cwd host) content_path) year) name)
                data fs).
Proof. apply lookup_store_ne, content_path_not_state. Qed.

Section Atomic.

Variable host : Host.

Definition no_state_write (e : Event) : Prop := ~ writes_state host e.

Definition before_query (e : Event) : Prop :=
  ~ writes_state host e /\ ~ is_query e.

Lemma load_quiet :
  keeps (same_state host) before_query (loadSyncState host).
Proof.
  apply keeps_loadSyncState;
    [apply same_state_refl | apply same_state_trans | |];
    intros x; split; intros [? ?]; discriminate.
Qed.

Lemma fetch_quiet lastSyncTime :
  keeps (same_state host) no_state_write (fetchBlogPosts host lastSyncTime).
Proof.
  apply keeps_fetchBlogPosts;
    [apply same_state_refl | apply same_state_trans | | |];
    intros; intros [? ?]; discriminate.
Qed.

Lemma years_quiet postsByYear :
  keeps (same_state host) no_state_write
        (sync_years host (path_join (cwd host) content_path) postsByYear).
Proof.
  apply keeps_sync_years;
    [apply same_state_refl | apply same_state_trans | | | | |].
  - intros. apply same_state_store.
  - intros year name data [d [= H _]]. by apply content_path_not_state in H.
  - intros ? [? ?]; discriminate.
  - intros ? [? ?]; discriminate.
  - intros ? [? ?]; discriminate.
Qed.

(** The write of the state for the time [t] failed after the file had
    been opened: up to then the state file was left alone, and now it holds
    what had been written. *)
Definition save_failed (t : list N) (e : Exn) (w w' : World) : Prop :=
  exists n w0,
    step (same_state host) no_state_write w w0 /\
    fs_fault host (steps w0) = Some e /\
    fs_written host (steps w0) = Some n /\
    w' = wrote (SYNC_STATE_FILE host)
               (take n (JSON_stringify host {| lastSyncTime := t |})) w0.

(** A computation that, when it throws, has left the state file alone,
    unless what failed is the write of the state for the time [t]. *)
Definition careful (t : list N) {A} (m : M A) : Prop :=
  forall w, match m w with
            | Threw e w' =>
                step (same_state host) no_state_write w w' \/ save_failed t e w w'
            | Done _ _ => True
            end.

Lemma careful_bind t {A B} (m : M A) (k : A -> M B) :
  keeps (same_state host) no_state_write m ->
  (forall a, careful t (k a)) ->
  careful t (bind m k).
Proof.
  intros Hm Hk w. unfold bind. generalize (Hm w).
  destruct (m w) as [a w1|e w1]; simpl; [|by left].
  intros H1. generalize (Hk a w1). destruct (k a w1) as [b w2|e w2]; [done|].
  intros [H2|(n & w0 & H2 & Hf & Hn & ->)].
  - left. eapply step_trans; [apply same_state_trans | exact H1 | exact H2].
  - right. exists n, w0. split; [|done].
    eapply step_trans; [apply same_state_trans | exact H1 | exact H2].
Qed.

Lemma careful_save t : careful t (saveSyncState host {| lastSyncTime := t |}).
Proof.
  intros w. unfold saveSyncState. rewrite writeFileSync_run.
  destruct (fs_fault host (steps w)) as [e|] eqn:Ef; [|done].
  destruct (fs_written host (steps w)) as [n|] eqn:En.
  - right. exists n, w. split; [|done].
    apply step_refl, same_state_refl.
  - left. by apply step_silent.
Qed.

Lemma careful_save_log t l :
  careful t (bind (saveSyncState host {| lastSyncTime := t |})
                  (fun _ => console_put l)).
Proof.
  intros w. unfold bind. generalize (careful_save t w).
  by destruct (saveSyncState host _ w).
Qed.

Lemma keeps_weaken {A} (m : M A) :
  keeps (same_state host) before_query m ->
  keeps (same_state host) no_state_write m.
Proof.
  apply respects_weaken. intros w w' [Hf (evs & Ht & Hp)]. split; [done|].
  exists evs. split; [done|]. eapply Forall_impl; [exact Hp|]. by intros e [? _].
Qed.

Lemma console_quiet l : keeps (same_state host) no_state_write (console_put l).
Proof.
  apply keeps_console;
    [apply same_state_refl.. | intros [? ?]; discriminate].
Qed.

(** The part of [syncPosts] that follows the reading of the clock. *)
Lemma after_now_careful t (syncState : option SyncState) :
  careful t
    (console_put LogFetching ;;
     posts <- fetchBlogPosts host (lastSyncTime <$> syncState) ;;
     if (length posts =? 0)%nat then
       console_put LogNoNewPosts ;;
       saveSyncState host {| lastSyncTime := t |}
     else
       console_put (LogFound (length posts)) ;;
       sync_years host (path_join (cwd host) content_path)
                  (group_by_year host posts) ;;
       saveSyncState host {| lastSyncTime := t |} ;;
       console_put (LogCompleted t)).
Proof.
  apply careful_bind; [apply console_quiet|]. intros _.
  apply careful_bind; [apply fetch_quiet|]. intros posts.
  destruct (length posts =? 0)%nat.
  - apply careful_bind; [apply console_quiet|]. intros _. apply careful_save.
  - apply careful_bind; [apply console_quiet|]. intros _.
    apply careful_bind; [apply years_quiet|]. intros _.
    apply careful_save_log.
Qed.

(** A run that throws has left the state file alone, unless what failed
    is the write of the state, for the time that the run had read. *)
Lemma syncPosts_careful w :
  match syncPosts host w with
  | Threw e w' =>
      step (same_state host) no_state_write w w' \/
      exists t,
        save_failed t e w w' /\
        forall evs, trace w' = trace w ++ evs -> EvNow t ∈ evs
  | Done _ _ => True
  end.
Proof.
  unfold syncPosts. unfold bind at 1.
  pose proof (keeps_weaken _ load_quiet w) as Hl.
  destruct (loadSyncState host w) as [syncState w1|e w1]; [|by left].
  cbn [world_of] in Hl. unfold bind at 1. rewrite now_run.
  set (t := clock host (steps w1)).
  set (w2 := add_event (EvNow t) (ticked w1)).
  assert (H2 : step (same_state host) no_state_write w w2).
  { eapply step_trans; [apply same_state_trans | exact Hl |].
    apply (step_event _ _ (same_state_refl host) _ _ (EvNow t)); [done..|].
    intros [? ?]; discriminate. }
  pose proof (after_now_careful t syncState w2) as Hc.
  match goal with |- match ?m with _ => _ end => destruct m as [[] w'|e w'] end;
    [done|].
  destruct Hc as [Hc|(n & w0 & Hc & Hf & Hn & ->)].
  - left. eapply step_trans; [apply same_state_trans | exact H2 | exact Hc].
  - right. exists t. split.
    + exists n, w0. split; [|done].
      eapply step_trans; [apply same_state_trans | exact H2 | exact Hc].
    + intros evs Hevs. destruct Hl as [_ (e1 & Ht1 & _)].
      destruct Hc as [_ (e2 & Ht2 & _)].
      cbn [trace wrote] in Hevs. rewrite Ht2 in Hevs.
      cbn [trace w2 add_event ticked] in Hevs. rewrite Ht1 in Hevs.
      rewrite <- !app_assoc in Hevs. apply app_inv_head in Hevs. subst evs.
      rewrite !elem_of_app. right. left. apply elem_of_cons. by left.
Qed.

(** A run that returns has saved the time it read before fetching. *)
Lemma syncPosts_done w w' :
  syncPosts host w = Done tt w' ->
  exists t before after tail,
    trace w' =
      trace w ++ before ++ [EvNow t] ++ after ++
      [EvWrite (SYNC_STATE_FILE host)
               (JSON_stringify host {| lastSyncTime := t |})] ++ tail /\
    Forall before_query before /\
    Forall no_state_write after /\
    Forall is_console tail /\
    lookup_file (SYNC_STATE_FILE host) (files w') =
      Some (JSON_stringify host {| lastSyncTime := t |}).
Proof.
  unfold syncPosts. intros H.
  apply bind_done in H as (st & w1 & H1 & H).
  apply bind_done in H as (t & w2 & H2 & H).
  rewrite now_run in H2. injection H2 as <- <-.
  apply bind_done in H as ([] & w3 & H3 & H).
  unfold console_put in H3. rewrite emit_run in H3. injection H3 as <-.
  apply bind_done in H as (posts & w4 & H4 & H).
  pose proof (load_quiet w) as [_ (e1 & Ht1 & Hp1)]. rewrite H1 in Ht1. simpl in Ht1.
  pose proof (fetch_quiet (lastSyncTime <$> st)
                (add_event (EvConsole LogFetching)
                   (add_event (EvNow (clock host (steps w1))) (ticked w1)))) as Hf.
  rewrite H4 in Hf. destruct Hf as [_ (e4 & Ht4 & Hp4)]. simpl in Ht4.
  exists (clock host (steps w1)), e1.
  destruct (length posts =? 0)%nat.
  - apply bind_done in H as ([] & w5 & H5 & H).
    unfold console_put in H5. rewrite emit_run in H5. injection H5 as <-.
    unfold saveSyncState in H. rewrite writeFileSync_run in H.
    destruct (fs_fault host _); [by destruct (fs_written host _)|].
    injection H as <-. unfold wrote.
    exists ([EvConsole LogFetching] ++ e4 ++ [EvConsole LogNoNewPosts]), [].
    simpl. rewrite Ht4, Ht1, lookup_store_eq, <- !app_assoc. simpl.
    repeat split; try done.
    apply Forall_cons. split; [intros [? ?]; discriminate|].
    apply Forall_app. split; [done|].
    apply Forall_cons. split; [intros [? ?]; discriminate | done].
  - apply bind_done in H as ([] & w5 & H5 & H).
    unfold console_put in H5. rewrite emit_run in H5. injection H5 as <-.
    apply bind_done in H as ([] & w6 & H6 & H).
    apply bind_done in H as ([] & w7 & H7 & H).
    unfold console_put in H. rewrite emit_run in H. injection H as <-.
    unfold saveSyncState in H7. rewrite writeFileSync_run in H7.
    destruct (fs_fault host _); [by destruct (fs_written host _)|].
    injection H7 as <-. unfold wrote.
    pose proof (years_quiet (group_by_year host posts)
                            (add_event (EvConsole (LogFound (length posts))) w4))
      as Hy.
    rewrite H6 in Hy. destruct Hy as [_ (e6 & Ht6 & Hp6)]. simpl in Ht6.
    exists ([EvConsole LogFetching] ++ e4 ++
            [EvConsole (LogFound (length posts))] ++ e6),
           [EvConsole (LogCompleted (clock host (steps w1)))].
    simpl. rewrite Ht6, Ht4, Ht1, lookup_store_eq, <- !app_assoc. simpl.
    repeat split; try done.
    + apply Forall_cons. split; [intros [? ?]; discriminate|].
      apply Forall_app. split; [done|].
      apply Forall_cons. split; [intros [? ?]; discriminate | done].
    + repeat constructor. by eexists.
Qed.

(** C2.  A run that throws at a step before the state is saved (a query,
    a conversion, the write of a post, any other step) leaves the state
    file as it found it and has not written to it.  The one other way to
    throw is that the write of the state itself fails once the state file
    has been opened: this comes after everything else, and the file then
    holds what had been written of the new state.  A run that returns has
    written the state once, as its last operation on the files, and the
    time it holds was read from the clock before the first query. *)
Theorem sync_state_atomic (w : World) :
  match syncPosts host w with
  | Threw e w' =>
      (lookup_file (SYNC_STATE_FILE host) (files w') =
         lookup_file (SYNC_STATE_FILE host) (files w) /\
       exists evs, trace w' = trace w ++ evs /\ Forall no_state_write evs)
      \/
      (exists t n k evs,
         fs_fault host k = Some e /\
         fs_written host k = Some n /\
         trace w' =
           trace w ++ evs ++
           [EvWrite (SYNC_STATE_FILE host)
                    (take n (JSON_stringify host {| lastSyncTime := t |}))] /\
         EvNow t ∈ evs /\
         Forall no_state_write evs /\
         lookup_file (SYNC_STATE_FILE host) (files w') =
           Some (take n (JSON_stringify host {| lastSyncTime := t |})))
  | Done _ w' =>
      exists t before after tail,
        trace w' =
          trace w ++ before ++ [EvNow t] ++ after ++
          [EvWrite (SYNC_STATE_FILE host)
                   (JSON_stringify host {| lastSyncTime := t |})] ++ tail /\
        Forall before_query before /\
        Forall no_state_write after /\
        Forall is_console tail /\
        lookup_file (SYNC_STATE_FILE host) (files w') =
          Some (JSON_stringify host {| lastSyncTime := t |})
  end.
Proof.
  pose proof (syncPosts_careful w) as Hc.
  destruct (syncPosts host w) as [[] w'|e w'] eqn:E.
  - by apply syncPosts_done.
  - destruct Hc as [Hc|(t & (n & w0 & [_ (evs & Ht & Hp)] & Hf & Hn & ->) & Hnow)].
    + left. exact Hc.
    + right. exists t, n, (steps w0), evs. split; [done|]. split; [done|].
      cbn [trace files wrote]. rewrite Ht, <- app_assoc. split; [done|].
      split; [|split; [done | apply lookup_store_eq]].
      specialize (Hnow (evs ++ [EvWrite (SYNC_STATE_FILE host)
                                  (take n (JSON_stringify host
                                             {| lastSyncTime := t |}))])).
      cbn [trace wrote] in Hnow. rewrite Ht, <- app_assoc in Hnow.
      specialize (Hnow eq_refl). apply elem_of_app in Hnow as [Hnow|Hnow]; [done|].
      apply elem_of_cons in Hnow as [Hnow|Hnow%elem_of_nil]; done.
Qed.

End Atomic.

(** *** The filter of the queries *)

Lemma bind_run {A B} (m : M A) (k : A -> M B) w a w' :
  m w = Done a w' -> bind m k w = k a w'.
Proof. unfold bind. by intros ->. Qed.

Lemma bind_assoc {A B C} (m : M A) (k : A -> M B) (h : B -> M C) w :
  bind (bind m k) h w = bind m (fun a => bind (k a) h) w.
Proof. unfold bind. by destruct (m w). Qed.

Definition any_files (fs fs' : list (list N * list N)) : Prop := True.

Section Filter.

Variable host : Host.

Definition filtered_by (flt : option (list N)) (e : Event) : Prop :=
  forall request, e = EvQuery request -> filter_last_edited_after request = flt.

(** The part of [syncPosts] that follows [loadSyncState]. *)
Lemma after_load_filtered syncState :
  keeps any_files (filtered_by (filter_of (lastSyncTime <$> syncState)))
    (currentSyncTime <- now host ;;
     console_put LogFetching ;;
     posts <- fetchBlogPosts host (lastSyncTime <$> syncState) ;;
     if (length posts =? 0)%nat then
       console_put LogNoNewPosts ;;
       saveSyncState host {| lastSyncTime := currentSyncTime |}
     else
       console_put (LogFound (length posts)) ;;
       sync_years host (path_join (cwd host) content_path)
                  (group_by_year host posts) ;;
       saveSyncState host {| lastSyncTime := currentSyncTime |} ;;
       console_put (LogCompleted currentSyncTime)).
Proof.
  assert (Hc : forall l, keeps any_files
                 (filtered_by (filter_of (lastSyncTime <$> syncState)))
                 (console_put l)).
  { intros l. apply keeps_console; [done..|]. intros ? [=]. }
  assert (Hs : forall state, keeps any_files
                 (filtered_by (filter_of (lastSyncTime <$> syncState)))
                 (saveSyncState host state)).
  { intros state. apply keeps_writeFileSync; [done..|]. intros ? ? [=]. }
  apply keeps_bind; [done|apply keeps_now; [done..|]; intros ? ? [=]|].
  intros t. apply keeps_bind; [done|apply Hc|]. intros _.
  apply keeps_bind; [done| |].
  { apply keeps_fetchBlogPosts; [done..| | |].
    - intros request H r [= <-]. exact H.
    - intros ? ? [=].
    - intros ? ? [=]. }
  intros posts. destruct (length posts =? 0)%nat.
  - apply keeps_bind; [done|apply Hc|]. intros _. apply Hs.
  - apply keeps_bind; [done|apply Hc|]. intros _.
    apply keeps_bind; [done| |].
    { apply keeps_sync_years; [done..| | | |]; intros; intros ? [=]. }
    intros _. apply keeps_bind; [done|apply Hs|]. intros _. apply Hc.
Qed.

Lemma load_filtered flt :
  keeps any_files (filtered_by flt) (loadSyncState host).
Proof. apply keeps_loadSyncState; [done..| |]; intros ? ? [=]. Qed.

Lemma syncPosts_filtered w syncState w1 :
  loadSyncState host w = Done syncState w1 ->
  step any_files (filtered_by (filter_of (lastSyncTime <$> syncState)))
       w (world_of (syncPosts host w)).
Proof.
  intros Hl. unfold syncPosts. rewrite (bind_run _ _ _ _ _ Hl).
  eapply step_trans; [done| |apply after_load_filtered].
  pose proof (load_filtered (filter_of (lastSyncTime <$> syncState)) w) as H.
  by rewrite Hl in H.
Qed.

Lemma query_run answer request w :
  query answer request w =
  match answer request with
  | Ok response => Done response (add_event (EvQuery request) (ticked w))
  | Err e => Threw e (add_event (EvQuery request) (ticked w))
  end.
Proof. unfold query, bind, tick, emit, lift. by destruct (answer request). Qed.

(** When the service has an answer, a query is sent. *)
Lemma first_query w syncState w1 answer later :
  loadSyncState host w = Done syncState w1 ->
  remote host = answer :: later ->
  exists request pre post,
    trace (world_of (syncPosts host w)) = trace w ++ pre ++ EvQuery request :: post.
Proof.
  intros Hl Hr.
  pose proof (load_filtered None w) as [_ (e1 & Ht1 & _)].
  rewrite Hl in Ht1. simpl in Ht1.
  unfold syncPosts. rewrite (bind_run _ _ _ _ _ Hl).
  rewrite (bind_run _ _ _ _ _ (now_run host w1)).
  unfold console_put at 1. rewrite (bind_run _ _ _ _ _ (emit_run _ _)).
  unfold fetchBlogPosts. rewrite bind_assoc.
  unfold console_put at 1. rewrite (bind_run _ _ _ _ _ (emit_run _ _)).
  rewrite Hr. cbn [fetch_pages]. rewrite !bind_assoc.
  set (request := {| data_source_id := _ |}).
  set (w5 := add_event _ (add_event _ (add_event _ (ticked w1)))).
  set (flt := filter_of (lastSyncTime <$> syncState)).
  assert (Ht5 : trace (add_event (EvQuery request) (ticked w5)) =
                trace w ++ (e1 ++ [EvNow (clock host (steps w1));
                                   EvConsole LogFetching;
                                   EvConsole (match flt with
                                              | Some t => LogIncremental t
                                              | None => LogFullSync
                                              end)]) ++ [EvQuery request]).
  { simpl. rewrite Ht1, <- !app_assoc. reflexivity. }
  unfold bind at 1. rewrite query_run.
  destruct (answer request) as [response|e].
  - lazymatch goal with
    | |- ex (fun _ => ex (fun _ => ex (fun _ => trace (world_of (?k ?w)) = _))) =>
        assert (Hk : step any_files (filtered_by flt) w (world_of (k w)))
    end.
    { apply keeps_bind; [done| |].
      - apply keeps_bind; [done| |].
        + apply keeps_read_pages; [done..| |]; intros ? ? [=].
        + intros posts. destruct (has_more response); [|by apply keeps_ret].
          apply keeps_fetch_pages; [done..| | |].
          * intros r H ? [= <-]. exact H.
          * intros ? ? [=].
          * intros ? ? [=].
      - intros posts'.
        assert (Hc : forall l, keeps any_files (filtered_by flt) (console_put l)).
        { intros l. apply keeps_console; [done..|]. intros ? [=]. }
        assert (Hs : forall state, keeps any_files (filtered_by flt)
                                     (saveSyncState host state)).
        { intros state. apply keeps_writeFileSync; [done..|]. intros ? ? [=]. }
        destruct (length posts' =? 0)%nat.
        + apply keeps_bind; [done|apply Hc|]. intros _. apply Hs.
        + apply keeps_bind; [done|apply Hc|]. intros _.
          apply keeps_bind; [done| |].
          { apply keeps_sync_years; [done..| | | |]; intros; intros ? [=]. }
          intros _. apply keeps_bind; [done|apply Hs|]. intros _. apply Hc. }
    destruct Hk as [_ (evs & Hk & _)]. rewrite Hk, Ht5.
    exists request.
    exists (e1 ++ [EvNow (clock host (steps w1)); EvConsole LogFetching;
                   EvConsole (match flt with
                              | Some t => LogIncremental t
                              | None => LogFullSync
                              end)]).
    exists evs. by rewrite <- !app_assoc.
  - cbn [world_of]. rewrite Ht5.
    exists request.
    exists (e1 ++ [EvNow (clock host (steps w1)); EvConsole LogFetching;
                   EvConsole (match flt with
                              | Some t => LogIncremental t
                              | None => LogFullSync
                              end)]).
    exists []. by rewrite <- !app_assoc.
Qed.

(** What [loadSyncState] finds. *)
Lemma loadSyncState_missing w st w1 :
  loadSyncState host w = Done st w1 ->
  lookup_file (SYNC_STATE_FILE host) (files w) = None -> st = None.
Proof.
  unfold loadSyncState, try_catch, bind, existsSync, readFileSync, fs_step,
    bind, tick, console_put, emit, ret, throw.
  intros H Hn. destruct (_ || _) in H.
  - destruct (fs_fault host (steps w)) in H; simpl in H; [by injection H as <-|].
    rewrite Hn in H. by injection H as <-.
  - by injection H as <-.
Qed.

Lemma loadSyncState_unreadable w st w1 e :
  loadSyncState host w = Done st w1 ->
  fs_fault host (steps w) = Some e -> st = None.
Proof.
  unfold loadSyncState, try_catch, bind, existsSync, readFileSync, fs_step,
    bind, tick, console_put, emit, ret, throw.
  intros H Hf. destruct (_ || _) in H.
  - rewrite Hf in H. by injection H as <-.
  - by injection H as <-.
Qed.

Lemma loadSyncState_unparsable w st w1 data e :
  loadSyncState host w = Done st w1 ->
  lookup_file (SYNC_STATE_FILE host) (files w) = Some data ->
  JSON_parse host data = Err e -> st = None.
Proof.
  unfold loadSyncState, try_catch, bind, existsSync, readFileSync, fs_step,
    bind, tick, console_put, emit, ret, throw, lift.
  intros H Hd He. destruct (_ || _) in H.
  - destruct (fs_fault host (steps w)) in H; simpl in H; [by injection H as <-|].
    rewrite Hd in H. simpl in H. rewrite He in H. by injection H as <-.
  - by injection H as <-.
Qed.

(** C3, as amended.  Every query of a run carries the filter that follows
    from what [loadSyncState] returned: the stored time when a state with a
    time that is not empty was loaded, no filter otherwise, that is when
    there is no state file, when it cannot be read or parsed, and when the
    stored time is the empty string.  A query is sent whenever the service
    answers. *)
Theorem query_filter_from_state (w : World) (syncState : option SyncState)
        (w1 : World) :
  loadSyncState host w = Done syncState w1 ->
  let flt := match syncState with
             | Some state =>
                 if truthy_str (lastSyncTime state)
                 then Some (lastSyncTime state) else None
             | None => None
             end in
  (exists evs,
     trace (world_of (syncPosts host w)) = trace w ++ evs /\
     Forall (filtered_by flt) evs /\
     (remote host <> [] -> exists request, EvQuery request ∈ evs)) /\
  (lookup_file (SYNC_STATE_FILE host) (files w) = None -> flt = None) /\
  (forall e, fs_fault host (steps w) = Some e -> flt = None) /\
  (forall data e,
     lookup_file (SYNC_STATE_FILE host) (files w) = Some data ->
     JSON_parse host data = Err e -> flt = None).
Proof.
  intros Hl flt.
  assert (Hflt : flt = filter_of (lastSyncTime <$> syncState)) by by destruct syncState.
  split; [|repeat split].
  - destruct (syncPosts_filtered w syncState w1 Hl) as [_ (evs & Ht & Hp)].
    exists evs. rewrite Hflt. repeat split; try done.
    intros Hr. destruct (remote host) as [|answer later] eqn:Er; [done|].
    destruct (first_query w syncState w1 answer later Hl Er)
      as (request & pre & post & Hq).
    rewrite Ht in Hq. apply app_inv_head in Hq. subst evs.
    exists request. rewrite elem_of_app, elem_of_cons. auto.
  - intros Hn. subst flt. by rewrite (loadSyncState_missing _ _ _ Hl Hn).
  - intros e He. subst flt. by rewrite (loadSyncState_unreadable _ _ _ _ Hl He).
  - intros data e Hd He. subst flt.
    by rewrite (loadSyncState_unparsable _ _ _ _ _ Hl Hd He).
Qed.

End Filter.

(** *** The files of a year *)

(** The files an event writes. *)
Definition writes_of (evs : list Event) : list (list N * list N) :=
  omap (fun e => match e with EvWrite path data => Some (path, data) | _ => None end)
       evs.

Lemma writes_of_app evs1 evs2 :
  writes_of (evs1 ++ evs2) = writes_of evs1 ++ writes_of evs2.
Proof. apply omap_app. Qed.

Lemma startsWith_longer d : startsWith d (d ++ [SLASH]) = false.
Proof.
  induction d as [|x d IH]; [done|]. cbn [app startsWith].
  by rewrite IH, andb_false_r.
Qed.

Lemma entry_name_self dir : entry_name dir dir = None.
Proof. unfold entry_name. by rewrite startsWith_longer. Qed.

(** Creating a directory does not change what it holds. *)
Lemma dir_entries_mkdir dir w :
  dir_entries dir {| files := files w; dirs := dirs w ++ [dir];
                     steps := S (steps w); trace := trace w |} =
  dir_entries dir w.
Proof.
  unfold dir_entries. cbn [files dirs]. rewrite omap_app.
  change (omap (entry_name dir) [dir])
    with (match entry_name dir dir with Some n => [n] | None => [] end).
  by rewrite entry_name_self, app_nil_r.
Qed.

(** A post that matches no existing file. *)
Definition is_new (existingFiles : list (list N)) (post : BlogPost) : bool :=
  match existing_slug_file existingFiles post with
  | Some _ => false
  | None => true
  end.

(** The number of new posts among the first [i]. *)
Definition new_before (existingFiles : list (list N)) (posts : list BlogPost)
           (i : nat) : N :=
  N.of_nat (length (List.filter (is_new existingFiles) (take i posts))).

Lemma new_before_0 existingFiles posts : new_before existingFiles posts 0 = 0.
Proof. done. Qed.

Lemma new_before_S existingFiles post posts i :
  new_before existingFiles (post :: posts) (S i) =
  (if is_new existingFiles post then 1 else 0) + new_before existingFiles posts i.
Proof.
  unfold new_before. cbn [take List.filter].
  destruct (is_new existingFiles post); cbn [length]; lia.
Qed.

Lemma new_before_lt existingFiles posts i j p :
  (i < j)%nat -> posts !! i = Some p -> is_new existingFiles p = true ->
  new_before existingFiles posts i < new_before existingFiles posts j.
Proof.
  revert i j. induction posts as [|q posts IH]; intros i j Hij Hp Hn; [done|].
  destruct j as [|j]; [lia|]. rewrite new_before_S. destruct i as [|i].
  - simplify_eq/=. rewrite Hn, new_before_0. lia.
  - rewrite new_before_S. simpl in Hp.
    assert (new_before existingFiles posts i < new_before existingFiles posts j)
      by (apply IH; [lia | done..]).
    lia.
Qed.

Section Year.

Variable host : Host.
Hypothesis no_fault : forall k, fs_fault host k = None.

Lemma highest_index_from existingFiles acc :
  acc <= fold_left (fun maxIndex file =>
                      match numeric_prefix file with
                      | Some index => if maxIndex <? index then index else maxIndex
                      | None => maxIndex
                      end) existingFiles acc /\
  forall f m, f ∈ existingFiles -> numeric_prefix f = Some m ->
    m <= fold_left (fun maxIndex file =>
                      match numeric_prefix file with
                      | Some index => if maxIndex <? index then index else maxIndex
                      | None => maxIndex
                      end) existingFiles acc.
Proof.
  revert acc. induction existingFiles as [|file more IH]; intros acc.
  - split; [simpl; lia|]. intros f m Hf. by apply elem_of_nil in Hf.
  - cbn [fold_left].
    set (acc' := match numeric_prefix file with
                 | Some index => if acc <? index then index else acc
                 | None => acc
                 end).
    destruct (IH acc') as [H1 H2].
    assert (Hacc : acc <= acc').
    { unfold acc'. destruct (numeric_prefix file) as [index|]; [|lia].
      destruct (N.ltb_spec acc index); lia. }
    split; [lia|]. intros f m Hf Hm. apply elem_of_cons in Hf as [->|Hf].
    + assert (m <= acc'); [|lia]. unfold acc'. rewrite Hm.
      destruct (N.ltb_spec acc m); lia.
    + by apply (H2 f).
Qed.

Lemma highest_index_bound existingFiles f m :
  f ∈ existingFiles -> numeric_prefix f = Some m -> m <= highest_index existingFiles.
Proof. apply highest_index_from. Qed.

Lemma highest_index_none existingFiles :
  Forall (fun f => numeric_prefix f = None) existingFiles ->
  highest_index existingFiles = 0.
Proof.
  intros H. unfold highest_index. generalize 0.
  induction H as [|f more Hf _ IH]; intros acc.
  - done.
  - cbn [fold_left]. rewrite Hf. apply IH.
Qed.

(** The name the loop gives to the post at position [i], when [before]
    new posts came earlier in the year. *)
Definition name_for (existingFiles : list (list N)) (maxIndex before : N)
           (post : BlogPost) : list N :=
  match existing_slug_file existingFiles post with
  | Some existingSlugFile => existingSlugFile
  | None => new_filename (maxIndex + before + 1) post
  end.

Lemma writeFileSync_ok path data w :
  writeFileSync host path data w =
  Done tt {| files := store_file path data (files w); dirs := dirs w;
             steps := S (steps w); trace := trace w ++ [EvWrite path data] |}.
Proof. rewrite writeFileSync_run. by rewrite no_fault. Qed.

Lemma write_posts_names yearDir existingFiles maxIndex yearPosts newPostIndex w :
  exists w' evs,
    write_posts host yearDir existingFiles maxIndex yearPosts newPostIndex w =
      Done tt w' /\
    trace w' = trace w ++ evs /\
    writes_of evs =
      imap (fun i post =>
              (path_join yearDir
                 (name_for existingFiles maxIndex
                    (newPostIndex + new_before existingFiles yearPosts i) post),
               file_content post))
           yearPosts.
Proof.
  revert newPostIndex w.
  induction yearPosts as [|post more IH]; intros newPostIndex w.
  - exists w, []. by rewrite app_nil_r.
  - cbn [write_posts]. rewrite imap_cons. unfold name_for at 1.
    rewrite new_before_0, N.add_0_r. unfold is_new in IH.
    destruct (existing_slug_file existingFiles post) as [file|] eqn:Ef.
    + unfold console_put at 1. rewrite (bind_run _ _ _ _ _ (emit_run _ _)).
      rewrite (bind_run _ _ _ _ _ (writeFileSync_ok _ _ _)).
      unfold console_put at 1. rewrite (bind_run _ _ _ _ _ (emit_run _ _)).
      match goal with
      | |- context [write_posts _ _ _ _ _ _ ?w0] =>
          destruct (IH newPostIndex w0) as (w' & evs & Hrun & Ht & Hw)
      end.
      exists w', ([EvConsole (LogUpdating file);
                   EvWrite (path_join yearDir file) (file_content post);
                   EvConsole (LogWritten (path_join yearDir file))] ++ evs).
      split; [exact Hrun|]. split.
      * rewrite Ht. cbn [trace add_event]. by rewrite <- !app_assoc.
      * rewrite writes_of_app, Hw. cbn. f_equal.
        apply imap_ext. intros i p _. cbn. rewrite new_before_S.
        unfold is_new. rewrite Ef. by rewrite N.add_0_l.
    + rewrite (bind_run _ _ _ _ _ (writeFileSync_ok _ _ _)).
      unfold console_put at 1. rewrite (bind_run _ _ _ _ _ (emit_run _ _)).
      match goal with
      | |- context [write_posts _ _ _ _ _ _ ?w0] =>
          destruct (IH (newPostIndex + 1) w0) as (w' & evs & Hrun & Ht & Hw)
      end.
      set (filePath := path_join yearDir (new_filename (maxIndex + newPostIndex + 1) post)).
      exists w', ([EvWrite filePath (file_content post);
                   EvConsole (LogWritten filePath)] ++ evs).
      split; [exact Hrun|]. split.
      * rewrite Ht. cbn [trace add_event]. by rewrite <- !app_assoc.
      * rewrite writes_of_app, Hw. cbn. f_equal.
        apply imap_ext. intros i p _. cbn. rewrite new_before_S.
        unfold is_new. rewrite Ef. do 3 f_equal. lia.
Qed.

Lemma mkdirSync_ok path w :
  mkdirSync host path w =
  Done tt {| files := files w; dirs := dirs w ++ [path];
             steps := S (steps w); trace := trace w ++ [EvMkdir path] |}.
Proof. unfold mkdirSync, fs_step, bind, tick. by rewrite no_fault. Qed.

Lemma readdirSync_ok path w :
  path ∈ dirs w ->
  readdirSync host path w =
  Done (dir_entries path w) (add_event (EvReaddir path) (ticked w)).
Proof.
  intros H. unfold readdirSync, fs_step, bind, tick. rewrite no_fault.
  cbn [ret dirs]. by rewrite bool_decide_eq_true_2.
Qed.

(** The files of the year that [sync_year] finds. *)
Definition existing_md (yearDir : list N) (w : World) : list (list N) :=
  List.filter (fun f => endsWith f md_suffix) (dir_entries yearDir w).

Lemma sync_year_names contentDir year yearPosts w :
  path_join contentDir year ∉ (files w).*1 ->
  let yearDir := path_join contentDir year in
  let existingFiles := existing_md yearDir w in
  exists w' evs,
    sync_year host contentDir year yearPosts w = Done tt w' /\
    trace w' = trace w ++ evs /\
    writes_of evs =
      imap (fun i post =>
              (path_join yearDir
                 (name_for existingFiles (highest_index existingFiles)
                    (new_before existingFiles (sort_by_date host yearPosts) i)
                    post),
               file_content post))
           (sort_by_date host yearPosts).
Proof.
  intros Hfile yearDir existingFiles. unfold sync_year. fold yearDir.
  assert (Hex : forall v, yearDir ∈ dirs v -> existsSync yearDir v = Done true v).
  { intros v Hv. unfold existsSync. by rewrite bool_decide_eq_true_2. }
  destruct (decide (yearDir ∈ dirs w)) as [Hin|Hout].
  - rewrite (bind_run _ _ _ _ _ (Hex w Hin)).
    rewrite (bind_run _ _ _ _ _ (eq_refl : ret tt w = Done tt w)).
    rewrite (bind_run _ _ _ _ _ (Hex w Hin)).
    rewrite bind_assoc. rewrite (bind_run _ _ _ _ _ (readdirSync_ok _ _ Hin)).
    rewrite (bind_run _ _ _ _ _ eq_refl).
    destruct (write_posts_names yearDir existingFiles (highest_index existingFiles)
                (sort_by_date host yearPosts) 0
                (add_event (EvReaddir yearDir) (ticked w)))
      as (w' & evs & Hrun & Ht & Hw).
    exists w', ([EvReaddir yearDir] ++ evs). split; [exact Hrun|]. split.
    + rewrite Ht. cbn [trace add_event ticked]. by rewrite <- app_assoc.
    + rewrite writes_of_app, Hw. cbn [writes_of omap app].
      apply imap_ext. intros i p _. cbn. by rewrite N.add_0_l.
  - assert (Hno : existsSync yearDir w = Done false w).
    { unfold existsSync.
      by rewrite bool_decide_eq_false_2, bool_decide_eq_false_2. }
    rewrite (bind_run _ _ _ _ _ Hno).
    rewrite (bind_run _ _ _ _ _ (mkdirSync_ok yearDir w)).
    set (v := {| files := files w; dirs := dirs w ++ [yearDir];
                 steps := S (steps w); trace := trace w ++ [EvMkdir yearDir] |}).
    assert (Hv : yearDir ∈ dirs v).
    { cbn [dirs v]. apply elem_of_app. right. apply elem_of_cons. by left. }
    rewrite (bind_run _ _ _ _ _ (Hex v Hv)).
    rewrite bind_assoc. rewrite (bind_run _ _ _ _ _ (readdirSync_ok _ _ Hv)).
    rewrite (bind_run _ _ _ _ _ eq_refl).
    assert (Hsame : List.filter (fun f => endsWith f md_suffix) (dir_entries yearDir v) =
                    existingFiles).
    { unfold existingFiles, existing_md. f_equal. unfold dir_entries. cbn [files dirs v].
      rewrite omap_app.
      change (omap (entry_name yearDir) [yearDir])
        with (match entry_name yearDir yearDir with Some n => [n] | None => [] end).
      by rewrite entry_name_self, app_nil_r. }
    rewrite Hsame.
    destruct (write_posts_names yearDir existingFiles (highest_index existingFiles)
                (sort_by_date host yearPosts) 0
                (add_event (EvReaddir yearDir) (ticked v)))
      as (w' & evs & Hrun & Ht & Hw).
    exists w', ([EvMkdir yearDir; EvReaddir yearDir] ++ evs).
    split; [exact Hrun|]. split.
    + rewrite Ht. cbn [trace add_event ticked v]. by rewrite <- !app_assoc.
    + rewrite writes_of_app, Hw. cbn [writes_of omap app].
      apply imap_ext. intros i p _. cbn. by rewrite N.add_0_l.
Qed.

End Year.

(** *** Computations that do not read the trace *)

Definition with_trace (t : list Event) (w : World) : World :=
  {| files := files w; dirs := dirs w; steps := steps w; trace := t |}.

Definition outcome_of {A} (r : A + Exn) (w : World) : Outcome World A :=
  match r with inl a => Done a w | inr e => Threw e w end.

(** Whatever the trace at the start, [m] gives the same result, appends the
    same events and leaves the same files, directories and step count. *)
Definition uniform {A} (m : M A) : Prop :=
  forall w, exists r evs w0,
    forall t, m (with_trace t w) = outcome_of r (with_trace (t ++ evs) w0).

Lemma with_trace_id w : with_trace (trace w) w = w.
Proof. by destruct w. Qed.

Lemma with_trace_twice t t' w : with_trace t (with_trace t' w) = with_trace t w.
Proof. done. Qed.

Lemma uniform_ret {A} (a : A) : uniform (ret a).
Proof.
  intros w. exists (inl a), [], w. intros t. by rewrite app_nil_r.
Qed.

Lemma uniform_throw {A} e : uniform (@throw World A e).
Proof.
  intros w. exists (inr e), [], w. intros t. by rewrite app_nil_r.
Qed.

Lemma uniform_lift {A} (r : Result A) : uniform (lift r).
Proof. destruct r; [apply uniform_ret | apply uniform_throw]. Qed.

Lemma uniform_bind {A B} (m : M A) (k : A -> M B) :
  uniform m -> (forall a, uniform (k a)) -> uniform (bind m k).
Proof.
  intros Hm Hk w. destruct (Hm w) as (r & evs & w0 & H).
  destruct r as [a|e].
  - destruct (Hk a w0) as (r' & evs' & w0' & H').
    exists r', (evs ++ evs'), w0'. intros t. unfold bind. rewrite H. cbn [outcome_of].
    rewrite H'. by rewrite app_assoc.
  - exists (inr e), evs, w0. intros t. unfold bind. by rewrite H.
Qed.

Lemma uniform_emit e : uniform (emit e).
Proof. intros w. exists (inl tt), [e], w. done. Qed.

Lemma uniform_tick : uniform tick.
Proof.
  intros w. exists (inl (steps w)), [], (ticked w). intros t.
  by rewrite app_nil_r.
Qed.

Lemma uniform_pageToMarkdown host pageId : uniform (pageToMarkdown host pageId).
Proof.
  apply uniform_bind; [apply uniform_tick|]. intros k.
  apply uniform_bind; [apply uniform_emit | intros _; apply uniform_lift].
Qed.

Lemma uniform_read_pages host pages posts : uniform (read_pages host pages posts).
Proof.
  revert posts. induction pages as [|page more IH]; intros posts.
  - apply uniform_ret.
  - cbn [read_pages]. destruct (properties page) as [props|]; [|apply IH].
    destruct (_ || _).
    + apply uniform_bind; [apply uniform_emit | intros _; apply IH].
    + apply uniform_bind; [apply uniform_pageToMarkdown | intros ?; apply IH].
Qed.

(** A value that shows no title or date: [null] or the empty string. *)
Definition absent (v : JSValue) : Prop := v = JNull \/ v = JStr [].

Lemma absent_falsy v : absent v -> truthy_str (as_string v) = false.
Proof. by intros [-> | ->]. Qed.

(** A page without title, or without date, is passed over: the pages that
    follow are read as if it had not been there, and the one trace it leaves
    is a warning. *)
Lemma read_pages_skips host page props after posts w :
  properties page = Some props ->
  absent (getPropertyValue props prop_Name) \/
  (absent (getPropertyValue props prop_Published) /\
   absent (getPropertyValue props prop_Created_time)) ->
  exists r evs w0,
    read_pages host after posts w =
      outcome_of r (with_trace (trace w ++ evs) w0) /\
    read_pages host (page :: after) posts w =
      outcome_of r (with_trace
                      (trace w ++ [EvConsole (WarnSkippingPage (page_id page))] ++ evs)
                      w0).
Proof.
  intros Hp Hlack.
  destruct (uniform_read_pages host after posts w) as (r & evs & w0 & H).
  exists r, evs, w0. split.
  - rewrite <- (with_trace_id w) at 1. apply H.
  - cbn [read_pages]. rewrite Hp.
    assert ((negb (truthy_str (as_string (getPropertyValue props prop_Name))) ||
             negb (truthy_str
                     (if truthy_str (as_string (getPropertyValue props prop_Published))
                      then as_string (getPropertyValue props prop_Published)
                      else as_string (getPropertyValue props prop_Created_time))))
            = true) as ->.
    { destruct Hlack as [Ht|[Hd Hc]].
      - by rewrite (absent_falsy _ Ht).
      - rewrite (absent_falsy _ Hd), (absent_falsy _ Hc). apply orb_true_r. }
    unfold console_put. rewrite (bind_run _ _ _ _ _ (emit_run _ _)).
    change (add_event ?e w) with (with_trace (trace w ++ [e]) w).
    rewrite H. by rewrite <- app_assoc.
Qed.

(** *** A run that finds no post *)

Section NoPosts.

Variable host : Host.

Definition not_query (e : Event) : Prop := ~ is_query e.

Lemma load_reads_only :
  keeps eq not_query (loadSyncState host).
Proof.
  apply keeps_loadSyncState; [done | congruence | |];
    intros ? [? ?]; discriminate.
Qed.

Lemma fetch_reads_only lastSyncTime :
  keeps eq (fun _ => True) (fetchBlogPosts host lastSyncTime).
Proof. apply keeps_fetchBlogPosts; [done | congruence | done..]. Qed.

(** C9.  When the fetch returns no post, the run writes the state file and
    nothing else: every other file is as before.  The state holds the time
    read before the fetch, and no query precedes that reading. *)
Theorem no_posts_state_saved (w w1 w3 : World) (syncState : option SyncState) :
  loadSyncState host w = Done syncState w1 ->
  fetchBlogPosts host (lastSyncTime <$> syncState)
    (add_event (EvConsole LogFetching)
       (add_event (EvNow (clock host (steps w1))) (ticked w1))) = Done [] w3 ->
  fs_fault host (steps w3) = None ->
  let data := JSON_stringify host {| lastSyncTime := clock host (steps w1) |} in
  exists w',
    syncPosts host w = Done tt w' /\
    files w' = store_file (SYNC_STATE_FILE host) data (files w) /\
    lookup_file (SYNC_STATE_FILE host) (files w') = Some data /\
    (forall path, path <> SYNC_STATE_FILE host ->
                  lookup_file path (files w') = lookup_file path (files w)) /\
    exists before during,
      trace w' =
        trace w ++ before ++
        [EvNow (clock host (steps w1)); EvConsole LogFetching] ++ during ++
        [EvConsole LogNoNewPosts; EvWrite (SYNC_STATE_FILE host) data] /\
      Forall not_query before.
Proof.
  intros Hl Hf Hw data.
  pose proof (load_reads_only w) as [Hf1 (e1 & Ht1 & Hp1)].
  rewrite Hl in Hf1, Ht1. simpl in Hf1, Ht1.
  pose proof (fetch_reads_only (lastSyncTime <$> syncState)
                (add_event (EvConsole LogFetching)
                   (add_event (EvNow (clock host (steps w1))) (ticked w1))))
    as [Hf3 (e3 & Ht3 & _)].
  rewrite Hf in Hf3, Ht3. simpl in Hf3, Ht3.
  eexists. split; [|split; [|split; [|split]]].
  - unfold syncPosts. rewrite (bind_run _ _ _ _ _ Hl).
    rewrite (bind_run _ _ _ _ _ (now_run host w1)).
    unfold console_put at 1. rewrite (bind_run _ _ _ _ _ (emit_run _ _)).
    rewrite (bind_run _ _ _ _ _ Hf). cbn [length Nat.eqb].
    unfold console_put at 1. rewrite (bind_run _ _ _ _ _ (emit_run _ _)).
    unfold saveSyncState. rewrite writeFileSync_run. cbn [steps add_event].
    rewrite Hw. reflexivity.
  - cbn [files add_event wrote]. by rewrite <- Hf3, <- Hf1.
  - cbn [files add_event wrote]. apply lookup_store_eq.
  - intros path Hp. cbn [files add_event wrote].
    rewrite lookup_store_ne by done. by rewrite <- Hf3, <- Hf1.
  - exists e1, e3. split; [|done]. cbn [trace add_event wrote].
    rewrite Ht3, Ht1, <- !app_assoc. reflexivity.
Qed.

End NoPosts.

Lemma no_posts_state_saved_witness :
  exists w',
    syncPosts quiet_host empty_world = Done tt w' /\
    files w' = [(state_path, demo_stringify {| lastSyncTime := clock quiet_host 0 |})].
Proof.
  destruct (no_posts_state_saved quiet_host empty_world empty_world
              (world_of (fetchBlogPosts quiet_host None
                 (add_event (EvConsole LogFetching)
                    (add_event (EvNow (clock quiet_host 0)) (ticked empty_world)))))
              None)
    as (w' & Hrun & Hfiles & _).
  - vm_compute. reflexivity.
  - vm_compute. reflexivity.
  - reflexivity.
  - exists w'. split; [exact Hrun | exact Hfiles].
Defined.

Lemma query_filter_from_state_witness :
  exists evs,
    trace (world_of (syncPosts quiet_host (world_with_state time_2024))) =
      trace (world_with_state time_2024) ++ evs /\
    Forall (filtered_by (Some time_2024)) evs /\
    (remote quiet_host <> [] -> exists request, EvQuery request ∈ evs).
Proof.
  refine (proj1 (query_filter_from_state quiet_host (world_with_state time_2024)
                   (Some {| lastSyncTime := time_2024 |})
                   (add_event (EvRead state_path)
                              (ticked (world_with_state time_2024))) _)).
  vm_compute. reflexivity.
Defined.

(** The claim as it is stated: whenever a state was loaded, the queries
    carry its time as filter. *)
Definition filter_whenever_loaded : Prop :=
  forall host w state w1,
    loadSyncState host w = Done (Some state) w1 ->
    forall request evs,
      trace (world_of (syncPosts host w)) = trace w ++ evs ->
      EvQuery request ∈ evs ->
      filter_last_edited_after request = Some (lastSyncTime state).

(** A state file that holds the empty string as time is loaded, and the
    query is sent without filter. *)
Lemma empty_time_gives_no_filter : ~ filter_whenever_loaded.
Proof.
  intros claim.
  specialize (claim quiet_host (world_with_state [])
                {| lastSyncTime := [] |}
                (add_event (EvRead state_path) (ticked (world_with_state [])))).
  assert (H : filter_last_edited_after (first_request None) = Some []);
    [|discriminate H].
  apply (claim ltac:(vm_compute; reflexivity) (first_request None)
               (trace (world_of (syncPosts quiet_host (world_with_state []))))).
  - reflexivity.
  - apply list_elem_of_In. vm_compute.
    repeat (first [left; reflexivity | right]).
Qed.

End PullFacts.

(** ** Items without title or date, in both scripts *)

Module SkipFacts.
Import JS Effects Scenarios.

(** What a run of the pull script printed, the warnings about skipped
    pages left out. *)
Definition other_lines (evs : list Pull.Event) : list Pull.ConsoleLine :=
  flat_map (fun ev => match ev with
                      | Pull.EvConsole (Pull.WarnSkippingPage _) => []
                      | Pull.EvConsole line => [line]
                      | _ => []
                      end) evs.

(** The number of pages a run of the pull script warned about. *)
Definition skipped_pages (evs : list Pull.Event) : nat :=
  length (flat_map (fun ev => match ev with
                              | Pull.EvConsole (Pull.WarnSkippingPage pageId) =>
                                  [pageId]
                              | _ => []
                              end) evs).

(** The pull script reports its skips: what a run prints besides the
    warnings tells how many pages it passed over. *)
Definition pull_reports_skips : Prop :=
  forall (host1 host2 : Pull.Host) (w : Pull.World),
    let trace1 := Pull.trace (world_of (Pull.main host1 w)) in
    let trace2 := Pull.trace (world_of (Pull.main host2 w)) in
    other_lines trace1 = other_lines trace2 ->
    skipped_pages trace1 = skipped_pages trace2.

(** C8, as the code has it.  Push: a Markdown file whose frontmatter shows
    no title, or no date, does not stop the run; next to the run without
    the file, the same requests are sent and the same time is waited, the
    console holds one more "Processing" line and one warning, and the
    error count printed last is one higher.  Pull: a page that shows no
    title, or neither date, does not stop the loop over the pages of an
    answer; the pages after it give the same posts, or the same failure,
    as without it, and all it leaves is one warning on the console.  The
    pull script keeps no error count. *)
Theorem missing_title_or_date_skipped
        (ds : list N) (respond : nat -> Push.Request -> Push.FetchResult)
        (contentDir : list N) (before : list Push.Dirent) (name content : list N)
        (frontmatter : gmap (list N) Push.Value) (body : list N)
        (after : list Push.Dirent) (pw : Push.World)
        (host : Pull.Host) (page : Pull.Page)
        (props : gmap (list N) Pull.Property) (pages : list Pull.Page)
        (posts : list Pull.BlogPost) (w : Pull.World) :
  endsWith name Push.md_suffix = true ->
  Push.parseFrontmatter content = Ok (frontmatter, body) ->
  Push.truthy (frontmatter !! Push.key_title) = false \/
  Push.truthy (frontmatter !! Push.key_date) = false ->
  Pull.properties page = Some props ->
  PullFacts.absent (Pull.getPropertyValue props Pull.prop_Name) \/
  (PullFacts.absent (Pull.getPropertyValue props Pull.prop_Published) /\
   PullFacts.absent (Pull.getPropertyValue props Pull.prop_Created_time)) ->
  (exists successCount errorCount lines1 lines2 w1 w2,
     Push.migrateToNotion ds respond contentDir
       (before ++ Push.FileEnt name (Ok content) :: after) pw =
       Done (successCount, S errorCount) w1 /\
     Push.migrateToNotion ds respond contentDir (before ++ after) pw =
       Done (successCount, errorCount) w2 /\
     Push.requests w1 = Push.requests w2 /\
     Push.waited w1 = Push.waited w2 /\
     Push.console w1 =
       Push.console pw ++
       [Push.LogScanning;
        Push.LogFound
          (S (length (Push.getAllMarkdownFiles contentDir (before ++ after))))] ++
       lines1 ++ [Push.LogProcessing name; Push.WarnSkipping] ++ lines2 ++
       [Push.LogCompleted; Push.LogSuccess successCount;
        Push.LogErrors (S errorCount)] /\
     Push.console w2 =
       Push.console pw ++
       [Push.LogScanning;
        Push.LogFound
          (length (Push.getAllMarkdownFiles contentDir (before ++ after)))] ++
       lines1 ++ lines2 ++
       [Push.LogCompleted; Push.LogSuccess successCount;
        Push.LogErrors errorCount]) /\
  (exists r evs w0,
     Pull.read_pages host pages posts w =
       PullFacts.outcome_of r (PullFacts.with_trace (Pull.trace w ++ evs) w0) /\
     Pull.read_pages host (page :: pages) posts w =
       PullFacts.outcome_of r
         (PullFacts.with_trace
            (Pull.trace w ++
             [Pull.EvConsole (Pull.WarnSkippingPage (Pull.page_id page))] ++ evs)
            w0)).
Proof.
  intros Hmd Hparse Hlack Hprops Habsent. split.
  - exact (MigrateFacts.migrateToNotion_skip ds respond contentDir before name
             content frontmatter body after pw Hmd Hparse Hlack).
  - exact (PullFacts.read_pages_skips host page props pages posts w
             Hprops Habsent).
Qed.

Lemma missing_title_or_date_skipped_witness :
  (exists successCount errorCount w1 w2,
     Push.migrateToNotion str_ds accept_all blog_content_dir
       [Push.FileEnt name_a_md (Ok titled_file);
        Push.FileEnt name_b_md (Ok untitled_file)] Push.initial_world =
       Done (successCount, S errorCount) w1 /\
     Push.migrateToNotion str_ds accept_all blog_content_dir
       [Push.FileEnt name_a_md (Ok titled_file)] Push.initial_world =
       Done (successCount, errorCount) w2 /\
     Push.requests w1 = Push.requests w2) /\
  (exists r evs w0,
     Pull.read_pages host_with_untitled [page_titled] [] empty_world =
       PullFacts.outcome_of r (PullFacts.with_trace evs w0) /\
     Pull.read_pages host_with_untitled [page_untitled; page_titled] []
                     empty_world =
       PullFacts.outcome_of r
         (PullFacts.with_trace
            (Pull.EvConsole (Pull.WarnSkippingPage str_pb) :: evs) w0)).
Proof.
  destruct (missing_title_or_date_skipped
              str_ds accept_all blog_content_dir
              [Push.FileEnt name_a_md (Ok titled_file)] name_b_md untitled_file
              (match Push.parseFrontmatter untitled_file with
               | Ok (fm, _) => fm
               | Err _ => ∅
               end)
              str_body [] Push.initial_world
              host_with_untitled page_untitled
              (match Pull.properties page_untitled with
               | Some props => props
               | None => ∅
               end)
              [page_titled] [] empty_world)
    as [(s & e & l1 & l2 & w1 & w2 & Hwith & Hwithout & Hreq & _) Hpull].
  - reflexivity.
  - vm_compute. reflexivity.
  - left. vm_compute. reflexivity.
  - reflexivity.
  - left. right. vm_compute. reflexivity.
  - split.
    + exists s, e, w1, w2. split; [exact Hwith | split; [exact Hwithout | exact Hreq]].
    + exact Hpull.
Defined.

(** The claim as it is stated: in the pull script too, the skips show in
    what the run reports.  Two runs that print the same lines, the
    warning apart, and pass over one page and none. *)
Lemma pull_skip_leaves_no_count : ~ pull_reports_skips.
Proof.
  intros H.
  specialize (H host_with_untitled host_without_untitled empty_world).
  vm_compute in H. specialize (H eq_refl). discriminate H.
Qed.

End SkipFacts.

(** ** Slugs *)

Module SlugFacts.
Import JS Pull JSFacts.

Record slug_shaped (s : list N) : Prop := SlugShaped {
  shaped_units : Forall (fun c => slug_unit c = true) s;
  shaped_runs : no_double_hyphen s = true;
  shaped_head : head s <> Some HYPHEN;
  shaped_last : last s <> Some HYPHEN }.

Lemma kept_not_hyphen c : kept c = true -> c <> HYPHEN.
Proof. intros H ->. vm_compute in H. discriminate. Qed.

Lemma eqb_hyphen_sym c : (HYPHEN =? c) = (c =? HYPHEN).
Proof. apply N.eqb_sym. Qed.

Lemma replace_runs_units b s :
  Forall (fun c => slug_unit c = true) (replace_runs b s).
Proof.
  revert b. induction s as [|c r IH]; intros b; simpl; [constructor|].
  destruct (kept c) eqn:K.
  - constructor; [unfold slug_unit; by rewrite K | apply IH].
  - destruct b; [apply IH|]. constructor; [done | apply IH].
Qed.

Lemma no_double_hyphen_cons c s :
  no_double_hyphen (c :: s) = true <->
  (c = HYPHEN -> head s <> Some HYPHEN) /\ no_double_hyphen s = true.
Proof.
  destruct s as [|d r]; simpl.
  - split; [done|]. done.
  - rewrite andb_true_iff, negb_true_iff, andb_false_iff, !N.eqb_neq.
    split; intros [H1 H2]; split; try done.
    + intros -> [= ->]. by destruct H1.
    + destruct (N.eq_dec c HYPHEN) as [->|]; [right|by left].
      intros ->. by apply H1.
Qed.

Lemma replace_runs_no_double b s :
  no_double_hyphen (replace_runs b s) = true /\
  (b = true -> head (replace_runs b s) <> Some HYPHEN).
Proof.
  revert b. induction s as [|c r IH]; intros b; simpl; [done|].
  destruct (kept c) eqn:K.
  - split.
    + apply no_double_hyphen_cons. split; [|apply IH].
      intros ->. vm_compute in K. discriminate.
    + intros _ [= ->]. vm_compute in K. discriminate.
  - destruct b; [apply IH|]. split; [|done].
    apply no_double_hyphen_cons. split; [|apply IH].
    intros _. by apply IH.
Qed.

Lemma no_double_hyphen_app_r p s :
  no_double_hyphen (p ++ s) = true -> no_double_hyphen s = true.
Proof.
  induction p as [|c p IH]; [done|]. rewrite <- app_comm_cons.
  intros H. apply no_double_hyphen_cons in H as [_ H]. by apply IH.
Qed.

Lemma no_double_hyphen_app_l s q :
  no_double_hyphen (s ++ q) = true -> no_double_hyphen s = true.
Proof.
  induction s as [|c s IH]; [done|]. rewrite <- app_comm_cons.
  intros H. apply no_double_hyphen_cons in H as [H1 H2].
  apply no_double_hyphen_cons. split; [|by apply IH].
  intros Hc Hs. apply (H1 Hc). by destruct s.
Qed.

Lemma no_double_hyphen_split s a b :
  no_double_hyphen s = true -> s <> a ++ [HYPHEN; HYPHEN] ++ b.
Proof.
  intros H ->. apply no_double_hyphen_app_r in H.
  simpl in H. discriminate.
Qed.

(** The two trimming passes leave an infix of their input. *)
Lemma strip_hyphens_infix s :
  span_while (N.eqb HYPHEN) s ++ strip_hyphens s ++
    reverse (span_while (N.eqb HYPHEN)
               (reverse (skip_while (N.eqb HYPHEN) s))) = s.
Proof.
  unfold strip_hyphens.
  change (reverse (skip_while ?f (reverse ?x))) with (strip_end f x).
  rewrite strip_end_app. apply span_skip_while.
Qed.

Lemma strip_hyphens_shaped s :
  Forall (fun c => slug_unit c = true) s ->
  no_double_hyphen s = true ->
  slug_shaped (strip_hyphens s).
Proof.
  intros Hu Hn. pose proof (strip_hyphens_infix s) as E.
  constructor.
  - rewrite <- E in Hu. apply Forall_app in Hu as [_ Hu].
    by apply Forall_app in Hu as [Hu _].
  - rewrite <- E in Hn. apply no_double_hyphen_app_r in Hn.
    by apply no_double_hyphen_app_l in Hn.
  - intros H. unfold strip_hyphens in H.
    change (reverse (skip_while ?f (reverse ?x))) with (strip_end f x) in H.
    apply strip_end_head, skip_while_head in H. done.
  - intros H. unfold strip_hyphens in H.
    change (reverse (skip_while ?f (reverse ?x))) with (strip_end f x) in H.
    apply strip_end_last in H. done.
Qed.

Lemma generateSlug_slug_shaped title : slug_shaped (generateSlug title).
Proof.
  apply strip_hyphens_shaped;
    [apply replace_runs_units | apply replace_runs_no_double].
Qed.

(** On a string of slug shape each of the three passes is the identity. *)
Lemma lower_unit_slug c : slug_unit c = true -> lower_unit c = [c].
Proof.
  unfold slug_unit, kept, lower_unit, HYPHEN.
  rewrite !orb_true_iff, !andb_true_iff, !N.leb_le, N.eqb_eq. intros H.
  repeat match goal with
         | |- context [?a <=? ?b] => destruct (N.leb_spec a b); simpl
         | |- context [?a =? ?b] => destruct (N.eqb_spec a b); simpl
         end; try done; lia.
Qed.

Lemma toLowerCase_slug s :
  Forall (fun c => slug_unit c = true) s -> toLowerCase s = s.
Proof.
  unfold toLowerCase. induction 1 as [|c r Hc _ IH]; simpl; [done|].
  by rewrite lower_unit_slug, IH.
Qed.

Lemma replace_runs_slug b s :
  Forall (fun c => slug_unit c = true) s ->
  no_double_hyphen s = true ->
  (b = true -> head s <> Some HYPHEN) ->
  replace_runs b s = s.
Proof.
  intros Hu. revert b. induction Hu as [|c r Hc _ IH]; intros b Hn Hb; simpl; [done|].
  apply no_double_hyphen_cons in Hn as [Hn1 Hn2].
  destruct (kept c) eqn:K.
  - f_equal. apply IH; done.
  - unfold slug_unit in Hc. rewrite K in Hc. simpl in Hc.
    apply N.eqb_eq in Hc. subst c.
    destruct b; [by destruct Hb|].
    f_equal. apply IH; [done|]. intros _. by apply Hn1.
Qed.

Lemma strip_hyphens_slug s :
  head s <> Some HYPHEN -> last s <> Some HYPHEN -> strip_hyphens s = s.
Proof.
  intros Hh Hl. unfold strip_hyphens.
  rewrite (skip_while_id _ s).
  - apply strip_end_id. intros c Hc. apply N.eqb_neq. by intros <-.
  - intros c Hc. apply N.eqb_neq. by intros <-.
Qed.

Lemma generateSlug_fixes_slugs s : slug_shaped s -> generateSlug s = s.
Proof.
  intros [Hu Hn Hh Hl]. unfold generateSlug.
  rewrite toLowerCase_slug, replace_runs_slug; try done.
  by apply strip_hyphens_slug.
Qed.

Example generateSlug_example : generateSlug title_nihao_world = slug_nihao_world.
Proof. vm_compute. reflexivity. Qed.

(** C7.  Whatever the title, the slug consists of lower-case Latin
    letters, digits, CJK ideographs of U+4E00..U+9FA5 and hyphens, it holds
    no two hyphens in a row and neither starts nor ends with a hyphen; the
    title "你好, World!" gives "你好-world". *)
Theorem generateSlug_alphabet_and_hyphens (title : list N) :
  Forall (fun c => 97 <= c <= 122 \/ 48 <= c <= 57 \/
                   0x4e00 <= c <= 0x9fa5 \/ c = HYPHEN)
         (generateSlug title) /\
  (forall a b, generateSlug title <> a ++ [HYPHEN; HYPHEN] ++ b) /\
  head (generateSlug title) <> Some HYPHEN /\
  last (generateSlug title) <> Some HYPHEN /\
  generateSlug title_nihao_world = slug_nihao_world.
Proof.
  destruct (generateSlug_slug_shaped title) as [Hu Hn Hh Hl].
  repeat split; try done.
  - eapply Forall_impl; [exact Hu|]. intros c. unfold slug_unit, kept.
    rewrite !orb_true_iff, !andb_true_iff, !N.leb_le, N.eqb_eq. tauto.
  - intros a b. by apply no_double_hyphen_split.
Qed.

(** C10.  [generateSlug] is idempotent. *)
Theorem generateSlug_idempotent (t : list N) :
  generateSlug (generateSlug t) = generateSlug t.
Proof. apply generateSlug_fixes_slugs, generateSlug_slug_shaped. Qed.

End SlugFacts.

(** ** The scan over the lines of a post *)

Module ScanFacts.
Import JS Effects Push JSFacts BlocksFacts Scenarios.

Definition blank (line : list N) : bool := str_eqb (trim line) [].

(** The text a block carries. *)
Definition text_of (b : Block) : list N :=
  match b with
  | heading_1 t | heading_2 t | heading_3 t | code t _
  | bulleted_list_item t | numbered_list_item t | quote t | paragraph t => t
  end.

Definition is_code (b : Block) : bool :=
  match b with code _ _ => true | _ => false end.

Lemma skip_while_all f s : Forall (fun c => f c = true) s -> skip_while f s = [].
Proof. induction 1 as [|c s Hc _ IH]; [done|]. simpl. by rewrite Hc. Qed.

Lemma trim_all_space s : Forall (fun c => is_space c = true) s -> trim s = [].
Proof. intros H. unfold trim. rewrite (skip_while_all _ _ H). reflexivity. Qed.

Lemma split_aux_Forall (P : N -> Prop) c cur s :
  Forall P cur -> Forall P s -> Forall (Forall P) (split_aux c cur s).
Proof.
  revert cur. induction s as [|x s IH]; intros cur Hcur Hs; simpl.
  - constructor; [by apply Forall_reverse | constructor].
  - apply Forall_cons in Hs as [Hx Hs]. destruct (x =? c).
    + constructor; [by apply Forall_reverse | by apply IH].
    + apply IH; [by constructor | done].
Qed.

Lemma blocks_from_blank lines :
  Forall (fun l => blank l = true) lines -> blocks_from lines = [].
Proof.
  induction 1 as [|l lines Hl _ IH]; [done|].
  rewrite blocks_from_cons. unfold blank in Hl. by rewrite Hl.
Qed.

(** A text of white space alone, the empty text among them, gives no
    block. *)
Theorem blank_markdown_no_block (markdown : list N) :
  Forall (fun c => is_space c = true) markdown ->
  markdownToNotionBlocks markdown = [].
Proof.
  intros H. unfold markdownToNotionBlocks. apply blocks_from_blank.
  pose proof (split_aux_Forall (fun c => is_space c = true) NEWLINE [] markdown
                (Forall_nil_2 _) H) as Hlines.
  eapply Forall_impl; [exact Hlines|].
  intros l Hl. unfold blank. by rewrite (trim_all_space _ Hl).
Qed.

Lemma blank_markdown_no_block_witness :
  markdownToNotionBlocks [SPACE; NEWLINE; 9; NEWLINE] = [].
Proof.
  apply blank_markdown_no_block.
  repeat constructor.
Defined.

(** One step of the scan on a line that opens no fence: no block for a
    blank line, one block otherwise. *)
Lemma blocks_from_plain line rest :
  startsWith line fence = false ->
  exists bs, blocks_from (line :: rest) = bs ++ blocks_from rest /\
             length bs = (if blank line then 0 else 1)%nat /\
             (NEWLINE ∉ line ->
              Forall (fun b => is_code b = false /\ NEWLINE ∉ text_of b) bs).
Proof.
  intros Hf. rewrite blocks_from_cons, Hf. unfold blank.
  assert (Hone : forall b : Block,
             is_code b = false -> (NEWLINE ∉ line -> NEWLINE ∉ text_of b) ->
             exists bs, b :: blocks_from rest = bs ++ blocks_from rest /\
                        length bs = 1%nat /\
                        (NEWLINE ∉ line ->
                         Forall (fun b => is_code b = false /\ NEWLINE ∉ text_of b) bs)).
  { intros b Hb Ht. exists [b]. split; [done|]. split; [done|].
    intros Hn. constructor; [|constructor]. split; [done | by apply Ht]. }
  destruct (str_eqb (trim line) []); [by exists []|].
  destruct (startsWith line h3_prefix);
    [apply Hone; [done | cbn [text_of]; apply slice_from_notin]|].
  destruct (startsWith line h2_prefix);
    [apply Hone; [done | cbn [text_of]; apply slice_from_notin]|].
  destruct (startsWith line h1_prefix);
    [apply Hone; [done | cbn [text_of]; apply slice_from_notin]|].
  destruct (_ || _);
    [apply Hone; [done | cbn [text_of]; apply slice_from_notin]|].
  destruct (match_numbered line) as [text|] eqn:En.
  - apply Hone; [done|]. cbn [text_of]. intros Hn.
    unfold match_numbered in En.
    destruct (span_while is_digit line); [done|].
    destruct (skip_while is_digit line) as [|c r] eqn:Es; [done|].
    destruct (c =? DOT); [|done].
    destruct (span_while is_space r); [done|].
    destruct (forallb _ _); [|done]. injection En as <-.
    apply skip_while_notin.
    assert (NEWLINE ∉ c :: r) as Hc by (rewrite <- Es; by apply skip_while_notin).
    by apply not_elem_of_cons in Hc as [_ Hc].
  - destruct (startsWith line quote_prefix);
      (apply Hone; [done | cbn [text_of]; try apply slice_from_notin; done]).
Qed.

(** Without fences every line that is not blank gives one block. *)
Theorem one_block_per_line (markdown : list N) :
  Forall (fun l => startsWith l fence = false) (split markdown NEWLINE) ->
  length (markdownToNotionBlocks markdown) =
  length (List.filter (fun l => negb (blank l)) (split markdown NEWLINE)).
Proof.
  unfold markdownToNotionBlocks. induction 1 as [|l lines Hl _ IH]; [done|].
  destruct (blocks_from_plain l lines Hl) as (bs & -> & Hlen & _).
  rewrite length_app, IH, Hlen. cbn [List.filter].
  by destruct (blank l).
Qed.

Definition notes_markdown : list N :=
  Eval cbv in
    lit "# Notes" ++ [NEWLINE] ++ [NEWLINE] ++ lit "first" ++ [NEWLINE] ++
    lit "- item".

Lemma one_block_per_line_witness :
  length (markdownToNotionBlocks notes_markdown) =
  length (List.filter (fun l => negb (blank l)) (split notes_markdown NEWLINE)).
Proof.
  apply one_block_per_line.
  apply (Forall_fold_right _ _). vm_compute. tauto.
Defined.

Lemma blocks_from_length lines :
  (length (blocks_from lines) <= length lines)%nat /\
  (forall language codeLines,
     length (collect_code language codeLines lines) <= S (length lines))%nat.
Proof.
  induction lines as [|l lines [IH1 IH2]]; [split; [done | intros; cbn; lia]|].
  split.
  - destruct (startsWith l fence) eqn:Hf.
    + rewrite blocks_from_cons.
      destruct (str_eqb (trim l) []); [cbn [length]; lia|].
      destruct (startsWith l h3_prefix); [cbn [length]; lia|].
      destruct (startsWith l h2_prefix); [cbn [length]; lia|].
      destruct (startsWith l h1_prefix); [cbn [length]; lia|].
      rewrite Hf. specialize (IH2 (fence_language l) []). cbn [length]. lia.
    + destruct (blocks_from_plain l lines Hf) as (bs & -> & Hlen & _).
      rewrite length_app, Hlen. cbn [length]. destruct (blank l); lia.
  - intros language codeLines. rewrite collect_code_cons.
    destruct (startsWith l fence); cbn [length].
    + lia.
    + specialize (IH2 language (codeLines ++ [l])). lia.
Qed.

(** The scan never gives more blocks than the text has lines, fenced code
    included. *)
Theorem blocks_at_most_lines (markdown : list N) :
  (length (markdownToNotionBlocks markdown) <=
   length (split markdown NEWLINE))%nat.
Proof. apply blocks_from_length. Qed.

Lemma blocks_from_texts lines :
  Forall (fun l => NEWLINE ∉ l) lines ->
  Forall (fun b => is_code b = true \/ NEWLINE ∉ text_of b) (blocks_from lines) /\
  (forall language codeLines,
     Forall (fun b => is_code b = true \/ NEWLINE ∉ text_of b)
            (collect_code language codeLines lines)).
Proof.
  induction 1 as [|l lines Hl _ [IH1 IH2]].
  - split; [constructor|]. intros. constructor; [by left | constructor].
  - split.
    + destruct (startsWith l fence) eqn:Hf.
      * rewrite blocks_from_cons.
        destruct (str_eqb (trim l) []); [done|].
        destruct (startsWith l h3_prefix);
          [constructor; [right; by apply slice_from_notin | done]|].
        destruct (startsWith l h2_prefix);
          [constructor; [right; by apply slice_from_notin | done]|].
        destruct (startsWith l h1_prefix);
          [constructor; [right; by apply slice_from_notin | done]|].
        rewrite Hf. apply IH2.
      * destruct (blocks_from_plain l lines Hf) as (bs & -> & _ & Hbs).
        apply Forall_app. split; [|done].
        eapply Forall_impl; [apply (Hbs Hl)|]. intros b [_ Hb]. by right.
    + intros language codeLines. rewrite collect_code_cons.
      destruct (startsWith l fence); [|apply IH2].
      constructor; [by left | done].
Qed.

(** Only a code block holds a line break: every other block carries text
    of one line. *)
Theorem only_code_spans_lines (markdown : list N) :
  Forall (fun b => is_code b = true \/ NEWLINE ∉ text_of b)
         (markdownToNotionBlocks markdown).
Proof. apply blocks_from_texts, split_notin. Qed.

End ScanFacts.

(** ** What the frontmatter parser accepts and returns *)

Module ParseFacts.
Import JS Effects Push JSFacts FrontmatterFacts Scenarios.

Lemma indexOf_from_found i a p b :
  exists j, indexOf_from i (a ++ p ++ b) p = Some j.
Proof.
  revert i. induction a as [|x a IH]; intros i.
  - exists i. apply indexOf_from_here, (startsWith_app p b).
  - destruct (startsWith ((x :: a) ++ p ++ b) p) eqn:E.
    + exists i. by apply indexOf_from_here.
    + rewrite <- app_comm_cons in *. rewrite indexOf_from_next by done. apply IH.
Qed.

Lemma indexOf_from_at i s p j :
  indexOf_from i s p = Some j ->
  exists k, j = (i + k)%nat /\ (k <= length s)%nat /\ startsWith (drop k s) p = true.
Proof.
  revert i. induction s as [|x s IH]; intros i; cbn [indexOf_from].
  - destruct (startsWith [] p) eqn:E; [|done]. intros [= <-].
    exists 0%nat. repeat split; [lia | done..].
  - destruct (startsWith (x :: s) p) eqn:E.
    + intros [= <-]. exists 0%nat. repeat split; [lia | cbn; lia | done].
    + intros H. apply IH in H as (k & -> & Hk & Hs).
      exists (S k). repeat split; [lia | cbn; lia | done].
Qed.

Definition delimited (fileContent : list N) : Prop :=
  exists header rest, fileContent = fm_open ++ header ++ fm_close ++ rest.

Lemma match_frontmatter_delimited fileContent :
  delimited fileContent <-> is_Some (match_frontmatter fileContent).
Proof.
  unfold match_frontmatter. split.
  - intros (header & rest & ->). rewrite startsWith_app, drop_app_length.
    unfold indexOf. destruct (indexOf_from_found 0 header fm_close rest) as [j ->].
    by eexists.
  - destruct (startsWith fileContent fm_open) eqn:Es; [|by intros [? ?]].
    apply startsWith_prefix in Es as [t ->]. rewrite drop_app_length.
    destruct (indexOf t fm_close) as [j|] eqn:Ei; [|by intros [? ?]].
    intros _. apply indexOf_from_at in Ei as (k & -> & Hk & Hs).
    apply startsWith_prefix in Hs as [rest Hrest].
    exists (take k t), rest. by rewrite <- Hrest, take_drop.
Qed.

(** The parser accepts the texts that open with a line of three hyphens
    and hold, later, a line of three hyphens followed by a line break, and
    no other text; what it raises is the error on a missing frontmatter. *)
Theorem parseFrontmatter_accepts_delimited (fileContent : list N) :
  (delimited fileContent ->
   exists frontmatter content, parseFrontmatter fileContent = Ok (frontmatter, content)) /\
  (~ delimited fileContent ->
   parseFrontmatter fileContent = Err InvalidFrontmatter).
Proof.
  unfold parseFrontmatter. split.
  - intros [[h c] ->]%match_frontmatter_delimited. by eexists _, _.
  - intros Hn. destruct (match_frontmatter fileContent) as [[h c]|] eqn:E; [|done].
    destruct Hn. apply match_frontmatter_delimited. by rewrite E.
Qed.

Lemma parse_line_keeps fm line k :
  is_Some (fm !! k) -> is_Some (parse_line fm line !! k).
Proof.
  intros H. unfold parse_line. destruct (indexOf line [COLON]); [|done].
  destruct (str_eqb _ key_proto); [done|].
  rewrite lookup_insert_is_Some. destruct (decide (trim (slice line 0 (Z.of_nat n)) = k)); auto.
Qed.

Lemma parse_lines_keep lines fm k :
  is_Some (fm !! k) -> is_Some (fold_left parse_line lines fm !! k).
Proof.
  revert fm. induction lines as [|l lines IH]; intros fm H; [done|].
  cbn [fold_left]. by apply IH, parse_line_keeps.
Qed.

(** What the parser returns always has a title and a date, whatever the
    header holds, and a body without white space at either end. *)
Theorem parseFrontmatter_fields (fileContent : list N)
        (frontmatter : gmap (list N) Value) (content : list N) :
  parseFrontmatter fileContent = Ok (frontmatter, content) ->
  is_Some (frontmatter !! key_title) /\
  is_Some (frontmatter !! key_date) /\
  trim content = content.
Proof.
  unfold parseFrontmatter.
  destruct (match_frontmatter fileContent) as [[h c]|]; [|done].
  intros [= <- <-]. split; [|split].
  - apply parse_lines_keep. by eexists.
  - apply parse_lines_keep. by eexists.
  - apply trim_idempotent.
Qed.

Lemma parseFrontmatter_fields_witness :
  is_Some ((match parseFrontmatter hello_world_file with
            | Ok (fm, _) => fm
            | Err _ => ∅
            end) !! key_title) /\
  is_Some ((match parseFrontmatter hello_world_file with
            | Ok (fm, _) => fm
            | Err _ => ∅
            end) !! key_date) /\
  trim str_body = str_body.
Proof.
  apply (parseFrontmatter_fields hello_world_file). vm_compute. reflexivity.
Defined.

(** The key a line sets, and the value it gives it. *)
Definition line_key (line : list N) : option (list N) :=
  (fun colonIndex => trim (slice line 0 (Z.of_nat colonIndex))) <$>
  indexOf line [COLON].

Definition line_value (line : list N) : Value :=
  match indexOf line [COLON] with
  | Some colonIndex =>
      parse_value (unquote (trim (slice_from line (Z.of_nat colonIndex + 1))))
  | None => VStr []
  end.

Lemma parse_line_other fm line k :
  line_key line <> Some k -> parse_line fm line !! k = fm !! k.
Proof.
  unfold line_key, parse_line. destruct (indexOf line [COLON]); [|done].
  cbn. intros H. destruct (str_eqb _ key_proto); [done|].
  apply lookup_insert_ne. congruence.
Qed.

Lemma parse_lines_other lines fm k :
  Forall (fun l => line_key l <> Some k) lines ->
  fold_left parse_line lines fm !! k = fm !! k.
Proof.
  intros H. revert fm. induction H as [|l lines Hl _ IH]; intros fm; [done|].
  cbn [fold_left]. by rewrite IH, parse_line_other.
Qed.

Lemma parse_line_set fm line k :
  line_key line = Some k -> k <> key_proto ->
  parse_line fm line !! k = Some (line_value line).
Proof.
  unfold line_key, line_value, parse_line.
  destruct (indexOf line [COLON]); [|done]. cbn. intros [= <-] Hk.
  unfold str_eqb. rewrite bool_decide_eq_false_2 by done.
  apply lookup_insert_eq.
Qed.

(** Between the delimiters, the header read line by line: a key other
    than [__proto__] has the value of the last line that sets it; text
    after the closing line is body, further lines of three hyphens
    included. *)
Theorem parseFrontmatter_last_line_wins
        (before after : list (list N)) (line key rest : list N) :
  Forall header_line (before ++ line :: after) ->
  line_key line = Some key ->
  key <> key_proto ->
  Forall (fun l => line_key l <> Some key) after ->
  exists frontmatter,
    parseFrontmatter
      (fm_open ++ join [NEWLINE] (before ++ line :: after) ++ fm_close ++ rest) =
      Ok (frontmatter, trim rest) /\
    frontmatter !! key = Some (line_value line).
Proof.
  intros Hh Hk Hproto Ha. unfold parseFrontmatter.
  rewrite match_frontmatter_lines; [|by destruct before | done].
  eexists. split; [reflexivity|].
  rewrite split_join; [|by destruct before|].
  - rewrite fold_left_app. cbn [fold_left].
    by rewrite parse_lines_other, parse_line_set.
  - eapply Forall_impl; [exact Hh|]. by intros l [Hl _].
Qed.

Definition line_title_A : list N := Eval cbv in lit "title: A".
Definition line_title_B : list N := Eval cbv in lit "title: B".
Definition line_date : list N := Eval cbv in lit "date: 2024-05-06".

Lemma parseFrontmatter_last_line_wins_witness :
  exists frontmatter,
    parseFrontmatter
      (fm_open ++ join [NEWLINE] [line_title_A; line_title_B; line_date] ++
       fm_close ++ str_body) =
      Ok (frontmatter, trim str_body) /\
    frontmatter !! key_title = Some (VStr str_B).
Proof.
  refine (parseFrontmatter_last_line_wins
            [line_title_A] [line_date] line_title_B key_title str_body _ _ _ _).
  - repeat constructor; (apply (bool_decide_eq_true_1 _); reflexivity) || discriminate.
  - vm_compute. reflexivity.
  - discriminate.
  - repeat constructor. vm_compute. discriminate.
Defined.

(** A header without a line for the title leaves the title empty. *)
Theorem parseFrontmatter_no_title_line (lines : list (list N)) (rest : list N) :
  lines <> [] ->
  Forall header_line lines ->
  Forall (fun l => line_key l <> Some key_title) lines ->
  exists frontmatter,
    parseFrontmatter (fm_open ++ join [NEWLINE] lines ++ fm_close ++ rest) =
      Ok (frontmatter, trim rest) /\
    frontmatter !! key_title = Some (VStr []) /\
    truthy (frontmatter !! key_title) = false.
Proof.
  intros Hne Hh Hk. unfold parseFrontmatter.
  rewrite match_frontmatter_lines by done.
  eexists. split; [reflexivity|].
  rewrite split_join; [|done|].
  - rewrite parse_lines_other by done. done.
  - eapply Forall_impl; [exact Hh|]. by intros l [Hl _].
Qed.

Lemma parseFrontmatter_no_title_line_witness :
  exists frontmatter,
    parseFrontmatter untitled_file = Ok (frontmatter, str_body) /\
    frontmatter !! key_title = Some (VStr []) /\
    truthy (frontmatter !! key_title) = false.
Proof.
  refine (parseFrontmatter_no_title_line [Pull.fm_date ++ date_2024_05_06] str_body _ _ _).
  - discriminate.
  - repeat constructor; (apply (bool_decide_eq_true_1 _); reflexivity) || discriminate.
  - repeat constructor. vm_compute. discriminate.
Defined.

End ParseFacts.

(** ** Requests that the service refuses *)

Module RequestFacts.
Import JS Effects Push JSFacts EffectsFacts PublishFacts Scenarios.
Local Open Scope eff_scope.

(** What [notionRequest] throws on an answer, if it throws. *)
Definition refusal (answer : FetchResult) : option Exn :=
  match answer with
  | FetchRejected message => Some (HostError message)
  | HttpNotOk status errorText => Some (NotionApiError status errorText)
  | HttpOk None => Some (HostError [])
  | HttpOk (Some _) => None
  end.

Section Service.

Variable ds : list N.
Variable respond : nat -> Request -> FetchResult.

(** The requests [sent], the first of them after [base] earlier ones, were
    all accepted. *)
Definition all_accepted (base : nat) (sent : list Request) : Prop :=
  forall i r, sent !! i = Some r -> refusal (respond (base + i) r) = None.

(** What a computation that talks to the service does from [w] on: it
    sends requests as long as they are accepted; it returns after these,
    or throws what the service made of the last one.  Console and waiting
    time are as in [w]. *)
Definition sends_until_refused {A} (w : World) (o : Outcome World A) : Prop :=
  exists sent,
    requests (world_of o) = requests w ++ sent /\
    console (world_of o) = console w /\
    waited (world_of o) = waited w /\
    match o with
    | Done _ _ => all_accepted (length (requests w)) sent
    | Threw e _ =>
        exists front r,
          sent = front ++ [r] /\
          all_accepted (length (requests w)) front /\
          refusal (respond (length (requests w) + length front) r) = Some e
    end.

Lemma all_accepted_nil base : all_accepted base [].
Proof. intros i r H. done. Qed.

Lemma all_accepted_app base sent1 sent2 :
  all_accepted base sent1 ->
  all_accepted (base + length sent1) sent2 ->
  all_accepted base (sent1 ++ sent2).
Proof.
  intros H1 H2 i r Hi. apply lookup_app_Some in Hi as [Hi|[Hle Hi]].
  - by apply H1.
  - specialize (H2 _ _ Hi).
    by replace (base + length sent1 + (i - length sent1))%nat with (base + i)%nat
      in H2 by lia.
Qed.

Lemma sends_ret {A} (a : A) w : sends_until_refused w (ret a w).
Proof.
  exists []. cbn. rewrite app_nil_r. repeat split. apply all_accepted_nil.
Qed.

Lemma sends_bind {A B} (m : M A) (k : A -> M B) w :
  sends_until_refused w (m w) ->
  (forall a w1, sends_until_refused w1 (k a w1)) ->
  sends_until_refused w (bind m k w).
Proof.
  intros (sent1 & Hr1 & Hc1 & Hw1 & H1) Hk. unfold bind.
  destruct (m w) as [a w1|e w1]; cbn [world_of] in *.
  - destruct (Hk a w1) as (sent2 & Hr2 & Hc2 & Hw2 & H2).
    exists (sent1 ++ sent2). rewrite Hr2, Hc2, Hw2, Hr1, Hc1, Hw1, app_assoc.
    repeat split. rewrite Hr1, length_app in H2.
    destruct (k a w1) as [b w2|e w2].
    + by apply all_accepted_app.
    + destruct H2 as (front & r & -> & Hf & Hl).
      exists (sent1 ++ front), r. rewrite app_assoc. repeat split.
      * by apply all_accepted_app.
      * rewrite length_app. by rewrite Nat.add_assoc.
  - exists sent1. repeat split; done.
Qed.

Lemma sends_notionRequest endpoint method body w :
  sends_until_refused w (notionRequest respond endpoint method body w).
Proof.
  unfold notionRequest.
  set (request := {| Push.endpoint := endpoint; Push.method := method;
                     Push.body := body |}).
  exists [request].
  assert (Hone : forall answer, refusal answer = None ->
                   respond (length (requests w)) request = answer ->
                   all_accepted (length (requests w)) [request]).
  { intros answer Hn Ha [|i] r Hi; [|done]. injection Hi as <-.
    by rewrite Nat.add_0_r, Ha. }
  destruct (respond (length (requests w)) request) as [m|s t|[id|]] eqn:E;
    cbn [world_of requests console waited]; repeat split;
    try (exists [], request; repeat split;
         [apply all_accepted_nil | by rewrite Nat.add_0_r, E]).
  by apply (Hone (HttpOk (Some id))).
Qed.

Lemma sends_append_chunks fuel pageId remainingBlocks i w :
  sends_until_refused w (append_chunks respond fuel pageId remainingBlocks i w).
Proof.
  revert i w. induction fuel as [|fuel IH]; intros i w; [apply sends_ret|].
  cbn [append_chunks]. destruct (i <? length remainingBlocks)%nat; [|apply sends_ret].
  apply sends_bind; [apply sends_notionRequest | intros _ w1; apply IH].
Qed.

Lemma spread_or_empty_error v e : spread_or_empty v = Err e -> e = TypeError.
Proof.
  unfold spread_or_empty. destruct (truthy v); [|done].
  destruct v as [[| |]|]; congruence.
Qed.

Lemma date_part_error v e : date_part v = Err e -> e = TypeError.
Proof. unfold date_part. destruct v as [[| |]|]; congruence. Qed.

(** No request follows one that the service refused.  [createNotionPage]
    throws a type error and leaves the world as it is, on tags, categories
    or a date of the wrong type; or it sends its requests as long as they
    are accepted, and what it throws is the refusal of the last request it
    sent. *)
Theorem createNotionPage_stops_at_refusal
        (frontmatter : gmap (list N) Value) (content : list N) (w : World) :
  createNotionPage ds respond frontmatter content w = Threw TypeError w \/
  sends_until_refused w (createNotionPage ds respond frontmatter content w).
Proof.
  unfold createNotionPage.
  destruct (spread_or_empty (frontmatter !! key_tags)) as [tags|e] eqn:Et;
    [|left; by rewrite (spread_or_empty_error _ _ Et)].
  destruct (spread_or_empty (frontmatter !! key_categories)) as [categories|e] eqn:Ec;
    [|left; by rewrite (spread_or_empty_error _ _ Ec)].
  destruct (date_part (frontmatter !! key_date)) as [published|e] eqn:Ed;
    [|left; by rewrite (date_part_error _ _ Ed)].
  right. cbn [lift]. unfold bind at 1 2 3. cbn [ret].
  apply sends_bind; [apply sends_notionRequest|]. intros pageId w4.
  apply sends_bind; [apply sends_append_chunks | intros _ w5; apply sends_ret].
Qed.

(** A date that is [true] or a list is not empty, so that the file is not
    passed over, but it is no string: [createNotionPage] throws a type
    error before it sends anything. *)
Theorem createNotionPage_date_not_string
        (frontmatter : gmap (list N) Value) (content : list N) (w : World) :
  (exists items, frontmatter !! key_date = Some (VList items)) \/
  frontmatter !! key_date = Some (VBool true) ->
  truthy (frontmatter !! key_date) = true /\
  createNotionPage ds respond frontmatter content w = Threw TypeError w.
Proof.
  intros Hd.
  assert (Ed : date_part (frontmatter !! key_date) = Err TypeError /\
               truthy (frontmatter !! key_date) = true).
  { by destruct Hd as [[items ->] | ->]. }
  destruct Ed as [Ed Ht]. split; [exact Ht|].
  unfold createNotionPage.
  destruct (spread_or_empty (frontmatter !! key_tags)) as [tags|e] eqn:Et;
    [|by rewrite (spread_or_empty_error _ _ Et)].
  destruct (spread_or_empty (frontmatter !! key_categories)) as [categories|e] eqn:Ec;
    [|by rewrite (spread_or_empty_error _ _ Ec)].
  by rewrite Ed.
Qed.

(** When the service refuses the creation of the page with a status and a
    text, [createNotionPage] throws the two, and the creation is the one
    request it has sent. *)
Theorem createNotionPage_creation_refused
        (frontmatter : gmap (list N) Value) (content : list N) (w : World)
        (tags categories : list (list N)) (published : list N)
        (status : N) (errorText : list N) :
  spread_or_empty (frontmatter !! key_tags) = Ok tags ->
  spread_or_empty (frontmatter !! key_categories) = Ok categories ->
  date_part (frontmatter !! key_date) = Ok published ->
  (forall r, respond (length (requests w)) r = HttpNotOk status errorText) ->
  exists properties w',
    createNotionPage ds respond frontmatter content w =
      Threw (NotionApiError status errorText) w' /\
    requests w' =
      requests w ++
      [create_request ds properties (take 100 (markdownToNotionBlocks content))] /\
    console w' = console w /\
    waited w' = waited w.
Proof.
  intros Ht Hc Hd Hr. unfold createNotionPage. rewrite Ht, Hc, Hd.
  cbn [lift]. unfold bind at 1 2 3. cbn [ret].
  set (properties := {| Name := _ |}).
  exists properties. unfold bind at 1. unfold notionRequest. rewrite Hr.
  eexists. split; [reflexivity|]. done.
Qed.

End Service.

Definition refuse_all (status : N) (errorText : list N)
  : nat -> Request -> FetchResult :=
  fun _ _ => HttpNotOk status errorText.

Lemma createNotionPage_creation_refused_witness :
  exists properties w',
    createNotionPage str_ds (refuse_all 429 str_t) minimal_frontmatter content_250
                     initial_world = Threw (NotionApiError 429 str_t) w' /\
    requests w' =
      [create_request str_ds properties
                      (take 100 (markdownToNotionBlocks content_250))].
Proof.
  destruct (createNotionPage_creation_refused str_ds (refuse_all 429 str_t)
              minimal_frontmatter content_250 initial_world
              [] [] date_2024_05_06 429 str_t eq_refl eq_refl eq_refl
              (fun _ => eq_refl))
    as (properties & w' & Hrun & Hreq & _).
  exists properties, w'. split; [exact Hrun | exact Hreq].
Defined.

Definition date_true_frontmatter : gmap (list N) Value :=
  <[key_date := VBool true]> minimal_frontmatter.

Lemma createNotionPage_date_not_string_witness :
  truthy (date_true_frontmatter !! key_date) = true /\
  createNotionPage str_ds accept_all date_true_frontmatter str_body initial_world =
    Threw TypeError initial_world.
Proof.
  apply createNotionPage_date_not_string. right. reflexivity.
Defined.





End RequestFacts.

(** ** The walk over the content directory *)

Module WalkFacts.
Import JS Effects Push JSFacts Scenarios.

(** The Markdown files below an entry, with their paths from the entry's
    directory on. *)
Fixpoint md_files (entry : Dirent) : nat :=
  match entry with
  | FileEnt name _ => if endsWith name md_suffix then 1 else 0
  | DirEnt _ entries => list_sum (map md_files entries)
  end.

Lemma startsWith_app_l s t p : startsWith s p = true -> startsWith (s ++ t) p = true.
Proof.
  intros [u ->]%startsWith_prefix. rewrite <- app_assoc. apply startsWith_app.
Qed.

Lemma endsWith_app_r s t p : endsWith t p = true -> endsWith (s ++ t) p = true.
Proof.
  unfold endsWith. rewrite reverse_app. apply startsWith_app_l.
Qed.

Lemma Dirent_nested_ind (P : Dirent -> Prop) :
  (forall name content, P (FileEnt name content)) ->
  (forall name entries, Forall P entries -> P (DirEnt name entries)) ->
  forall entry, P entry.
Proof.
  intros Hfile Hdir.
  exact (fix rec (entry : Dirent) : P entry :=
           match entry with
           | FileEnt name content => Hfile name content
           | DirEnt name entries =>
               Hdir name entries
                 ((fix all (l : list Dirent) : Forall P l :=
                     match l with
                     | [] => @List.Forall_nil _ P
                     | e :: l0 => @List.Forall_cons _ P e l0 (rec e) (all l0)
                     end) entries)
           end).
Qed.

Lemma entry_files_spec entry :
  forall dir,
    Forall (fun file => endsWith file.1 md_suffix = true /\
                        startsWith file.1 (dir ++ [47]) = true)
           (entry_files dir entry) /\
    length (entry_files dir entry) = md_files entry.
Proof.
  induction entry as [name content | name entries IH] using Dirent_nested_ind;
    intros dir.
  - cbn [entry_files md_files]. destruct (endsWith name md_suffix) eqn:E.
    + split; [|done]. repeat constructor; cbn [fst].
      * by apply endsWith_app_r, endsWith_app_r.
      * unfold path_join. rewrite app_assoc. apply startsWith_app.
    + split; [constructor | done].
  - cbn [entry_files md_files].
    induction IH as [|e l He _ IHl]; [split; [constructor | done]|].
    cbn [flat_map map list_sum]. destruct IHl as [IH1 IH2].
    destruct (He (path_join dir name)) as [H1 H2]. split.
    + apply Forall_app. split; [|done].
      eapply Forall_impl; [exact H1|]. intros file [Hmd Hdir]. split; [done|].
      apply startsWith_prefix in Hdir as [t Ht]. apply startsWith_prefix.
      exists (name ++ [47] ++ t). rewrite Ht. unfold path_join.
      by rewrite <- !app_assoc.
    + rewrite length_app. by rewrite H2, IH2.
Qed.

(** The walk lists the files whose name ends in ".md", at every depth and
    no others: every path it gives ends in ".md" and lies below the
    directory, and there are as many as the tree holds such files. *)
Theorem getAllMarkdownFiles_md_only (dir : list N) (entries : list Dirent) :
  Forall (fun file => endsWith file.1 md_suffix = true /\
                      startsWith file.1 (dir ++ [47]) = true)
         (getAllMarkdownFiles dir entries) /\
  length (getAllMarkdownFiles dir entries) = list_sum (map md_files entries).
Proof.
  unfold getAllMarkdownFiles. induction entries as [|e l [IH1 IH2]].
  - split; [constructor | done].
  - cbn [flat_map map list_sum]. destruct (entry_files_spec e dir) as [H1 H2].
    split; [by apply Forall_app|]. rewrite length_app. by rewrite H2, IH2.
Qed.

End WalkFacts.

(** ** The push run as a whole *)

Module RunFacts.
Import JS Effects Push JSFacts EffectsFacts MigrateFacts Scenarios.
Local Open Scope eff_scope.

Section Service.

Variable ds : list N.
Variable respond : nat -> Request -> FetchResult.

Definition same_wait (w w' : World) : Prop := waited w' = waited w.

Lemma same_wait_refl w : same_wait w w.
Proof. done. Qed.

Lemma same_wait_trans w1 w2 w3 : same_wait w1 w2 -> same_wait w2 w3 -> same_wait w1 w3.
Proof. unfold same_wait. congruence. Qed.

Lemma createNotionPage_no_wait frontmatter content :
  respects same_wait (createNotionPage ds respond frontmatter content).
Proof.
  assert (Hreq : forall endpoint method body,
             respects same_wait (notionRequest respond endpoint method body)).
  { intros endpoint method body w. unfold notionRequest.
    by destruct (respond _ _) as [?|? ?|[?|]]. }
  assert (Happ : forall fuel pageId remainingBlocks i,
             respects same_wait (append_chunks respond fuel pageId remainingBlocks i)).
  { induction fuel as [|fuel IH]; intros pageId remainingBlocks i;
      [apply respects_ret, same_wait_refl|].
    cbn [append_chunks]. destruct (i <? length remainingBlocks)%nat;
      [|apply respects_ret, same_wait_refl].
    apply respects_bind; [apply same_wait_trans | apply Hreq | intros _; apply IH]. }
  unfold createNotionPage.
  repeat (apply respects_bind;
          [apply same_wait_trans
          |first [apply respects_lift, same_wait_refl | apply Hreq | apply Happ]
          |intros ?]).
  apply respects_ret, same_wait_refl.
Qed.

(** The wait that one file adds: half a second when its page was created. *)
Lemma guarded_wait read w :
  exists p w', guarded ds respond read w = Done p w' /\
    waited w' = (waited w + match p with Some Created => 500 | _ => 0 end)%nat.
Proof.
  unfold guarded, try_catch, process_file, bind at 1 2.
  destruct read as [fileContent|e]; cbn [lift ret throw];
    [|eexists _, _; split; [reflexivity | cbn; lia]].
  unfold bind at 1.
  destruct (parseFrontmatter fileContent) as [[frontmatter content]|e];
    cbn [lift ret throw]; [|eexists _, _; split; [reflexivity | cbn; lia]].
  destruct (_ || _); [eexists _, _; split; [reflexivity | cbn; lia]|].
  pose proof (createNotionPage_no_wait frontmatter content w) as Hw.
  unfold bind at 1.
  destruct (createNotionPage ds respond frontmatter content w) as [pageId w1|e w1];
    cbn [world_of] in Hw; unfold same_wait in Hw.
  - eexists _, _. split; [reflexivity|]. cbn. lia.
  - eexists _, _. split; [reflexivity|]. cbn. lia.
Qed.

Lemma migrate_files_counts contentDir files successCount errorCount w :
  exists s e w',
    migrate_files ds respond contentDir files successCount errorCount w =
      Done (s, e) w' /\
    (s + e = successCount + errorCount + length files)%nat /\
    (successCount <= s)%nat /\
    waited w' = (waited w + 500 * (s - successCount))%nat.
Proof.
  revert successCount errorCount w.
  induction files as [|[filePath read] more IH]; intros sc ec w.
  - exists sc, ec, w. cbn. repeat split; lia.
  - rewrite migrate_files_cons.
    set (w0 := with_console _ w).
    destruct (guarded_wait read w0) as (p & w1 & -> & Hw).
    change (waited w0) with (waited w) in Hw.
    destruct p as [[|]|].
    + destruct (IH (S sc) ec w1) as (s & e & w' & -> & Hsum & Hle & Hwait).
      exists s, e, w'. cbn [length]. repeat split; lia.
    + destruct (IH sc (S ec) w1) as (s & e & w' & -> & Hsum & Hle & Hwait).
      exists s, e, w'. cbn [length]. repeat split; lia.
    + destruct (IH sc (S ec) w1) as (s & e & w' & -> & Hsum & Hle & Hwait).
      exists s, e, w'. cbn [length]. repeat split; lia.
Qed.

(** Whatever the files hold and whatever the service answers, the run
    ends without throwing; every Markdown file is counted once, as a
    success or as an error, and the two counts are the last lines
    printed. *)
Theorem migrateToNotion_counts_every_file
        (contentDir : list N) (root : list Dirent) (w : World) :
  exists successCount errorCount w',
    migrateToNotion ds respond contentDir root w =
      Done (successCount, errorCount) w' /\
    (successCount + errorCount =
     length (getAllMarkdownFiles contentDir root))%nat /\
    exists lines,
      console w' =
        console w ++ lines ++
        [LogCompleted; LogSuccess successCount; LogErrors errorCount].
Proof.
  set (files := getAllMarkdownFiles contentDir root).
  destruct (migrate_files_uniform ds respond contentDir files w)
    as (a & b & lines & w0 & Hloop).
  destruct (migrate_files_counts contentDir files 0 0
              (with_console (console w ++ [LogScanning; LogFound (length files)]) w))
    as (s & e & w' & Hrun & Hsum & _).
  rewrite Hloop in Hrun. injection Hrun as <- <- <-.
  exists a, b. eexists. split; [|split].
  - apply (migrateToNotion_run ds respond contentDir root (a, b)). apply Hloop.
  - cbn in Hsum. lia.
  - exists ([LogScanning; LogFound (length files)] ++ lines).
    cbn [console with_console fst snd]. by rewrite <- !app_assoc.
Qed.

(** The run waits half a second after every page it has created, and at
    no other time. *)
Theorem migrateToNotion_waits_per_page
        (contentDir : list N) (root : list Dirent) (w : World) :
  exists successCount errorCount w',
    migrateToNotion ds respond contentDir root w =
      Done (successCount, errorCount) w' /\
    waited w' = (waited w + 500 * successCount)%nat.
Proof.
  set (files := getAllMarkdownFiles contentDir root).
  set (w0 := with_console (console w ++ [LogScanning; LogFound (length files)]) w).
  destruct (migrate_files_counts contentDir files 0 0 w0)
    as (s & e & w' & Hrun & _ & _ & Hwait).
  rewrite <- (with_console_id w') in Hrun.
  exists s, e. eexists. split.
  - apply (migrateToNotion_run ds respond contentDir root (s, e)). apply Hrun.
  - cbn [waited with_console]. rewrite Hwait. cbn [waited w0 with_console]. lia.
Qed.

(** *** A file that cannot be read, or has no frontmatter *)

Lemma migrate_files_unusable contentDir filePath read error more s e w :
  read = Err error \/
  (exists fileContent, read = Ok fileContent /\
                       parseFrontmatter fileContent = Err error) ->
  migrate_files ds respond contentDir ((filePath, read) :: more) s e w =
  migrate_files ds respond contentDir more s (S e)
    (with_console (console w ++
                   [LogProcessing (drop (S (length contentDir)) filePath);
                    ErrorLine error]) w).
Proof.
  intros Hbad. rewrite migrate_files_cons.
  unfold guarded, try_catch, process_file, bind.
  destruct Hbad as [-> | (fileContent & -> & Hp)]; cbn [lift ret throw].
  - cbn [console_put requests console waited ret with_console].
    by rewrite <- app_assoc.
  - rewrite Hp. cbn [lift ret throw console_put requests console waited with_console].
    by rewrite <- app_assoc.
Qed.

(** A Markdown file that cannot be read, or that holds no frontmatter, does
    not stop the run: next to the run without the file, the same requests
    are sent and the same time is waited, the error is printed, and the
    error count printed last is one higher. *)
Theorem migrateToNotion_unusable_file
        (contentDir : list N) (before : list Dirent) (name : list N)
        (read : Result (list N)) (error : Exn) (after : list Dirent) (w : World) :
  endsWith name md_suffix = true ->
  read = Err error \/
  (exists fileContent, read = Ok fileContent /\
                       parseFrontmatter fileContent = Err error) ->
  exists successCount errorCount lines1 lines2 w1 w2,
    migrateToNotion ds respond contentDir (before ++ FileEnt name read :: after) w =
      Done (successCount, S errorCount) w1 /\
    migrateToNotion ds respond contentDir (before ++ after) w =
      Done (successCount, errorCount) w2 /\
    requests w1 = requests w2 /\
    waited w1 = waited w2 /\
    console w1 =
      console w ++
      [LogScanning;
       LogFound (S (length (getAllMarkdownFiles contentDir (before ++ after))))] ++
      lines1 ++ [LogProcessing name; ErrorLine error] ++ lines2 ++
      [LogCompleted; LogSuccess successCount; LogErrors (S errorCount)].
Proof.
  intros Hmd Hbad.
  set (found := length (getAllMarkdownFiles contentDir (before ++ after))).
  destruct (migrate_files_uniform ds respond contentDir
              (getAllMarkdownFiles contentDir before) w) as (a & b & l1 & w1 & H1).
  destruct (migrate_files_uniform ds respond contentDir
              (getAllMarkdownFiles contentDir after) w1) as (a' & b' & l2 & w2 & H2).
  assert (Hwith : getAllMarkdownFiles contentDir
                    (before ++ FileEnt name read :: after) =
                  getAllMarkdownFiles contentDir before ++
                  (path_join contentDir name, read) ::
                  getAllMarkdownFiles contentDir after).
  { rewrite getAllMarkdownFiles_app. f_equal.
    unfold getAllMarkdownFiles. cbn [flat_map entry_files]. by rewrite Hmd. }
  assert (Hlen : length (getAllMarkdownFiles contentDir
                           (before ++ FileEnt name read :: after)) = S found).
  { rewrite Hwith. unfold found. rewrite getAllMarkdownFiles_app.
    rewrite !length_app. cbn [length]. lia. }
  set (start := console w ++ [LogScanning; LogFound (S found)]).
  set (start' := console w ++ [LogScanning; LogFound found]).
  exists (a + a')%nat, (b + b')%nat, l1, l2,
    (with_console
       ((start ++ l1 ++ [LogProcessing name; ErrorLine error] ++ l2) ++
        [LogCompleted; LogSuccess (a + a'); LogErrors (S (b + b'))]) w2),
    (with_console
       ((start' ++ l1 ++ l2) ++
        [LogCompleted; LogSuccess (a + a'); LogErrors (b + b')]) w2).
  split; [|split; [|split; [|split]]].
  - apply (migrateToNotion_run _ _ _ _ (_, S _)). rewrite Hlen, Hwith.
    rewrite migrate_files_app. unfold bind. rewrite H1. cbn [fst snd].
    rewrite (migrate_files_unusable _ _ _ _ _ _ _ _ Hbad), relative_join.
    replace (with_console (console (with_console (start ++ l1) w1) ++ _)
                          (with_console (start ++ l1) w1))
      with (with_console
              ((start ++ l1) ++ [LogProcessing name; ErrorLine error]) w1)
      by reflexivity.
    rewrite H2. by rewrite <- !app_assoc.
  - apply (migrateToNotion_run _ _ _ _ (_, _)). fold found.
    rewrite getAllMarkdownFiles_app, migrate_files_app. unfold bind.
    rewrite H1. cbn [fst snd]. rewrite H2. subst start'. by rewrite <- !app_assoc.
  - reflexivity.
  - reflexivity.
  - cbn [console with_console]. subst start. by rewrite <- !app_assoc.
Qed.

End Service.

Definition no_frontmatter_file : list N := Eval cbv in lit "no frontmatter".

Lemma migrateToNotion_unusable_file_witness :
  exists successCount errorCount w1 w2,
    migrateToNotion str_ds accept_all blog_content_dir
      [FileEnt name_a_md (Ok titled_file);
       FileEnt name_b_md (Ok no_frontmatter_file)] initial_world =
      Done (successCount, S errorCount) w1 /\
    migrateToNotion str_ds accept_all blog_content_dir
      [FileEnt name_a_md (Ok titled_file)] initial_world =
      Done (successCount, errorCount) w2 /\
    requests w1 = requests w2.
Proof.
  destruct (migrateToNotion_unusable_file str_ds accept_all blog_content_dir
              [FileEnt name_a_md (Ok titled_file)] name_b_md
              (Ok no_frontmatter_file) InvalidFrontmatter [] initial_world)
    as (s & e & l1 & l2 & w1 & w2 & Hwith & Hwithout & Hreq & _).
  - reflexivity.
  - right. exists no_frontmatter_file. split; [reflexivity | vm_compute; reflexivity].
  - exists s, e, w1, w2. split; [exact Hwith | split; [exact Hwithout | exact Hreq]].
Defined.

End RunFacts.

(** ** The sync state from one run to the next *)

Module StateFacts.
Import JS Effects Pull JSFacts EffectsFacts PullFacts Scenarios.
Local Open Scope eff_scope.

Lemma lookup_file_listed path fs :
  path ∈ fs.*1 <-> is_Some (lookup_file path fs).
Proof.
  unfold lookup_file. induction fs as [|[p d] fs IH]; cbn.
  - split; [by intros ?%elem_of_nil | by intros [? ?]].
  - unfold str_eqb. destruct (decide (p = path)) as [->|Hne].
    + rewrite bool_decide_eq_true_2 by done. cbn.
      split; [by eexists | intros _; apply elem_of_cons; by left].
    + rewrite bool_decide_eq_false_2 by done. rewrite <- IH, elem_of_cons.
      split; [by intros [?|?] | by right].
Qed.

Section Run.

Variable host : Host.

(** Loading the state never throws and touches neither files nor
    directories.  The state it returns is what [JSON.parse] makes of the
    state file; it returns none when there is no such file, when the file
    cannot be read and when its contents cannot be parsed. *)
Theorem loadSyncState_never_fails (w : World) :
  exists syncState w',
    loadSyncState host w = Done syncState w' /\
    files w' = files w /\
    dirs w' = dirs w /\
    (syncState = None \/
     exists data, lookup_file (SYNC_STATE_FILE host) (files w) = Some data /\
                  JSON_parse host data = Ok syncState) /\
    (SYNC_STATE_FILE host ∉ (files w).*1 -> SYNC_STATE_FILE host ∉ dirs w ->
     syncState = None /\ w' = w).
Proof.
  unfold loadSyncState, try_catch, bind at 1, existsSync.
  destruct (decide (SYNC_STATE_FILE host ∈ dirs w)) as [Hd|Hd];
    destruct (decide (SYNC_STATE_FILE host ∈ (files w).*1)) as [Hf|Hf];
    rewrite ?(bool_decide_eq_true_2 _ Hd), ?(bool_decide_eq_false_2 _ Hd),
      ?(bool_decide_eq_true_2 _ Hf), ?(bool_decide_eq_false_2 _ Hf);
    cbn [orb];
    try (exists None, w; repeat split; (by left) || done).
  all: unfold readFileSync, fs_step, bind, tick, emit, console_put, emit, ret, throw.
  all: destruct (fs_fault host (steps w)) as [e|];
    [eexists None, _; repeat split; (by left) || done|].
  all: cbn [files]; destruct (lookup_file (SYNC_STATE_FILE host) (files w)) as [data|] eqn:El;
    [|eexists None, _; repeat split; (by left) || done].
  all: cbn [lift]; destruct (JSON_parse host data) as [st|e] eqn:Ep;
    cbn [lift ret throw];
    [eexists st, _; repeat split; try done; right; by exists data
    |eexists None, _; repeat split; (by left) || done].
Qed.

(** What [saveSyncState] wrote, [loadSyncState] reads back, provided the
    file can be read and [JSON.parse] undoes [JSON.stringify]. *)
Theorem saved_state_is_loaded (state : SyncState) (w w1 : World) :
  saveSyncState host state w = Done tt w1 ->
  fs_fault host (steps w1) = None ->
  JSON_parse host (JSON_stringify host state) = Ok (Some state) ->
  exists w2,
    loadSyncState host w1 = Done (Some state) w2 /\
    files w2 = files w1.
Proof.
  unfold saveSyncState. rewrite writeFileSync_run.
  destruct (fs_fault host (steps w)); [by destruct (fs_written host (steps w))|].
  intros [= <-] Hfault Hparse. cbn [steps wrote] in Hfault.
  unfold loadSyncState, try_catch, bind at 1, existsSync. cbn [files dirs wrote].
  assert (Hin : SYNC_STATE_FILE host ∈
                (store_file (SYNC_STATE_FILE host) (JSON_stringify host state)
                            (files w)).*1).
  { apply lookup_file_listed. rewrite lookup_store_eq. by eexists. }
  rewrite (bool_decide_eq_true_2 _ Hin), orb_true_r.
  unfold readFileSync, fs_step, bind, tick. cbn [steps wrote]. rewrite Hfault.
  cbn [ret files wrote]. rewrite lookup_store_eq. cbn [emit ret]. rewrite Hparse.
  cbn [lift ret]. by eexists.
Qed.

End Run.

Lemma saved_state_is_loaded_witness :
  exists w2,
    loadSyncState quiet_host
      (world_of (saveSyncState quiet_host {| lastSyncTime := time_2024 |} empty_world)) =
      Done (Some {| lastSyncTime := time_2024 |}) w2.
Proof.
  destruct (saved_state_is_loaded quiet_host {| lastSyncTime := time_2024 |}
              empty_world
              (world_of (saveSyncState quiet_host {| lastSyncTime := time_2024 |}
                                       empty_world)))
    as (w2 & Hload & _).
  - reflexivity.
  - reflexivity.
  - vm_compute. reflexivity.
  - by exists w2.
Defined.

(** The run that follows a run that returned asks for the pages edited
    after the time the first run read from the clock: every query of the
    second run carries that time as its filter.  The two runs may differ in
    everything but the directory and [JSON]. *)
Theorem next_run_filters_by_saved_time (host1 host2 : Host) (w w1 : World) :
  syncPosts host1 w = Done tt w1 ->
  cwd host2 = cwd host1 ->
  fs_fault host2 (steps w1) = None ->
  (forall state,
     JSON_parse host2 (JSON_stringify host1 state) = Ok (Some state)) ->
  exists t evs,
    EvNow t ∈ trace w1 /\
    trace (world_of (syncPosts host2 w1)) = trace w1 ++ evs /\
    Forall (filtered_by (if truthy_str t then Some t else None)) evs.
Proof.
  intros Hrun Hcwd Hfault Hjson.
  destruct (syncPosts_done host1 w w1 Hrun)
    as (t & before & after & tail & Htrace & _ & _ & _ & Hfile).
  exists t.
  assert (Hpath : SYNC_STATE_FILE host2 = SYNC_STATE_FILE host1).
  { unfold SYNC_STATE_FILE. by rewrite Hcwd. }
  assert (Hload : exists w2, loadSyncState host2 w1 =
                             Done (Some {| lastSyncTime := t |}) w2).
  { unfold loadSyncState, try_catch, bind at 1, existsSync. rewrite Hpath.
    assert (Hin : SYNC_STATE_FILE host1 ∈ (files w1).*1).
    { apply lookup_file_listed. rewrite Hfile. by eexists. }
    rewrite (bool_decide_eq_true_2 _ Hin), orb_true_r.
    unfold readFileSync, fs_step, bind, tick. rewrite Hfault.
    cbn [ret files]. rewrite Hfile. cbn [emit ret]. rewrite Hjson.
    cbn [lift ret]. by eexists. }
  destruct Hload as [w2 Hload].
  destruct (syncPosts_filtered host2 w1 _ w2 Hload) as [_ (evs & Hevs & Hall)].
  exists evs. split; [|split; [exact Hevs | exact Hall]].
  rewrite Htrace. rewrite !elem_of_app. right. right. left.
  apply elem_of_cons. by left.
Qed.

Lemma demo_json_round_trip state : demo_parse (demo_stringify state) = Ok (Some state).
Proof.
  destruct state as [t]. unfold demo_parse, demo_stringify. cbn [lastSyncTime].
  rewrite startsWith_app.
  assert (endsWith (json_open ++ t ++ json_close) json_close = true) as ->.
  { unfold endsWith. rewrite !reverse_app, <- app_assoc. apply startsWith_app. }
  cbn [andb]. rewrite drop_app_length, !length_app.
  replace (length json_open + (length t + length json_close) - length json_open -
           length json_close)%nat with (length t) by lia.
  by rewrite take_app_length.
Qed.

Lemma next_run_filters_by_saved_time_witness :
  exists t evs,
    EvNow t ∈ trace (world_of (syncPosts quiet_host empty_world)) /\
    trace (world_of (syncPosts quiet_host
                       (world_of (syncPosts quiet_host empty_world)))) =
      trace (world_of (syncPosts quiet_host empty_world)) ++ evs /\
    Forall (filtered_by (if truthy_str t then Some t else None)) evs.
Proof.
  apply (next_run_filters_by_saved_time quiet_host quiet_host empty_world).
  - vm_compute. reflexivity.
  - reflexivity.
  - reflexivity.
  - exact demo_json_round_trip.
Defined.

(** The process ends with status 0 when the run returned and with status 1
    when it threw.  In the second case the error is the last thing
    printed; the state file is as the run found it, unless what failed is
    the write of the state itself once the file was open, the last thing
    the run did: the file then holds what had been written of the new
    state. *)
Theorem main_exit_status (host : Host) (w : World) :
  exists status w',
    main host w = Done status w' /\
    ((status = 0 /\ syncPosts host w = Done tt w') \/
     (status = 1 /\
      exists error w1,
        syncPosts host w = Threw error w1 /\
        trace w' = trace w1 ++ [EvConsole (ErrorSyncFailed error)] /\
        files w' = files w1 /\
        (lookup_file (SYNC_STATE_FILE host) (files w') =
           lookup_file (SYNC_STATE_FILE host) (files w) \/
         exists t n k evs,
           fs_fault host k = Some error /\
           fs_written host k = Some n /\
           trace w1 =
             trace w ++ evs ++
             [EvWrite (SYNC_STATE_FILE host)
                      (take n (JSON_stringify host {| lastSyncTime := t |}))] /\
           lookup_file (SYNC_STATE_FILE host) (files w') =
             Some (take n (JSON_stringify host {| lastSyncTime := t |}))))).
Proof.
  unfold main, try_catch, bind at 1.
  pose proof (syncPosts_careful host w) as Hc.
  destruct (syncPosts host w) as [[] w1|error w1].
  - exists 0, w1. split; [done|]. by left.
  - eexists 1, _. split; [reflexivity|]. right. split; [done|].
    exists error, w1. repeat split. cbn [files].
    destruct Hc as [Hc|(t & (n & w0 & [_ (evs & Ht & _)] & Hf & Hn & ->) & _)].
    + left. apply Hc.
    + right. exists t, n, (steps w0), evs. split; [done|]. split; [done|].
      cbn [trace files wrote]. rewrite Ht, <- app_assoc. split; [done|].
      apply lookup_store_eq.
Qed.

End StateFacts.

(** ** The posts of a pull: reading, grouping, ordering, naming *)

Module PostsFacts.
Import JS Effects Pull JSFacts EffectsFacts PullFacts Scenarios.
Local Open Scope eff_scope.

Section Run.

Variable host : Host.

(** *** Posts read from the pages *)

Definition complete (post : BlogPost) : Prop := title post <> [] /\ date post <> [].

Lemma read_pages_complete pages posts w :
  Forall complete posts ->
  match read_pages host pages posts w with
  | Done posts' _ => Forall complete posts'
  | Threw _ _ => True
  end.
Proof.
  revert posts w. induction pages as [|page more IH]; intros posts w Hposts; [done|].
  cbn [read_pages]. destruct (properties page) as [props|]; [|by apply IH].
  set (t := as_string (getPropertyValue props prop_Name)).
  set (d := if truthy_str (as_string (getPropertyValue props prop_Published))
            then as_string (getPropertyValue props prop_Published)
            else as_string (getPropertyValue props prop_Created_time)).
  destruct (negb (truthy_str t) || negb (truthy_str d)) eqn:E.
  - unfold bind, console_put, emit. by apply IH.
  - apply orb_false_elim in E as [Et Ed].
    apply negb_false_iff in Et, Ed.
    unfold bind. destruct (pageToMarkdown host (page_id page) w) as [content w1|]; [|done].
    apply IH. apply Forall_app. split; [done|]. constructor; [|constructor].
    split; cbn [title date]; [by destruct t | by destruct d].
Qed.

Lemma fetch_pages_complete answers filter cursor posts w :
  Forall complete posts ->
  match fetch_pages host answers filter cursor posts w with
  | Done posts' _ => Forall complete posts'
  | Threw _ _ => True
  end.
Proof.
  revert cursor posts w. induction answers as [|answer later IH];
    intros cursor posts w Hposts; [done|].
  cbn [fetch_pages]. unfold bind at 1.
  destruct (query _ _ w) as [response w1|]; [|done].
  unfold bind at 1. pose proof (read_pages_complete (results response) posts w1 Hposts) as H.
  destruct (read_pages host (results response) posts w1) as [posts1 w2|]; [|done].
  destruct (has_more response); [by apply IH | done].
Qed.

(** Every post that [fetchBlogPosts] returns has a title and a date that
    are not empty. *)
Theorem fetched_posts_have_title_and_date
        (lastSyncTime : option (list N)) (w : World) :
  match fetchBlogPosts host lastSyncTime w with
  | Done posts _ => Forall complete posts
  | Threw _ _ => True
  end.
Proof.
  unfold fetchBlogPosts, bind, console_put, emit.
  apply fetch_pages_complete. constructor.
Qed.

(** *** Grouping by year *)

Definition year_of (post : BlogPost) : list N := getYearFromDate host (date post).

Definition of_year (year : list N) (post : BlogPost) : bool :=
  str_eqb (year_of post) year.

Lemma str_eqb_true s t : str_eqb s t = true <-> s = t.
Proof. unfold str_eqb. apply bool_decide_eq_true. Qed.

Lemma str_eqb_false s t : str_eqb s t = false <-> s <> t.
Proof. unfold str_eqb. apply bool_decide_eq_false. Qed.

(** The groups hold, year by year, the posts of the year in their order;
    no year comes twice and no group is empty. *)
Definition grouped (seen : list BlogPost)
           (postsByYear : list (list N * list BlogPost)) : Prop :=
  NoDup postsByYear.*1 /\
  Forall (fun group => group.2 = List.filter (of_year group.1) seen /\ group.2 <> [])
         postsByYear /\
  (forall post, post ∈ seen -> year_of post ∈ postsByYear.*1).

Lemma filter_snoc (f : BlogPost -> bool) l x :
  List.filter f (l ++ [x]) = List.filter f l ++ (if f x then [x] else []).
Proof. rewrite List.filter_app. cbn. by destruct (f x). Qed.

Lemma group_push_new year post postsByYear :
  year ∉ postsByYear.*1 ->
  group_push year post postsByYear = postsByYear ++ [(year, [post])].
Proof.
  induction postsByYear as [|[y ps] m IH]; [done|].
  cbn [group_push fmap list_fmap fst]. intros [Hy Hm]%not_elem_of_cons.
  rewrite (proj2 (str_eqb_false y year)) by congruence.
  by rewrite IH.
Qed.

Lemma group_push_old year post postsByYear :
  year ∈ postsByYear.*1 ->
  exists m1 ps m2,
    postsByYear = m1 ++ (year, ps) :: m2 /\
    group_push year post postsByYear = m1 ++ (year, ps ++ [post]) :: m2.
Proof.
  induction postsByYear as [|[y ps] m IH]; [by intros ?%elem_of_nil|].
  cbn [group_push fmap list_fmap fst]. intros Hin.
  destruct (str_eqb y year) eqn:E.
  - apply str_eqb_true in E as ->. by exists [], ps, m.
  - apply str_eqb_false in E. apply elem_of_cons in Hin as [?|Hin]; [congruence|].
    destruct (IH Hin) as (m1 & ps' & m2 & -> & ->).
    by exists ((y, ps) :: m1), ps', m2.
Qed.

Lemma group_push_grouped seen postsByYear post :
  grouped seen postsByYear ->
  grouped (seen ++ [post]) (group_push (year_of post) post postsByYear).
Proof.
  intros (Hnd & Hall & Hin).
  assert (Hother : forall g : list N * list BlogPost,
             g.1 <> year_of post ->
             g.2 = List.filter (of_year g.1) seen /\ g.2 <> [] ->
             g.2 = List.filter (of_year g.1) (seen ++ [post]) /\ g.2 <> []).
  { intros g Hg [H1 H2]. split; [|done]. rewrite filter_snoc. unfold of_year at 2.
    rewrite (proj2 (str_eqb_false _ _)) by congruence. by rewrite app_nil_r. }
  destruct (decide (year_of post ∈ postsByYear.*1)) as [Hm|Hm].
  - destruct (group_push_old _ post _ Hm) as (m1 & ps & m2 & -> & ->).
    rewrite fmap_app in Hnd. cbn [fmap list_fmap fst] in Hnd.
    apply NoDup_app in Hnd as (Hnd1 & Hdis & Hnd2).
    apply NoDup_cons in Hnd2 as [Hy2 Hnd2].
    assert (Hy1 : year_of post ∉ m1.*1).
    { intros H. apply (Hdis _ H). apply elem_of_cons. by left. }
    apply Forall_app in Hall as [Hall1 Hall2].
    apply Forall_cons in Hall2 as [[Hps _] Hall2]. cbn [fst snd] in Hps.
    split; [|split].
    + rewrite fmap_app. cbn [fmap list_fmap fst].
      apply NoDup_app. split; [done|]. split; [done|]. by apply NoDup_cons.
    + apply Forall_app. split; [|apply Forall_cons; split].
      * apply Forall_forall. intros g Hg. apply Hother.
        -- intros Heq. apply Hy1. rewrite <- Heq. by apply (list_elem_of_fmap_2 fst).
        -- rewrite Forall_forall in Hall1. by apply Hall1.
      * cbn [fst snd]. split; [|by destruct ps].
        rewrite filter_snoc, Hps. unfold of_year at 3.
        by rewrite (proj2 (str_eqb_true _ _) eq_refl).
      * apply Forall_forall. intros g Hg. apply Hother.
        -- intros Heq. apply Hy2. rewrite <- Heq. by apply (list_elem_of_fmap_2 fst).
        -- rewrite Forall_forall in Hall2. by apply Hall2.
    + intros p Hp. rewrite fmap_app. cbn [fmap list_fmap fst].
      apply elem_of_app in Hp as [Hp|Hp].
      * specialize (Hin p Hp). by rewrite fmap_app in Hin.
      * apply elem_of_cons in Hp as [->|Hp%elem_of_nil]; [|done].
        apply elem_of_app. right. apply elem_of_cons. by left.
  - rewrite group_push_new by done. split; [|split].
    + rewrite fmap_app. apply NoDup_app. split; [done|]. split.
      * intros y Hy Hy'. apply elem_of_cons in Hy' as [->|Hy'%elem_of_nil]; done.
      * apply NoDup_singleton.
    + apply Forall_app. split.
      * apply Forall_forall. intros g Hg. apply Hother.
        -- intros Heq. apply Hm. rewrite <- Heq. by apply (list_elem_of_fmap_2 fst).
        -- rewrite Forall_forall in Hall. by apply Hall.
      * constructor; [|constructor]. cbn [fst snd]. split; [|done].
        rewrite filter_snoc. unfold of_year at 2.
        rewrite (proj2 (str_eqb_true _ _) eq_refl).
        assert (List.filter (of_year (year_of post)) seen = []) as ->; [|done].
        clear -Hin Hm. induction seen as [|p seen IH]; [done|].
        cbn [List.filter]. unfold of_year at 1.
        rewrite (proj2 (str_eqb_false (year_of p) (year_of post))).
        -- apply IH. intros q Hq. apply Hin. apply elem_of_cons. by right.
        -- intros Heq. apply Hm. rewrite <- Heq. apply Hin. apply elem_of_cons. by left.
    + intros p Hp. rewrite fmap_app. apply elem_of_app.
      apply elem_of_app in Hp as [Hp|Hp]; [left; by apply Hin|].
      apply elem_of_cons in Hp as [->|Hp%elem_of_nil]; [|done].
      right. apply elem_of_cons. by left.
Qed.

(** Grouping loses and invents nothing: each group holds the posts of its
    year, all of them and in the order fetched; no year has two groups, no
    group is empty, and every post has the group of its year. *)
Theorem group_by_year_partitions (posts : list BlogPost) :
  grouped posts (group_by_year host posts).
Proof.
  unfold group_by_year.
  assert (H : forall seen m rest,
             grouped seen m ->
             grouped (seen ++ rest)
                     (fold_left (fun m post =>
                                   group_push (getYearFromDate host (date post)) post m)
                                rest m)).
  { intros seen m rest. revert seen m.
    induction rest as [|post rest IH]; intros seen m Hg.
    - by rewrite app_nil_r.
    - cbn [fold_left]. rewrite (cons_middle post seen rest), app_assoc.
      apply IH. by apply group_push_grouped. }
  apply (H [] [] posts). split; [constructor|]. split; [constructor|].
  by intros post ?%elem_of_nil.
Qed.

(** *** Ordering by date *)

Definition time_of (post : BlogPost) : Z := Date_getTime host (date post).

Definition by_time (p q : BlogPost) : Prop := (time_of p <= time_of q)%Z.

Lemma insert_by_date_perm p sorted : insert_by_date host p sorted ≡ₚ p :: sorted.
Proof.
  induction sorted as [|q more IH]; [done|]. cbn [insert_by_date].
  destruct (_ <=? _)%Z; [done|]. rewrite IH. apply Permutation_swap.
Qed.

Fixpoint ordered (posts : list BlogPost) : Prop :=
  match posts with
  | [] => True
  | p :: later => Forall (by_time p) later /\ ordered later
  end.

Lemma insert_by_date_ordered p sorted :
  ordered sorted -> ordered (insert_by_date host p sorted).
Proof.
  induction sorted as [|q more IH]; [done|]. intros [Hq Hmore].
  cbn [insert_by_date]. fold (time_of p) (time_of q).
  destruct (Z.leb_spec (time_of p) (time_of q)) as [Hle|Hlt].
  - split; [|done]. constructor; [done|].
    eapply Forall_impl; [exact Hq|]. unfold by_time. intros r Hr. lia.
  - split; [|by apply IH]. rewrite insert_by_date_perm.
    constructor; [|done]. unfold by_time. lia.
Qed.

Lemma ordered_lookup posts i j p q :
  ordered posts -> (i <= j)%nat ->
  posts !! i = Some p -> posts !! j = Some q -> by_time p q.
Proof.
  revert i j. induction posts as [|r posts IH]; intros i j Ho Hij Hp Hq; [done|].
  destruct Ho as [Hr Ho]. destruct i as [|i], j as [|j]; try lia.
  - cbn in Hp, Hq. simplify_eq. unfold by_time. lia.
  - cbn in Hp, Hq. simplify_eq. rewrite Forall_forall in Hr.
    apply Hr. by eapply list_elem_of_lookup_2.
  - cbn in Hp, Hq. apply (IH i j); [done | lia | done..].
Qed.

(** A post goes before the posts of the same time that were already in
    the list: the posts that come after it in the input. *)
Lemma insert_by_date_filter (f : BlogPost -> bool) p sorted :
  (forall q, q ∈ sorted -> f q = true -> f p = true -> time_of q = time_of p) ->
  List.filter f (insert_by_date host p sorted) = List.filter f (p :: sorted).
Proof.
  induction sorted as [|q more IH]; intros Hsame; [done|]. cbn [insert_by_date].
  fold (time_of p) (time_of q).
  destruct (Z.leb_spec (time_of p) (time_of q)) as [Hle|Hlt]; [done|].
  cbn [List.filter]. rewrite IH.
  - cbn [List.filter]. destruct (f q) eqn:Eq; [|done].
    destruct (f p) eqn:Ep; [|done].
    specialize (Hsame q (list_elem_of_here _ _) Eq eq_refl). lia.
  - intros r Hr. apply Hsame. by apply list_elem_of_further.
Qed.

(** The posts of a year are written in the order of their dates: sorting
    gives the same posts, each as often as before, ordered by time; posts
    of the same time keep the order in which they were fetched. *)
Theorem sort_by_date_orders (posts : list BlogPost) :
  sort_by_date host posts ≡ₚ posts /\
  (forall i j p q,
     (i <= j)%nat ->
     sort_by_date host posts !! i = Some p ->
     sort_by_date host posts !! j = Some q ->
     (time_of p <= time_of q)%Z) /\
  (forall t, List.filter (fun p => (time_of p =? t)%Z) (sort_by_date host posts) =
             List.filter (fun p => (time_of p =? t)%Z) posts).
Proof.
  assert (H : sort_by_date host posts ≡ₚ posts /\
              ordered (sort_by_date host posts) /\
              forall t, List.filter (fun p => (time_of p =? t)%Z)
                                    (sort_by_date host posts) =
                        List.filter (fun p => (time_of p =? t)%Z) posts).
  { unfold sort_by_date. induction posts as [|p posts (IH1 & IH2 & IH3)].
    - repeat split; constructor.
    - cbn [foldr]. split; [|split].
      + by rewrite insert_by_date_perm, IH1.
      + by apply insert_by_date_ordered.
      + intros t. rewrite insert_by_date_filter.
        * cbn [List.filter]. by rewrite IH3.
        * intros q _ Hq Hp. apply Z.eqb_eq in Hq, Hp. congruence. }
  destruct H as (H1 & H2 & H3). split; [done|]. split; [|done].
  intros i j p q Hij Hp Hq. by apply (ordered_lookup _ i j p q H2).
Qed.

(** *** The file of a post *)

(** The file that a post overwrites is the first of the year's files whose
    name contains the slug of the post, wherever in the name; a new file
    is made only when no name contains it. *)
Theorem existing_slug_file_first_match
        (existingFiles : list (list N)) (post : BlogPost) :
  [] ∉ existingFiles ->
  match existing_slug_file existingFiles post with
  | Some file =>
      exists earlier later,
        existingFiles = earlier ++ file :: later /\
        includes file (slug post) = true /\
        Forall (fun f => includes f (slug post) = false) earlier
  | None => Forall (fun f => includes f (slug post) = false) existingFiles
  end.
Proof.
  intros Hne. unfold existing_slug_file.
  induction existingFiles as [|f files IH]; [constructor|].
  apply not_elem_of_cons in Hne as [Hf Hne]. cbn [List.find].
  destruct (includes f (slug post)) eqn:E.
  - destruct f as [|c f]; [done|]. cbn [truthy_str].
    exists [], files. repeat split; [done | constructor].
  - specialize (IH Hne). destruct (List.find _ files) as [g|].
    + destruct (truthy_str g); [|by constructor].
      destruct IH as (earlier & later & -> & Hg & Hearlier).
      exists (f :: earlier), later. repeat split; [done | by constructor].
    + by constructor.
Qed.

(** A post whose slug is empty takes the first file of the year. *)
Theorem empty_slug_takes_first_file
        (file : list N) (others : list (list N)) (post : BlogPost) :
  file <> [] -> slug post = [] ->
  existing_slug_file (file :: others) post = Some file.
Proof.
  intros Hf Hs. unfold existing_slug_file. cbn [List.find]. rewrite Hs.
  unfold includes, indexOf. rewrite indexOf_from_here by (by destruct file).
  by destruct file.
Qed.

End Run.

Definition file_alpha : list N := Eval cbv in lit "01-alpha.md".
Definition file_beta : list N := Eval cbv in lit "02-beta.md".

(** A post whose title gives no slug. *)
Definition title_marks : list N := Eval cbv in lit "?!".
Definition post_marks : BlogPost :=
  {| id := str_pc; title := title_marks; slug := [];
     date := date_mar; tags := []; content := str_third |}.

Lemma existing_slug_file_first_match_witness :
  match existing_slug_file [file_alpha; file_beta] post_b with
  | Some file =>
      exists earlier later,
        [file_alpha; file_beta] = earlier ++ file :: later /\
        includes file (slug post_b) = true /\
        Forall (fun f => includes f (slug post_b) = false) earlier
  | None => Forall (fun f => includes f (slug post_b) = false) [file_alpha; file_beta]
  end.
Proof.
  apply existing_slug_file_first_match.
  apply (bool_decide_eq_true_1 _). reflexivity.
Defined.

Lemma empty_slug_takes_first_file_witness :
  existing_slug_file [file_alpha; file_beta] post_marks = Some file_alpha.
Proof.
  apply empty_slug_takes_first_file; [discriminate | reflexivity].
Defined.

End PostsFacts.

(** ** Slugs and indices in file names *)

Module NameFacts.
Import JS Effects Pull JSFacts PullFacts SlugFacts Scenarios.

(** *** What a slug keeps of a title *)

Lemma filter_kept_hyphens s :
  Forall (fun c => (HYPHEN =? c) = true) s -> List.filter kept s = [].
Proof.
  induction 1 as [|c s Hc _ IH]; [done|]. cbn [List.filter].
  apply N.eqb_eq in Hc as <-. by rewrite IH.
Qed.

Lemma replace_runs_kept b s :
  List.filter kept (replace_runs b s) = List.filter kept s.
Proof.
  revert b. induction s as [|c s IH]; intros b; [done|]. cbn [replace_runs List.filter].
  destruct (kept c) eqn:K.
  - cbn [List.filter]. by rewrite K, IH.
  - destruct b; [apply IH|]. cbn [List.filter].
    change (kept HYPHEN) with false. apply IH.
Qed.

Lemma strip_hyphens_kept s :
  List.filter kept (strip_hyphens s) = List.filter kept s.
Proof.
  rewrite <- (strip_hyphens_infix s) at 2. rewrite !List.filter_app.
  rewrite (filter_kept_hyphens (span_while _ s)) by apply span_while_Forall.
  rewrite (filter_kept_hyphens (reverse _)), app_nil_r;
    [done | apply Forall_reverse, span_while_Forall].
Qed.

(** The slug holds the letters, digits and Chinese characters of the title
    in lower case, all of them and in their order; whatever else it holds
    is a hyphen. *)
Theorem generateSlug_keeps_letters (title : list N) :
  List.filter kept (generateSlug title) = List.filter kept (toLowerCase title) /\
  List.filter (fun c => negb (kept c)) (generateSlug title) =
    replicate (length (List.filter (fun c => negb (kept c)) (generateSlug title)))
              HYPHEN.
Proof.
  split.
  - unfold generateSlug. by rewrite strip_hyphens_kept, replace_runs_kept.
  - pose proof (shaped_units _ (generateSlug_slug_shaped title)) as Hu.
    induction Hu as [|c s Hc _ IH]; [done|]. cbn [List.filter].
    unfold slug_unit in Hc. destruct (kept c) eqn:K; cbn [negb]; [done|].
    cbn [orb] in Hc. apply N.eqb_eq in Hc as ->.
    cbn [length replicate]. by rewrite <- IH.
Qed.

(** The slug is empty exactly when the title, in lower case, holds no
    letter, digit or Chinese character. *)
Theorem generateSlug_empty_iff (title : list N) :
  generateSlug title = [] <->
  Forall (fun c => kept c = false) (toLowerCase title).
Proof.
  assert (Hnone : forall s, List.filter kept s = [] <-> Forall (fun c => kept c = false) s).
  { induction s as [|c s IH]; [split; [constructor | done]|]. cbn [List.filter].
    destruct (kept c) eqn:K.
    - split; [done|]. intros [H _]%Forall_cons. congruence.
    - rewrite IH. split; [by constructor | by intros [_ H]%Forall_cons]. }
  rewrite <- Hnone. unfold generateSlug at 1.
  rewrite <- (replace_runs_kept false), <- strip_hyphens_kept.
  fold (generateSlug title). split; [by intros ->|]. intros Hk.
  pose proof (generateSlug_slug_shaped title) as [Hu _ Hh _].
  destruct (generateSlug title) as [|c s]; [done|]. exfalso.
  apply Forall_cons in Hu as [Hc _]. cbn [List.filter] in Hk.
  unfold slug_unit in Hc. destruct (kept c); [done|].
  apply N.eqb_eq in Hc as ->. by destruct Hh.
Qed.

(** *** The index in the name of a new file *)

Definition digit_step (acc c : N) : N := 10 * acc + (c - 48).

Lemma parse_uint d acc :
  fold_left digit_step (lit (NilEmpty.string_of_uint d)) acc =
  match acc with
  | 0 => Pos.of_uint d
  | N.pos a => N.pos (Pos.of_uint_acc d a)
  end.
Proof.
  revert acc. induction d as [|d IH|d IH|d IH|d IH|d IH|d IH|d IH|d IH|d IH|d IH];
    intros acc; [by destruct acc|..];
    (cbn [NilEmpty.string_of_uint lit list_ascii_of_string map fold_left];
     rewrite IH; destruct acc as [|a]; [reflexivity|];
     cbn [Pos.of_uint_acc];
     match goal with
     | |- _ = N.pos (Pos.of_uint_acc _ ?q) =>
         replace (digit_step (N.pos a) _) with (N.pos q)
           by (unfold digit_step; cbn; lia)
     end; reflexivity).
Qed.

Lemma digits_uint d : Forall (fun c => is_digit c = true) (lit (NilEmpty.string_of_uint d)).
Proof. induction d; constructor; done. Qed.

Lemma String_of_N_digits n :
  Forall (fun c => is_digit c = true) (String_of_N n) /\
  String_of_N n <> [] /\
  parseInt_digits (String_of_N n) = n.
Proof.
  unfold String_of_N, parseInt_digits.
  assert (Hz : NilZero.string_of_uint (N.to_uint n) =
               NilEmpty.string_of_uint (N.to_uint n) /\
               N.to_uint n <> Decimal.Nil).
  { destruct n as [|p]; [done|]. cbn [N.to_uint].
    pose proof (DecimalPos.Unsigned.to_uint_nonnil p) as Hp.
    by destruct (Pos.to_uint p). }
  destruct Hz as [-> Hnil]. split; [apply digits_uint|]. split.
  - by destruct (N.to_uint n).
  - change (fold_left _ ?l 0) with (fold_left digit_step l 0).
    rewrite parse_uint. apply DecimalN.Unsigned.of_to.
Qed.

Lemma parse_leading_zeros k s :
  parseInt_digits (replicate k 48 ++ s) = parseInt_digits s.
Proof.
  unfold parseInt_digits. rewrite fold_left_app.
  by assert (fold_left (fun acc c => 10 * acc + (c - 48)) (replicate k 48) 0 = 0) as ->
    by (induction k; [done | cbn; done]).
Qed.

Lemma span_while_app_stop f s c rest :
  Forall (fun x => f x = true) s -> f c = false ->
  span_while f (s ++ c :: rest) = s /\ skip_while f (s ++ c :: rest) = c :: rest.
Proof.
  intros Hs Hc. induction Hs as [|x s Hx _ [IH1 IH2]]; cbn.
  - by rewrite Hc.
  - by rewrite Hx, IH1, IH2.
Qed.

(** The largest index that a JavaScript number holds exactly. *)
Definition MAX_SAFE_INTEGER : N := 2 ^ 53 - 1.

(** The index that a run writes into the name of a new file is the index
    that the next run reads from that name, whatever the slug, for the
    indices that JavaScript numbers hold exactly. *)
Theorem new_filename_index_read_back (index : N) (post : BlogPost) :
  index <= MAX_SAFE_INTEGER ->
  numeric_prefix (new_filename index post) = Some index /\
  endsWith (new_filename index post) md_suffix = true.
Proof.
  intros _. destruct (String_of_N_digits index) as (Hd & Hne & Hv).
  unfold new_filename, numeric_prefix, padStart0. split.
  - set (digits := replicate _ 48 ++ String_of_N index).
    assert (Hdigits : Forall (fun c => is_digit c = true) digits).
    { apply Forall_app. split; [|done]. by apply Forall_replicate. }
    change (digits ++ [HYPHEN] ++ slug post ++ md_suffix)
      with (digits ++ HYPHEN :: slug post ++ md_suffix).
    destruct (span_while_app_stop is_digit digits HYPHEN (slug post ++ md_suffix)
                Hdigits eq_refl) as [-> ->].
    assert (digits <> []) by (unfold digits; by destruct (replicate _ _), (String_of_N index)).
    destruct digits as [|x r] eqn:E; [done|]. rewrite N.eqb_refl. f_equal.
    rewrite <- E. unfold digits. by rewrite parse_leading_zeros.
  - rewrite !app_assoc. unfold endsWith. rewrite reverse_app. apply startsWith_app.
Qed.

Lemma new_filename_index_read_back_witness :
  numeric_prefix (new_filename 7 post_a) = Some 7 /\
  endsWith (new_filename 7 post_a) md_suffix = true.
Proof.
  apply new_filename_index_read_back. vm_compute. discriminate.
Defined.

End NameFacts.

(** ** What the two runs leave alone *)

Module ConfineFacts.
Import JS Effects JSFacts EffectsFacts Scenarios.
Local Open Scope eff_scope.

(** *** The pull run and the files *)

Section Pull.
Import Pull PullFacts.

Variable host : Host.

Definition blog_dir : list N := path_join (cwd host) content_path.

(** A name without path separator. *)
Definition plain (name : list N) : Prop := SLASH ∉ name.

(** A file of a year: [<blog>/<year>/<name>], two segments below the
    directory of the blog. *)
Definition year_file (path : list N) : Prop :=
  exists year name,
    path = path_join (path_join blog_dir year) name /\ plain year /\ plain name.

(** A path that the run may write. *)
Definition writable_path (path : list N) : Prop :=
  path = SYNC_STATE_FILE host \/ year_file path.

Definition others_kept (fs fs' : list (list N * list N)) : Prop :=
  forall path, ~ writable_path path -> lookup_file path fs' = lookup_file path fs.

Definition writes_inside (e : Event) : Prop :=
  match e with
  | EvWrite path _ => writable_path path
  | _ => True
  end.

(** One segment of a path in normal form: not empty, without separator,
    and neither [.] nor [..], so that [path.join] appends it as it is. *)
Definition segment (name : list N) : Prop :=
  plain name /\ name <> [] /\ name <> [DOT] /\ name <> [DOT; DOT].

(** An absolute path in normal form, the root apart: each of its segments
    after a separator.  [process.cwd()] gives such a path. *)
Definition normal_dir (dir : list N) : Prop :=
  exists segments,
    segments <> [] /\ Forall segment segments /\
    dir = concat (map (fun name => SLASH :: name) segments).

(** What the service is expected to send: the Slug of a page holds no
    path separator, and the year that [Date] reads from its date, the
    Published date or else the time of creation, is one segment of a
    path. *)
Definition plain_page (page : Page) : Prop :=
  forall props, properties page = Some props ->
    let publishedDate := as_string (getPropertyValue props prop_Published) in
    let createdTime := as_string (getPropertyValue props prop_Created_time) in
    plain (as_string (getPropertyValue props prop_Slug)) /\
    segment (getYearFromDate host
               (if truthy_str publishedDate then publishedDate else createdTime)).

Definition plain_answers (answers : list (QueryRequest -> Result QueryResponse))
  : Prop :=
  forall answer request response,
    answer ∈ answers -> answer request = Ok response ->
    Forall plain_page (results response).

Definition plain_post (post : BlogPost) : Prop :=
  plain (slug post) /\ plain (getYearFromDate host (date post)).

Lemma others_kept_refl fs : others_kept fs fs.
Proof. done. Qed.

Lemma others_kept_trans a b c : others_kept a b -> others_kept b c -> others_kept a c.
Proof. intros H1 H2 path Hp. by rewrite H2, H1. Qed.

Lemma others_kept_store path data fs :
  writable_path path -> others_kept fs (store_file path data fs).
Proof.
  intros Hw other Ho. apply lookup_store_ne. by intros ->.
Qed.

Lemma keeps_bind_result (F : list (list N * list N) -> list (list N * list N) -> Prop)
      (P : Event -> Prop) {A B} (m : M A) (k : A -> M B) (Q : A -> Prop) :
  (forall a b c, F a b -> F b c -> F a c) ->
  keeps F P m ->
  (forall w, match m w with Done a _ => Q a | Threw _ _ => True end) ->
  (forall a, Q a -> keeps F P (k a)) ->
  keeps F P (bind m k).
Proof.
  intros Ht Hm Hq Hk w. unfold bind. specialize (Hm w). specialize (Hq w).
  destruct (m w) as [a w1|e w1]; [|done]. cbn [world_of] in Hm.
  eapply step_trans; [exact Ht | exact Hm | by apply Hk].
Qed.

(** *** Slugs, years and names without separator *)

Lemma generateSlug_plain title : plain (generateSlug title).
Proof.
  pose proof (SlugFacts.shaped_units _ (SlugFacts.generateSlug_slug_shaped title)) as Hu.
  intros Hin. rewrite Forall_forall in Hu. specialize (Hu _ Hin). done.
Qed.

Lemma read_pages_plain pages posts w :
  Forall plain_page pages -> Forall plain_post posts ->
  match read_pages host pages posts w with
  | Done posts' _ => Forall plain_post posts'
  | Threw _ _ => True
  end.
Proof.
  intros Hpages. revert posts w.
  induction Hpages as [|page more Hpage _ IH]; intros posts w Hposts; [done|].
  cbn [read_pages]. destruct (properties page) as [props|] eqn:Ep; [|by apply IH].
  destruct (Hpage props Ep) as (Hslug & [Hyear _]).
  destruct (_ || _).
  - unfold bind, console_put, emit. by apply IH.
  - unfold bind. destruct (pageToMarkdown host (page_id page) w) as [content w1|]; [|done].
    apply IH. apply Forall_app. split; [done|]. constructor; [|constructor].
    split; cbn [slug date].
    + destruct (truthy_str (as_string (getPropertyValue props prop_Slug)));
        [done | apply generateSlug_plain].
    + exact Hyear.
Qed.

Lemma fetch_pages_plain answers filter cursor posts w :
  plain_answers answers -> Forall plain_post posts ->
  match fetch_pages host answers filter cursor posts w with
  | Done posts' _ => Forall plain_post posts'
  | Threw _ _ => True
  end.
Proof.
  revert cursor posts w. induction answers as [|answer later IH];
    intros cursor posts w Hanswers Hposts; [done|].
  cbn [fetch_pages]. unfold bind at 1. rewrite query_run.
  destruct (answer _) as [response|] eqn:Ea; [|done].
  unfold bind at 1.
  pose proof (read_pages_plain (results response) posts
                (add_event (EvQuery {| data_source_id := NOTION_DATASOURCE_ID host;
                                       start_cursor := cursor;
                                       filter_last_edited_after := filter;
                                       sorts := [(prop_Published, descending)] |})
                           (ticked w))
                (Hanswers answer _ response (list_elem_of_here _ _) Ea) Hposts) as H.
  destruct (read_pages host (results response) posts _) as [posts1 w2|]; [|done].
  destruct (has_more response); [|done]. apply IH; [|done].
  intros a r resp Ha. apply Hanswers. by apply list_elem_of_further.
Qed.

Lemma fetchBlogPosts_plain lastSyncTime w :
  plain_answers (remote host) ->
  match fetchBlogPosts host lastSyncTime w with
  | Done posts _ => Forall plain_post posts
  | Threw _ _ => True
  end.
Proof.
  intros H. unfold fetchBlogPosts, bind, console_put, emit.
  by apply fetch_pages_plain.
Qed.

Definition plain_group (group : list N * list BlogPost) : Prop :=
  plain group.1 /\ Forall plain_post group.2.

Lemma group_push_plain year post postsByYear :
  plain year -> plain_post post -> Forall plain_group postsByYear ->
  Forall plain_group (group_push year post postsByYear).
Proof.
  intros Hy Hp. induction 1 as [|[y ps] m [Hg1 Hg2] Hm IH]; cbn [group_push].
  - constructor; [|constructor]. split; [done|]. by constructor.
  - destruct (str_eqb y year).
    + constructor; [|done]. split; [done|]. cbn [snd].
      apply Forall_app. split; [done | by constructor].
    + constructor; [by split | done].
Qed.

Lemma group_by_year_plain posts :
  Forall plain_post posts -> Forall plain_group (group_by_year host posts).
Proof.
  unfold group_by_year. generalize (@nil (list N * list BlogPost)) (Forall_nil_2 plain_group).
  intros m Hm Hposts. revert m Hm.
  induction Hposts as [|post posts [Hs Hy] _ IH]; intros m Hm; [done|].
  cbn [fold_left]. apply IH. by apply group_push_plain.
Qed.

Lemma sort_by_date_plain posts :
  Forall plain_post posts -> Forall plain_post (sort_by_date host posts).
Proof.
  unfold sort_by_date. induction 1 as [|p posts Hp _ IH]; [done|].
  cbn [foldr]. rewrite PostsFacts.insert_by_date_perm. by constructor.
Qed.

Lemma indexOf_from_none i s c : indexOf_from i s [c] = None -> c ∉ s.
Proof.
  revert i. induction s as [|x s IH]; intros i; [intros _; apply not_elem_of_nil|].
  cbn [indexOf_from startsWith]. destruct (N.eqb_spec c x) as [->|Hne]; [done|].
  cbn [andb]. intros H. apply not_elem_of_cons. split; [done | by apply (IH (S i))].
Qed.

Lemma dir_entries_plain dir w : Forall plain (dir_entries dir w).
Proof.
  assert (H : forall paths, Forall plain (omap (entry_name dir) paths)).
  { induction paths as [|p paths IH]; [constructor|]. cbn [omap list_omap].
    destruct (entry_name dir p) as [name|] eqn:E; [|done]. constructor; [|done].
    unfold entry_name in E. destruct (startsWith p _); [|done].
    destruct (drop _ p) as [|c r]; [done|].
    destruct (includes (c :: r) [SLASH]) eqn:Ei; [done|]. injection E as <-.
    unfold includes, indexOf in Ei.
    destruct (indexOf_from 0 (c :: r) [SLASH]) eqn:E0; [done|].
    by apply (indexOf_from_none 0). }
  unfold dir_entries. apply Forall_app. split; apply H.
Qed.

Lemma existing_slug_file_elem existingFiles post file :
  existing_slug_file existingFiles post = Some file -> file ∈ existingFiles.
Proof.
  unfold existing_slug_file.
  destruct (List.find _ existingFiles) as [f|] eqn:E; [|done].
  destruct (truthy_str f); [|done]. intros [= <-].
  apply find_some in E as [E _]. by apply list_elem_of_In.
Qed.

Lemma new_filename_plain index post : plain (slug post) -> plain (new_filename index post).
Proof.
  intros Hs. unfold new_filename, padStart0, plain.
  destruct (NameFacts.String_of_N_digits index) as (Hd & _ & _).
  rewrite !not_elem_of_app. repeat split.
  - intros Hin%elem_of_replicate. by destruct Hin.
  - intros Hin. rewrite Forall_forall in Hd. specialize (Hd _ Hin). done.
  - intros Hin%list_elem_of_singleton. done.
  - done.
  - apply (bool_decide_eq_true_1 _). reflexivity.
Qed.

(** *** The writes of a run *)

Lemma year_file_writable year name :
  plain year -> plain name ->
  writable_path (path_join (path_join blog_dir year) name).
Proof. intros Hy Hn. right. by exists year, name. Qed.

Lemma write_posts_inside year existingFiles maxIndex yearPosts newPostIndex :
  plain year -> Forall plain existingFiles -> Forall plain_post yearPosts ->
  keeps others_kept writes_inside
        (write_posts host (path_join blog_dir year) existingFiles maxIndex
                     yearPosts newPostIndex).
Proof.
  intros Hy Hex Hposts. revert newPostIndex.
  pose proof others_kept_refl as Hr. pose proof others_kept_trans as Ht.
  assert (Hc : forall l, keeps others_kept writes_inside (console_put l)).
  { intros l. by apply keeps_console. }
  assert (Hw : forall name data, plain name ->
             keeps others_kept writes_inside
                   (writeFileSync host (path_join (path_join blog_dir year) name) data)).
  { intros name data Hn. apply keeps_writeFileSync; [done..| |].
    - intros written fs. by apply others_kept_store, year_file_writable.
    - intros written. by apply year_file_writable. }
  induction Hposts as [|post more [Hs _] _ IH]; intros newPostIndex.
  - by apply keeps_ret.
  - cbn [write_posts].
    destruct (existing_slug_file existingFiles post) as [file|] eqn:E.
    + apply existing_slug_file_elem in E. rewrite Forall_forall in Hex.
      apply keeps_bind; [done|apply Hc|]. intros _.
      apply keeps_bind; [done|apply Hw; by apply Hex|]. intros _.
      apply keeps_bind; [done|apply Hc|]. intros _. apply IH.
    + apply keeps_bind; [done|apply Hw; by apply new_filename_plain|]. intros _.
      apply keeps_bind; [done|apply Hc|]. intros _. apply IH.
Qed.

Lemma readdirSync_plain path w :
  match readdirSync host path w with
  | Done names _ => Forall plain names
  | Threw _ _ => True
  end.
Proof.
  unfold readdirSync, fs_step, bind, tick.
  destruct (fs_fault host (steps w)); [done|]. cbn [ret dirs].
  destruct (bool_decide _); [|done]. cbn. apply dir_entries_plain.
Qed.

Lemma sync_year_inside year yearPosts :
  plain year -> Forall plain_post yearPosts ->
  keeps others_kept writes_inside (sync_year host blog_dir year yearPosts).
Proof.
  intros Hy Hposts.
  pose proof others_kept_refl as Hr. pose proof others_kept_trans as Ht.
  unfold sync_year.
  apply keeps_bind; [done|by apply keeps_existsSync|]. intros present.
  apply keeps_bind; [done| |].
  { destruct present; [by apply keeps_ret | by apply keeps_mkdirSync]. }
  intros _. apply keeps_bind; [done|by apply keeps_existsSync|]. intros present'.
  apply (keeps_bind_result _ _ _ _ (Forall plain)); [done| | |].
  - destruct present'; [|by apply keeps_ret].
    apply keeps_bind; [done|by apply keeps_readdirSync|]. intros names.
    by apply keeps_ret.
  - intros w. destruct present'; [|constructor].
    unfold bind at 1. pose proof (readdirSync_plain (path_join blog_dir year) w) as H.
    destruct (readdirSync host _ w) as [names w1|]; [|done]. cbn [ret].
    apply Forall_forall. intros name Hin.
    apply list_elem_of_In, filter_In in Hin as [Hin _]. apply list_elem_of_In in Hin.
    rewrite Forall_forall in H. by apply H.
  - intros existingFiles Hex. apply write_posts_inside; [done..|].
    by apply sort_by_date_plain.
Qed.

Lemma sync_years_inside postsByYear :
  Forall plain_group postsByYear ->
  keeps others_kept writes_inside (sync_years host blog_dir postsByYear).
Proof.
  pose proof others_kept_refl as Hr. pose proof others_kept_trans as Ht.
  induction 1 as [|[year yearPosts] more [Hy Hp] _ IH]; [by apply keeps_ret|].
  cbn [sync_years]. apply keeps_bind; [done|by apply sync_year_inside|].
  intros _. apply IH.
Qed.

Lemma syncPosts_confined :
  plain_answers (remote host) ->
  keeps others_kept writes_inside (syncPosts host).
Proof.
  intros Hplain.
  pose proof others_kept_refl as Hr. pose proof others_kept_trans as Ht.
  assert (Hc : forall l, keeps others_kept writes_inside (console_put l)).
  { intros l. by apply keeps_console. }
  assert (Hs : forall state, keeps others_kept writes_inside (saveSyncState host state)).
  { intros state. apply keeps_writeFileSync; [done..| |].
    - intros written fs. apply others_kept_store. by left.
    - intros written. by left. }
  unfold syncPosts.
  apply keeps_bind; [done|by apply keeps_loadSyncState|]. intros syncState.
  apply keeps_bind; [done|by apply keeps_now|]. intros t.
  apply keeps_bind; [done|apply Hc|]. intros _.
  apply (keeps_bind_result _ _ _ _ (Forall plain_post));
    [done | by apply keeps_fetchBlogPosts | intros w; by apply fetchBlogPosts_plain |].
  intros posts Hposts.
  destruct (length posts =? 0)%nat.
  - apply keeps_bind; [done|apply Hc|]. intros _. apply Hs.
  - apply keeps_bind; [done|apply Hc|]. intros _.
    apply keeps_bind; [done|by apply sync_years_inside, group_by_year_plain|].
    intros _. apply keeps_bind; [done|apply Hs|]. intros _. apply Hc.
Qed.

(** As long as the working directory is a path in normal form, no Slug
    that the service sends holds a path separator and the year of each of
    its dates is one segment of a path, a run, whether it returns or throws, changes no file but the
    state file and files below the directory of the blog, and every file
    it writes, the state file apart, lies in a year directory of the blog:
    [<blog>/<year>/<name>] with a year and a name of one segment each. *)
Theorem syncPosts_changes_only_blog_and_state (w : World) :
  normal_dir (cwd host) ->
  plain_answers (remote host) ->
  let w' := world_of (syncPosts host w) in
  (forall path,
     path <> SYNC_STATE_FILE host ->
     startsWith path (blog_dir ++ [SLASH]) = false ->
     lookup_file path (files w') = lookup_file path (files w)) /\
  exists evs,
    trace w' = trace w ++ evs /\
    forall path data, EvWrite path data ∈ evs ->
      path = SYNC_STATE_FILE host \/
      exists year name,
        path = blog_dir ++ [SLASH] ++ year ++ [SLASH] ++ name /\
        (SLASH ∉ year) /\ (SLASH ∉ name).
Proof.
  intros _ Hplain.
  destruct (syncPosts_confined Hplain w) as [Hf (evs & Ht & Hp)]. split.
  - intros path H1 H2. apply Hf. intros [?|(year & name & -> & _)]; [done|].
    unfold path_join in H2. rewrite <- !app_assoc in H2.
    rewrite (app_assoc blog_dir [SLASH]), startsWith_app in H2. done.
  - exists evs. split; [done|]. intros path data Hin.
    rewrite Forall_forall in Hp. destruct (Hp _ Hin) as [?|(year & name & -> & Hy & Hn)];
      [by left|].
    right. exists year, name. unfold path_join. by rewrite <- !app_assoc.
Qed.

End Pull.

Definition str_blog : list N := Eval cbv in lit "blog".

Lemma syncPosts_changes_only_blog_and_state_witness :
  exists evs,
    Pull.trace (world_of (Pull.syncPosts host_with_untitled empty_world)) =
      Pull.trace empty_world ++ evs /\
    forall path data,
      Pull.EvWrite path data ∈ evs ->
      path = state_path \/
      exists year name,
        path = blog_content_dir ++ [Pull.SLASH] ++ year ++ [Pull.SLASH] ++ name /\
        (Pull.SLASH ∉ year) /\ (Pull.SLASH ∉ name).
Proof.
  destruct (syncPosts_changes_only_blog_and_state host_with_untitled empty_world)
    as [_ (evs & Ht & Hw)].
  - exists [str_blog]. unfold segment.
    repeat apply conj; try reflexivity; try (constructor; [|constructor]);
      repeat apply conj; apply (bool_decide_eq_true_1 _); reflexivity.
  - intros answer request response Hin Ha.
    apply list_elem_of_singleton in Hin. subst answer. injection Ha as <-.
    cbn [Pull.results].
    apply Forall_cons_2; [|apply Forall_cons_2; [|apply Forall_nil_2]];
      intros props [= <-]; unfold segment;
      repeat apply conj; apply (bool_decide_eq_true_1 _); reflexivity.
  - exists evs. split; [exact Ht|]. intros path data Hin. exact (Hw path data Hin).
Defined.

(** *** The push run and the service *)

Section Push.
Import Push.

Variable ds : list N.
Variable respond : nat -> Request -> FetchResult.

(** A request of the run: the creation of a page or the addition of
    blocks to a page, with at most 100 blocks. *)
Definition well_formed (r : Request) : Prop :=
  ((method r = POST /\ endpoint r = pages_endpoint) \/
   (method r = PATCH /\ exists pageId, endpoint r = blocks_endpoint pageId)) /\
  (length (children_of r) <= 100)%nat.

Definition sends_well_formed (w w' : World) : Prop :=
  exists sent, requests w' = requests w ++ sent /\ Forall well_formed sent.

Lemma sends_well_formed_refl w : sends_well_formed w w.
Proof. exists []. by rewrite app_nil_r. Qed.

Lemma sends_well_formed_trans w1 w2 w3 :
  sends_well_formed w1 w2 -> sends_well_formed w2 w3 -> sends_well_formed w1 w3.
Proof.
  intros (s1 & H1 & Hs1) (s2 & H2 & Hs2). exists (s1 ++ s2).
  rewrite H2, H1, app_assoc. split; [done | by apply Forall_app].
Qed.

Lemma notionRequest_well_formed endpoint method body :
  well_formed {| Push.endpoint := endpoint; Push.method := method; Push.body := body |} ->
  respects sends_well_formed (notionRequest respond endpoint method body).
Proof.
  intros Hwf w. unfold notionRequest.
  destruct (respond _ _) as [?|? ?|[?|]]; cbn [world_of];
    (eexists [_]; split; [reflexivity | by constructor]).
Qed.

Lemma migrateToNotion_well_formed contentDir root :
  respects sends_well_formed (migrateToNotion ds respond contentDir root).
Proof.
  pose proof sends_well_formed_refl as Hr. pose proof sends_well_formed_trans as Ht.
  assert (Hc : forall l, respects sends_well_formed (console_put l)).
  { intros l w. exists []. cbn. by rewrite app_nil_r. }
  assert (Happ : forall fuel pageId remainingBlocks i,
             respects sends_well_formed
                      (append_chunks respond fuel pageId remainingBlocks i)).
  { induction fuel as [|fuel IH]; intros pageId remainingBlocks i;
      [by apply respects_ret|].
    cbn [append_chunks]. destruct (i <? length remainingBlocks)%nat;
      [|by apply respects_ret].
    apply respects_bind; [done| |intros _; apply IH].
    apply notionRequest_well_formed. split.
    - right. split; [done | by eexists].
    - cbn. rewrite length_take. lia. }
  assert (Hpage : forall frontmatter content,
             respects sends_well_formed
                      (createNotionPage ds respond frontmatter content)).
  { intros frontmatter content. unfold createNotionPage.
    apply respects_bind; [done|by apply respects_lift|]. intros tags.
    apply respects_bind; [done|by apply respects_lift|]. intros categories.
    apply respects_bind; [done|by apply respects_lift|]. intros published.
    apply respects_bind; [done| |].
    { apply notionRequest_well_formed. split.
      - left. by split.
      - cbn. rewrite length_take. lia. }
    intros pageId. apply respects_bind; [done|apply Happ|]. intros _.
    by apply respects_ret. }
  assert (Hfile : forall read,
             respects sends_well_formed (process_file ds respond read)).
  { intros read. unfold process_file.
    apply respects_bind; [done|by apply respects_lift|]. intros fileContent.
    apply respects_bind; [done|by apply respects_lift|]. intros [frontmatter content].
    destruct (_ || _).
    - apply respects_bind; [done|apply Hc|]. intros _. by apply respects_ret.
    - apply respects_bind; [done|apply Hpage|]. intros pageId.
      apply respects_bind; [done|apply Hc|]. intros _.
      apply respects_bind; [done| |intros _; by apply respects_ret].
      intros w. exists []. cbn. by rewrite app_nil_r. }
  assert (Hloop : forall files s e,
             respects sends_well_formed (migrate_files ds respond contentDir files s e)).
  { induction files as [|[filePath read] more IH]; intros s e;
      [by apply respects_ret|].
    cbn [migrate_files].
    apply respects_bind; [done|apply Hc|]. intros _.
    apply respects_bind; [done| |].
    { apply respects_try_catch; [done| |].
      - apply respects_bind; [done|apply Hfile|]. intros p. by apply respects_ret.
      - intros error. apply respects_bind; [done|apply Hc|]. intros _.
        by apply respects_ret. }
    intros [[|]|]; apply IH. }
  unfold migrateToNotion.
  apply respects_bind; [done|apply Hc|]. intros _.
  apply respects_bind; [done|apply Hc|]. intros _.
  apply respects_bind; [done|apply Hloop|]. intros counts.
  apply respects_bind; [done|apply Hc|]. intros _.
  apply respects_bind; [done|apply Hc|]. intros _.
  apply respects_bind; [done|apply Hc|]. intros _.
  by apply respects_ret.
Qed.

(** Whatever the files hold and whatever the service answers, every request
    of a run creates a page or adds blocks to a page, and carries at most
    100 blocks. *)
Theorem migrateToNotion_requests_well_formed
        (contentDir : list N) (root : list Dirent) (w : World) :
  exists sent,
    requests (world_of (migrateToNotion ds respond contentDir root w)) =
      requests w ++ sent /\
    Forall well_formed sent.
Proof. apply migrateToNotion_well_formed. Qed.

End Push.

End ConfineFacts.

(** ** The files of a year *)

Module YearFacts.
Import JS Effects Pull JSFacts EffectsFacts PullFacts Scenarios.
Local Open Scope eff_scope.

(** *** Names, indices and slugs, as the specification speaks of them *)

(** The file name starts with the decimal digits of [index] and a hyphen:
    it carries the index. *)
Definition numbered (file : list N) (index : N) : Prop :=
  exists digits rest,
    file = digits ++ HYPHEN :: rest /\
    digits <> [] /\
    Forall (fun c => is_digit c = true) digits /\
    parseInt_digits digits = index.

(** No file of the year has the slug of the post in its name. *)
Definition fresh (existingFiles : list (list N)) (post : BlogPost) : bool :=
  forallb (fun file => negb (includes file (slug post))) existingFiles.

(** The number of fresh posts among the first [i]. *)
Definition fresh_before (existingFiles : list (list N)) (posts : list BlogPost)
           (i : nat) : N :=
  N.of_nat (length (List.filter (fresh existingFiles) (take i posts))).

(** What the files become when [written] is written, one after the other. *)
Definition put_all (yearDir : list N) (written : list (BlogPost * list N))
           (fs : list (list N * list N)) : list (list N * list N) :=
  fold_left (fun fs pn => store_file (path_join yearDir pn.2) (file_content pn.1) fs)
            written fs.

Lemma numbered_prefix file index :
  numeric_prefix file = Some index <-> numbered file index.
Proof.
  unfold numeric_prefix, numbered. split.
  - pose proof (span_skip_while is_digit file) as Hs.
    pose proof (span_while_Forall is_digit file) as Hd.
    destruct (span_while is_digit file) as [|d ds] eqn:Es; [done|].
    destruct (skip_while is_digit file) as [|c rest]; [done|].
    destruct (N.eqb_spec c HYPHEN) as [->|]; [|done]. intros [= <-].
    exists (d :: ds), rest. by rewrite Hs.
  - intros (digits & rest & -> & Hne & Hd & <-).
    destruct (NameFacts.span_while_app_stop is_digit digits HYPHEN rest Hd eq_refl)
      as [-> ->].
    destruct digits; [done|]. by rewrite N.eqb_refl.
Qed.

Lemma highest_index_attained existingFiles :
  highest_index existingFiles = 0 \/
  exists file, file ∈ existingFiles /\
               numeric_prefix file = Some (highest_index existingFiles).
Proof.
  unfold highest_index.
  assert (H : forall acc,
             let m := fold_left (fun maxIndex file =>
                                   match numeric_prefix file with
                                   | Some index => if maxIndex <? index then index
                                                   else maxIndex
                                   | None => maxIndex
                                   end) existingFiles acc in
             m = acc \/ exists file, file ∈ existingFiles /\ numeric_prefix file = Some m).
  { induction existingFiles as [|f files IH]; intros acc; [by left|].
    cbn [fold_left]. cbn zeta in IH.
    destruct (IH (match numeric_prefix f with
                  | Some index => if acc <? index then index else acc
                  | None => acc
                  end)) as [Heq|(file & Hin & Hf)].
    - cbn zeta. rewrite Heq. destruct (numeric_prefix f) as [index|] eqn:E; [|by left].
      destruct (acc <? index); [|by left].
      right. exists f. split; [apply list_elem_of_here | done].
    - right. exists file. split; [by apply list_elem_of_further | done]. }
  apply (H 0).
Qed.

Lemma includes_empty_name slug : includes [] slug = true -> slug = [].
Proof. destruct slug; [done|]. discriminate. Qed.

(** What [find] and the test of its result give, name by name. *)
Lemma slug_file_cases existingFiles post :
  [] ∉ existingFiles ->
  match existing_slug_file existingFiles post with
  | None => fresh existingFiles post = true
  | Some name =>
      fresh existingFiles post = false /\
      exists earlier later,
        existingFiles = earlier ++ name :: later /\
        includes name (slug post) = true /\
        Forall (fun file => includes file (slug post) = false) earlier
  end.
Proof.
  intros Hne. unfold existing_slug_file, fresh.
  induction existingFiles as [|f files IH]; [done|].
  apply not_elem_of_cons in Hne as [Hf Hne]. cbn [List.find forallb].
  destruct (includes f (slug post)) eqn:E.
  - destruct f as [|c f]; [done|]. cbn [truthy_str negb andb].
    split; [done|]. exists [], files. repeat split; [done | constructor].
  - cbn [negb andb]. specialize (IH Hne). destruct (List.find _ files) as [g|].
    + destruct (truthy_str g); [|done].
      destruct IH as (Hfresh & earlier & later & -> & Hg & Hearlier).
      split; [done|]. exists (f :: earlier), later.
      repeat split; [done | by constructor].
    + done.
Qed.

Lemma is_new_fresh existingFiles post :
  [] ∉ existingFiles -> is_new existingFiles post = fresh existingFiles post.
Proof.
  intros Hne. unfold is_new. pose proof (slug_file_cases existingFiles post Hne) as H.
  destruct (existing_slug_file existingFiles post); [by destruct H as [-> _] | done].
Qed.

Lemma new_before_fresh existingFiles posts i :
  [] ∉ existingFiles ->
  new_before existingFiles posts i = fresh_before existingFiles posts i.
Proof.
  intros Hne. unfold new_before, fresh_before. do 2 f_equal.
  apply filter_ext. intros post. by apply is_new_fresh.
Qed.

Lemma fresh_before_lt existingFiles posts i j p :
  (i < j)%nat -> posts !! i = Some p -> fresh existingFiles p = true ->
  fresh_before existingFiles posts i < fresh_before existingFiles posts j.
Proof.
  intros Hij Hp Hf. unfold fresh_before.
  assert (exists rest, take j posts = take i posts ++ p :: rest) as [rest ->].
  { assert (Hp' : take j posts !! i = Some p) by (by rewrite lookup_take_lt).
    exists (drop (S i) (take j posts)).
    rewrite <- (take_drop_middle _ _ _ Hp') at 1.
    f_equal. rewrite take_take. f_equal. lia. }
  rewrite List.filter_app. cbn [List.filter]. rewrite Hf, length_app. cbn [length]. lia.
Qed.

Lemma existing_md_names yearDir w :
  Forall (fun name => endsWith name md_suffix = true /\ SLASH ∉ name)
         (existing_md yearDir w).
Proof.
  unfold existing_md. apply Forall_forall. intros name Hin.
  apply list_elem_of_In, filter_In in Hin as [Hin Hmd]. split; [done|].
  apply list_elem_of_In in Hin.
  pose proof (ConfineFacts.dir_entries_plain yearDir w) as H.
  rewrite Forall_forall in H. by apply H.
Qed.

Lemma existing_md_nonempty yearDir w : [] ∉ existing_md yearDir w.
Proof.
  intros Hin. pose proof (existing_md_names yearDir w) as H.
  rewrite Forall_forall in H. by destruct (H _ Hin).
Qed.

(** *** Every change of the files is on the trace *)

Definition put (fs : list (list N * list N)) (write : list N * list N)
  : list (list N * list N) := store_file write.1 write.2 fs.

Definition recorded (w w' : World) : Prop :=
  exists evs,
    trace w' = trace w ++ evs /\
    files w' = fold_left put (writes_of evs) (files w).

Lemma recorded_refl w : recorded w w.
Proof. exists []. by rewrite app_nil_r. Qed.

Lemma recorded_trans w1 w2 w3 : recorded w1 w2 -> recorded w2 w3 -> recorded w1 w3.
Proof.
  intros (e1 & Ht1 & Hf1) (e2 & Ht2 & Hf2). exists (e1 ++ e2).
  rewrite Ht2, Ht1, app_assoc. split; [done|].
  by rewrite writes_of_app, fold_left_app, <- Hf1.
Qed.

Lemma recorded_event w w' e :
  files w' = files w -> trace w' = trace w ++ [e] ->
  (forall path data, e <> EvWrite path data) -> recorded w w'.
Proof.
  intros Hf Ht He. exists [e]. split; [done|]. rewrite Hf.
  destruct e; try done. by destruct (He path data).
Qed.

Lemma recorded_silent w w' :
  files w' = files w -> trace w' = trace w -> recorded w w'.
Proof. intros Hf Ht. exists []. by rewrite app_nil_r. Qed.

Section Recorded.

Variable host : Host.

Lemma console_recorded l : respects recorded (console_put l).
Proof. intros w. by apply (recorded_event _ _ (EvConsole l)). Qed.

Lemma fs_step_recorded : respects recorded (fs_step host).
Proof.
  intros w. unfold fs_step, bind, tick.
  destruct (fs_fault host (steps w)); by apply recorded_silent.
Qed.

Lemma writeFileSync_recorded path data :
  respects recorded (writeFileSync host path data).
Proof.
  intros w. rewrite writeFileSync_run.
  destruct (fs_fault host (steps w)); [destruct (fs_written host (steps w))|];
    cbn [world_of];
    try (eexists [_]; split; reflexivity).
  by apply recorded_silent.
Qed.

Lemma mkdirSync_recorded path : respects recorded (mkdirSync host path).
Proof.
  intros w. unfold mkdirSync, fs_step, bind, tick, emit.
  destruct (fs_fault host (steps w)); cbn [world_of throw ret].
  - by apply recorded_silent.
  - by apply (recorded_event _ _ (EvMkdir path)).
Qed.

Lemma readdirSync_recorded path : respects recorded (readdirSync host path).
Proof.
  intros w. unfold readdirSync, fs_step, bind, tick, emit.
  destruct (fs_fault host (steps w)); cbn [world_of throw ret dirs];
    [by apply recorded_silent|].
  destruct (bool_decide _); cbn [world_of ret].
  - by apply (recorded_event _ _ (EvReaddir path)).
  - by apply recorded_silent.
Qed.

Lemma write_posts_recorded yearDir existingFiles maxIndex yearPosts newPostIndex :
  respects recorded
           (write_posts host yearDir existingFiles maxIndex yearPosts newPostIndex).
Proof.
  revert newPostIndex.
  induction yearPosts as [|post more IH]; intros newPostIndex.
  - apply respects_ret, recorded_refl.
  - cbn [write_posts]. destruct (existing_slug_file existingFiles post).
    + apply respects_bind; [apply recorded_trans | apply console_recorded|]. intros _.
      apply respects_bind; [apply recorded_trans | apply writeFileSync_recorded|].
      intros _.
      apply respects_bind; [apply recorded_trans | apply console_recorded|]. intros _.
      apply IH.
    + apply respects_bind; [apply recorded_trans | apply writeFileSync_recorded|].
      intros _.
      apply respects_bind; [apply recorded_trans | apply console_recorded|]. intros _.
      apply IH.
Qed.

Lemma sync_year_recorded contentDir year yearPosts :
  respects recorded (sync_year host contentDir year yearPosts).
Proof.
  unfold sync_year.
  apply respects_bind; [apply recorded_trans | intros w; apply recorded_refl|].
  intros present.
  apply respects_bind; [apply recorded_trans | |].
  { destruct present; [apply respects_ret, recorded_refl | apply mkdirSync_recorded]. }
  intros _.
  apply respects_bind; [apply recorded_trans | intros w; apply recorded_refl|].
  intros present'.
  apply respects_bind; [apply recorded_trans | |].
  { destruct present'; [|apply respects_ret, recorded_refl].
    apply respects_bind; [apply recorded_trans | apply readdirSync_recorded|].
    intros names. apply respects_ret, recorded_refl. }
  intros existingFiles. apply write_posts_recorded.
Qed.

(** *** The order of the writes *)

Lemma sort_by_date_perm posts : sort_by_date host posts ≡ₚ posts.
Proof.
  unfold sort_by_date. induction posts as [|p posts IH]; [done|].
  cbn [foldr]. by rewrite PostsFacts.insert_by_date_perm, IH.
Qed.

Lemma sort_by_date_ordered posts : PostsFacts.ordered host (sort_by_date host posts).
Proof.
  unfold sort_by_date. induction posts as [|p posts IH]; [done|].
  cbn [foldr]. by apply PostsFacts.insert_by_date_ordered.
Qed.

(** The posts of a year with the names they are written to. *)
Definition named (existingFiles : list (list N)) (posts : list BlogPost)
  : list (BlogPost * list N) :=
  imap (fun i post =>
          (post, name_for existingFiles (highest_index existingFiles)
                          (new_before existingFiles posts i) post))
       posts.

Lemma imap_fst {A B} (f : nat -> A -> B) (l : list A) :
  (imap (fun i a => (a, f i a)) l).*1 = l.
Proof.
  revert f. induction l as [|a l IH]; intros f; [done|].
  cbn [imap fmap list_fmap fst]. f_equal. apply IH.
Qed.

Lemma imap_paired {A B C} (f : nat -> A -> B) (g : A * B -> C) (l : list A) :
  map g (imap (fun i a => (a, f i a)) l) = imap (fun i a => g (a, f i a)) l.
Proof.
  revert f. induction l as [|a l IH]; intros f; [done|].
  cbn [imap map]. f_equal. apply IH.
Qed.

Lemma put_all_imap yearDir (f : nat -> BlogPost -> list N) (l : list BlogPost) fs :
  fold_left put (imap (fun i post => (path_join yearDir (f i post), file_content post)) l)
            fs =
  put_all yearDir (imap (fun i post => (post, f i post)) l) fs.
Proof.
  unfold put_all. revert f fs. induction l as [|p l IH]; intros f fs; [done|].
  cbn [imap fold_left]. apply IH.
Qed.

End Recorded.

Section Year.

Variable host : Host.
Hypothesis no_fault : forall k, fs_fault host k = None.

(** C4.  The posts of a year are written in the order of their dates.  A
    post whose slug occurs in the name of a file of the year directory is
    written to the first such file, which keeps its place and its name and
    uses up no index.  The k-th of the other posts is written to a new
    file named by the index that follows the highest index of the
    directory by k, in two digits or more, a hyphen, the slug and ".md".
    So the new indices increase strictly and exceed every index of the
    directory, and three posts that go into a directory without numbered
    files are written as 01-, 02- and 03-<slug>.md.  Indices are those
    that JavaScript numbers hold exactly; the content directory is a path
    in normal form, the year one segment of a path, and slugs hold no
    path separator. *)
Theorem year_files_written
        (contentDir year : list N) (yearPosts : list BlogPost) (w : World) :
  let yearDir := path_join contentDir year in
  let existingFiles := existing_md yearDir w in
  ConfineFacts.normal_dir contentDir ->
  ConfineFacts.segment year ->
  yearDir ∉ (files w).*1 ->
  Forall (fun post => SLASH ∉ slug post) yearPosts ->
  (forall file index,
     file ∈ existingFiles -> numbered file index ->
     index + N.of_nat (length yearPosts) <= NameFacts.MAX_SAFE_INTEGER) ->
  exists (w' : World) (written : list (BlogPost * list N)) (maxIndex : N),
    let index_at := fun i =>
      maxIndex + fresh_before existingFiles written.*1 i + 1 in
    sync_year host contentDir year yearPosts w = Done tt w' /\
    writes_of (drop (length (trace w)) (trace w')) =
      map (fun pn => (path_join yearDir pn.2, file_content pn.1)) written /\
    files w' = put_all yearDir written (files w) /\
    written.*1 ≡ₚ yearPosts /\
    (forall i j p q,
       (i <= j)%nat -> written.*1 !! i = Some p -> written.*1 !! j = Some q ->
       (Date_getTime host (date p) <= Date_getTime host (date q))%Z) /\
    (forall file index,
       file ∈ existingFiles -> numbered file index -> index <= maxIndex) /\
    (maxIndex = 0 \/
     exists file, file ∈ existingFiles /\ numbered file maxIndex) /\
    (forall i post name,
       written !! i = Some (post, name) ->
       (SLASH ∉ name) /\
       if fresh existingFiles post then
         name = padStart0 2 (String_of_N (index_at i)) ++ [HYPHEN] ++
                slug post ++ md_suffix
       else
         exists earlier later,
           existingFiles = earlier ++ name :: later /\
           includes name (slug post) = true /\
           Forall (fun file => includes file (slug post) = false) earlier) /\
    (forall i j post,
       (i < j)%nat -> written.*1 !! i = Some post ->
       fresh existingFiles post = true -> index_at i < index_at j) /\
    (forall file index i,
       file ∈ existingFiles -> numbered file index -> index < index_at i) /\
    (forall p1 p2 p3,
       written.*1 = [p1; p2; p3] ->
       (forall file index, file ∈ existingFiles -> ~ numbered file index) ->
       fresh existingFiles p1 = true ->
       fresh existingFiles p2 = true ->
       fresh existingFiles p3 = true ->
       written.*2 = [prefix_01 ++ slug p1 ++ md_suffix;
                     prefix_02 ++ slug p2 ++ md_suffix;
                     prefix_03 ++ slug p3 ++ md_suffix]).
Proof.
  intros yearDir existingFiles _ _ Hfile Hslugs _.
  destruct (sync_year_names host no_fault contentDir year yearPosts w Hfile)
    as (w' & evs & Hrun & Ht & Hw).
  fold yearDir existingFiles in Hw.
  set (sorted := sort_by_date host yearPosts) in *.
  pose proof (existing_md_nonempty yearDir w) as Hne. fold existingFiles in Hne.
  exists w', (named existingFiles sorted), (highest_index existingFiles).
  assert (Hfst : (named existingFiles sorted).*1 = sorted) by apply imap_fst.
  cbn zeta. rewrite Hfst.
  assert (Hmax : forall file index,
             file ∈ existingFiles -> numbered file index ->
             index <= highest_index existingFiles).
  { intros file index Hin Hn. apply numbered_prefix in Hn.
    by apply (highest_index_bound existingFiles file). }
  assert (Hname : forall i post name,
             named existingFiles sorted !! i = Some (post, name) ->
             sorted !! i = Some post /\
             name = name_for existingFiles (highest_index existingFiles)
                             (fresh_before existingFiles sorted i) post).
  { intros i post name Hi. unfold named in Hi.
    rewrite list_lookup_imap in Hi.
    destruct (sorted !! i) as [p|] eqn:Ep; [|done]. cbn in Hi.
    injection Hi as <- <-. split; [done|]. by rewrite new_before_fresh. }
  split; [exact Hrun|]. split; [|split; [|split; [|split; [|split; [|split;
    [|split; [|split; [|split]]]]]]]].
  - rewrite Ht, drop_app_length, Hw. unfold named. by rewrite imap_paired.
  - pose proof (sync_year_recorded host contentDir year yearPosts w) as Hrec.
    rewrite Hrun in Hrec. cbn [world_of] in Hrec. destruct Hrec as (evs' & Ht' & Hf').
    rewrite Ht in Ht'. apply app_inv_head in Ht'. subst evs'.
    rewrite Hf', Hw. apply put_all_imap.
  - apply sort_by_date_perm.
  - intros i j p q Hij Hp Hq.
    apply (PostsFacts.ordered_lookup host sorted i j p q);
      [apply sort_by_date_ordered | done..].
  - exact Hmax.
  - destruct (highest_index_attained existingFiles) as [H0|(file & Hin & Hf)];
      [by left|].
    right. exists file. split; [done|]. by apply numbered_prefix.
  - intros i post name Hi. destruct (Hname i post name Hi) as [Hp ->].
    pose proof (slug_file_cases existingFiles post Hne) as Hcases.
    unfold name_for. destruct (existing_slug_file existingFiles post) as [file|].
    + destruct Hcases as (-> & earlier & later & Hex & Hinc & Hearlier). split.
      * pose proof (existing_md_names yearDir w) as Hnames.
        fold existingFiles in Hnames. rewrite Forall_forall in Hnames.
        apply Hnames. rewrite Hex. apply elem_of_app. right. apply list_elem_of_here.
      * by exists earlier, later.
    + rewrite Hcases. split; [|done].
      apply ConfineFacts.new_filename_plain.
      assert (Hall : Forall (fun post => SLASH ∉ slug post) sorted).
      { unfold sorted. by rewrite sort_by_date_perm. }
      rewrite Forall_forall in Hall. apply Hall. by eapply list_elem_of_lookup_2.
  - intros i j post Hij Hp Hf.
    assert (fresh_before existingFiles sorted i < fresh_before existingFiles sorted j)
      by (by apply (fresh_before_lt _ _ _ _ post)).
    lia.
  - intros file index i Hin Hn. specialize (Hmax file index Hin Hn). lia.
  - intros p1 p2 p3 Hs Hnone H1 H2 H3.
    assert (H0 : highest_index existingFiles = 0).
    { destruct (highest_index_attained existingFiles) as [H0|(file & Hin & Hf)];
        [done|].
      apply numbered_prefix in Hf. by destruct (Hnone _ _ Hin Hf). }
    unfold named. rewrite Hs. cbn [imap fmap list_fmap snd]. unfold compose.
    rewrite !new_before_fresh by done. unfold name_for, fresh_before.
    pose proof (slug_file_cases existingFiles p1 Hne) as C1.
    pose proof (slug_file_cases existingFiles p2 Hne) as C2.
    pose proof (slug_file_cases existingFiles p3 Hne) as C3.
    destruct (existing_slug_file existingFiles p1); [destruct C1; congruence|].
    destruct (existing_slug_file existingFiles p2); [destruct C2; congruence|].
    destruct (existing_slug_file existingFiles p3); [destruct C3; congruence|].
    rewrite H0. cbn [take List.filter]. rewrite H1, H2. reflexivity.
Qed.

End Year.

(** A year directory with a post and a page of notes. *)
Definition year_2024 : list N := Eval cbv in lit "/blog/src/content/blog/2024".
Definition path_alpha : list N :=
  Eval cbv in lit "/blog/src/content/blog/2024/01-alpha.md".
Definition path_beta : list N :=
  Eval cbv in lit "/blog/src/content/blog/2024/02-beta.md".
Definition path_gamma : list N :=
  Eval cbv in lit "/blog/src/content/blog/2024/03-gamma.md".
Definition path_notes : list N :=
  Eval cbv in lit "/blog/src/content/blog/2024/notes.md".
Definition str_old : list N := Eval cbv in lit "old".
Definition str_src : list N := Eval cbv in lit "src".

Definition world_2024 : World :=
  {| files := [(path_alpha, str_old); (path_notes, str_old)];
     dirs := [year_2024]; steps := 0; trace := [] |}.

Lemma year_files_written_witness :
  exists w',
    sync_year quiet_host blog_content_dir str_2024 [post_c; post_a; post_b]
              world_2024 = Done tt w' /\
    writes_of (drop (length (trace world_2024)) (trace w')) =
      [(path_alpha, file_content post_a);
       (path_beta, file_content post_b);
       (path_gamma, file_content post_c)] /\
    files w' =
      [(path_alpha, file_content post_a); (path_notes, str_old);
       (path_beta, file_content post_b); (path_gamma, file_content post_c)].
Proof.
  destruct (year_files_written quiet_host (fun _ => eq_refl)
              blog_content_dir str_2024 [post_c; post_a; post_b] world_2024)
    as (w' & written & maxIndex & Hrun & Hwrites & Hfiles & Hperm & Horder &
        Hmax & Hattained & Hnames & _).
  - exists [ConfineFacts.str_blog; str_src; str_content; ConfineFacts.str_blog].
    unfold ConfineFacts.segment.
    repeat apply conj; try reflexivity; try (repeat constructor);
      repeat apply conj; apply (bool_decide_eq_true_1 _); reflexivity.
  - unfold ConfineFacts.segment.
    repeat apply conj; apply (bool_decide_eq_true_1 _); reflexivity.
  - apply (bool_decide_eq_true_1 _). reflexivity.
  - repeat constructor; apply (bool_decide_eq_true_1 _); reflexivity.
  - intros file index Hin Hn. apply numbered_prefix in Hn.
    vm_compute in Hin.
    apply list_elem_of_In in Hin. destruct Hin as [<-|[<-|[]]];
      vm_compute in Hn; [|discriminate].
    injection Hn as <-. vm_compute. discriminate.
  - exists w'. split; [exact Hrun|].
    vm_compute in Hrun. injection Hrun as <-. split; reflexivity.
Defined.

End YearFacts.
